(** * GA-DPAMSA: FASTA preprocessing utilities and dataset indexing

    A shallow embedding of
    - [datasets/orthodb_preparation/data_utils.py] (FASTA codec, base
      composition, ambiguity resolution, cut lengths, deduplication) and
    - [dataset_module/fasta_dataset.py] (the [FastaDataset] directory index),
    followed by the properties proved about them.

    Modelling conventions.
    - A Python [str] is a list of characters ([str := list ascii]).  The
      development covers 7-bit ASCII text, which is what nucleotide FASTA
      files hold: the character methods ([upper], [lower], [isupper],
      [isspace], the regex class [\d]) are the ASCII ones, and codes above
      127 are caseless, non-blank and non-digit.
    - A Python [int] is a [Z].  A Python [float] is modelled twice.  For
      the properties that do not depend on rounding it is idealised as an
      exact rational ([Q]), and [a / b] is the rational quotient.  For those
      that do (which candidate a random number draws, how far the returned
      probabilities are from summing to 1) it is an IEEE-754 double: the
      rational it denotes, every operation being followed by [binary64],
      the rounding to the nearest double; module [Float64] repeats the
      ambiguity resolver on doubles.
    - A Python [dict] (also [OrderedDict] and [Counter]) is an association
      list in insertion order without repeated keys.
    - An exception is a [Raise] result.
    - The module [random] is a stream of raw integers, one consumed by each
      call of [random.random] or [random.randint]. *)

From Stdlib Require Import List Ascii Bool Arith ZArith NArith QArith.
From Stdlib Require Import Qround Qabs Qpower.
From Stdlib Require String.
Import String.StringSyntax.
From Stdlib Require Import Lia Lqa Permutation Sorted.
Import ListNotations.

Local Open Scope char_scope.
Local Open Scope nat_scope.

(* ================================================================== *)
(** * Python values *)

Definition str := list ascii.

(** A string literal. *)
Delimit Scope string_scope with string.
Definition lit (s : String.string) : str := String.list_ascii_of_string s.
Arguments lit s%_string.

Inductive exn : Set := KeyError | ValueError | IndexError.

Inductive result (A : Type) : Type :=
| Ok (a : A)
| Raise (e : exn).
Arguments Ok {A} a.
Arguments Raise {A} e.

Definition bind {A B} (r : result A) (k : A -> result B) : result B :=
  match r with
  | Ok a => k a
  | Raise e => Raise e
  end.

Notation "x <- r ;; k" := (bind r (fun x => k))
  (at level 61, r at next level, right associativity).
Notation "' p <- r ;; k" := (bind r (fun x => let p := x in k))
  (at level 61, p pattern, r at next level, right associativity).

(** ** Characters *)

Definition code (c : ascii) : N := N_of_ascii c.

Definition isupper (c : ascii) : bool := ((65 <=? code c) && (code c <=? 90))%N.
Definition islower (c : ascii) : bool := ((97 <=? code c) && (code c <=? 122))%N.
Definition isdigit (c : ascii) : bool := ((48 <=? code c) && (code c <=? 57))%N.

(** [str.isspace] on ASCII: TAB, LF, VT, FF, CR, FS, GS, RS, US and space. *)
Definition isspace (c : ascii) : bool :=
  (((9 <=? code c) && (code c <=? 13)) ||
   ((28 <=? code c) && (code c <=? 32)))%N.

Definition upper (c : ascii) : ascii :=
  if islower c then ascii_of_N (code c - 32) else c.
Definition lower (c : ascii) : ascii :=
  if isupper c then ascii_of_N (code c + 32) else c.

Definition LF : ascii := ascii_of_N 10.
Definition CR : ascii := ascii_of_N 13.
Definition TAB : ascii := ascii_of_N 9.
Definition SPACE : ascii := " "%char.

(** ** Strings *)

Fixpoint str_eqb (a b : str) : bool :=
  match a, b with
  | [], [] => true
  | x :: a', y :: b' => Ascii.eqb x y && str_eqb a' b'
  | _, _ => false
  end.

Fixpoint dropwhile {A} (p : A -> bool) (l : list A) : list A :=
  match l with
  | [] => []
  | x :: l' => if p x then dropwhile p l' else l
  end.

(** [s.lstrip()], [s.rstrip()], [s.strip()], and [s.rstrip(chars)] for a
    one-character [chars]. *)
Definition lstrip (s : str) : str := dropwhile isspace s.
Definition rstrip (s : str) : str := rev (dropwhile isspace (rev s)).
Definition strip (s : str) : str := rstrip (lstrip s).
Definition rstrip_char (c : ascii) (s : str) : str :=
  rev (dropwhile (Ascii.eqb c) (rev s)).

(** [s.replace(c, '')] for a one-character [c]. *)
Definition remove_char (c : ascii) (s : str) : str :=
  filter (fun x => negb (Ascii.eqb x c)) s.

Fixpoint startswith (p s : str) : bool :=
  match p, s with
  | [], _ => true
  | x :: p', y :: s' => Ascii.eqb x y && startswith p' s'
  | _ :: _, [] => false
  end.

Definition endswith (p s : str) : bool := startswith (rev p) (rev s).

(** [s[i:j]] for arbitrary integers [i], [j]: a negative index counts from
    the end, and both are clamped to the string. *)
Definition slice_index (len k : Z) : Z :=
  if (k <? 0)%Z then Z.max 0 (k + len) else Z.min k len.

Definition slice {A} (s : list A) (i j : Z) : list A :=
  let len := Z.of_nat (length s) in
  let i' := slice_index len i in
  let j' := slice_index len j in
  firstn (Z.to_nat (j' - i')) (skipn (Z.to_nat i') s).

(** [range(start, stop, step)] as a list; a zero step raises [ValueError]. *)
Definition range (start stop step : Z) : result (list Z) :=
  (if step =? 0 then Raise ValueError
   else
     let n := if 0 <? step
              then (stop - start + step - 1) / step
              else (start - stop - step - 1) / (- step) in
     Ok (map (fun k => start + Z.of_nat k * step) (seq 0 (Z.to_nat n))))%Z.

(** ** Dictionaries *)

Section Dict.
Context {K V : Type} (eqb : K -> K -> bool).

Definition dict := list (K * V).

Fixpoint dict_get (d : dict) (k : K) : option V :=
  match d with
  | [] => None
  | (k', v) :: d' => if eqb k' k then Some v else dict_get d' k
  end.

Definition dict_contains (d : dict) (k : K) : bool :=
  match dict_get d k with Some _ => true | None => false end.

(** [d[k] = v]: an existing key keeps its position, a new one goes last. *)
Fixpoint dict_set (d : dict) (k : K) (v : V) : dict :=
  match d with
  | [] => [(k, v)]
  | (k', v') :: d' =>
      if eqb k' k then (k', v) :: d' else (k', v') :: dict_set d' k v
  end.

(** [d[k]], which raises [KeyError] on a missing key. *)
Definition dict_item (d : dict) (k : K) : result V :=
  match dict_get d k with Some v => Ok v | None => Raise KeyError end.

(** [dict(pairs)] and the dict comprehension [{k: v for (k, v) in pairs}]. *)
Definition dict_of (pairs : list (K * V)) : dict :=
  fold_left (fun d kv => dict_set d (fst kv) (snd kv)) pairs [].

Definition dict_keys (d : dict) : list K := map fst d.
Definition dict_values (d : dict) : list V := map snd d.
End Dict.

(** ** Counters *)

Section Counter.
Context {K : Type} (eqb : K -> K -> bool).

(** [c[k]] on a [Counter]: a missing key counts 0. *)
Definition counter_get (c : dict (K:=K) (V:=Z)) (k : K) : Z :=
  match dict_get eqb c k with Some n => n | None => 0%Z end.

(** [c[k] += 1]. *)
Definition counter_incr (c : dict) (k : K) : dict :=
  dict_set eqb c k (counter_get c k + 1)%Z.

(** [Counter(iterable)]. *)
Definition Counter (l : list K) : dict := fold_left counter_incr l [].

(** The number of elements of [l] equal to [k]. *)
Definition occ (k : K) (l : list K) : Z :=
  Z.of_nat (length (filter (fun x => eqb x k) l)).
End Counter.

(** [sum(ints)]. *)
Definition sum_Z (l : list Z) : Z := fold_left Z.add l 0%Z.

(** ** Numbers *)

(** [a / b] on two ints.  Python raises [ZeroDivisionError] on a zero
    divisor; every division of the module either follows a test that its
    divisor is not zero or divides by 4 or by the length, 2 or 3, of an
    entry of the ambiguity table, so the case does not arise. *)
Definition truediv (a b : Z) : Q := (inject_Z a / inject_Z b)%Q.

(** [sum(floats)], which starts from 0. *)
Definition sum_Q (l : list Q) : Q := fold_left Qplus l 0%Q.

Definition Qltb (x y : Q) : bool := negb (Qle_bool y x).

(** [[f(x) for x in l]] when [f] may raise. *)
Fixpoint map_result {A B} (f : A -> result B) (l : list A) : result (list B) :=
  match l with
  | [] => Ok []
  | x :: l' => y <- f x ;; ys <- map_result f l' ;; Ok (y :: ys)
  end.

(** ** The module [random] *)

(** The raw integers the generator will produce, in order. *)
Definition rng : Type := nat -> Z.

Definition rng_next (g : rng) : Z * rng := (g O, fun n => g (S n)).

(** The value of a computation that also returns the generator. *)
Definition value_of {A} (r : result (A * rng)) : result A :=
  '(a, _) <- r ;; Ok a.

(** [random.random()]: a multiple of [2^-53] in [[0, 1)]. *)
Definition random (g : rng) : Q * rng :=
  let '(raw, g') := rng_next g in
  (Qmake (raw mod 2 ^ 53)%Z (2 ^ 53)%positive, g').

(** [random.randint(a, b)] is [a + randbelow(b - a + 1)], and an empty range
    raises [ValueError]. *)
Definition randint (a b : Z) (g : rng) : result (Z * rng) :=
  if (b <? a)%Z then Raise ValueError
  else let '(raw, g') := rng_next g in
       Ok ((a + raw mod (b - a + 1))%Z, g').

(** [itertools.accumulate(ws)]: the running sums. *)
Fixpoint accumulate_from (acc : Q) (ws : list Q) : list Q :=
  match ws with
  | [] => []
  | w :: ws' => (acc + w)%Q :: accumulate_from (acc + w)%Q ws'
  end.

Definition accumulate (ws : list Q) : list Q :=
  match ws with
  | [] => []
  | w :: ws' => w :: accumulate_from w ws'
  end.

(** [bisect.bisect_right(a, x, lo, hi)]:
    [while lo < hi: mid = (lo + hi) // 2;
     if x < a[mid]: hi = mid else: lo = mid + 1].
    Each turn shrinks [hi - lo], so [hi - lo] turns are enough. *)
Fixpoint bisect_loop (fuel : nat) (a : list Q) (x : Q) (lo hi : nat) : nat :=
  match fuel with
  | O => lo
  | S fuel' =>
      if lo <? hi then
        let mid := (lo + hi) / 2 in
        if Qltb x (nth mid a 0%Q)
        then bisect_loop fuel' a x lo mid
        else bisect_loop fuel' a x (mid + 1) hi
      else lo
  end.

Definition bisect (a : list Q) (x : Q) (lo hi : nat) : nat :=
  bisect_loop (hi - lo) a x lo hi.

(** [random.choices(population, weights=weights, k=1)[0]]. *)
Definition choices {A} (population : list A) (weights : list Q) (g : rng)
  : result (A * rng) :=
  let n := length population in
  let cum_weights := accumulate weights in
  if negb (length cum_weights =? n) then Raise ValueError
  else
    match rev cum_weights with
    | [] => Raise IndexError
    | last :: _ =>
        let total := (last + 0)%Q in
        if Qle_bool total 0%Q then Raise ValueError
        else
          let '(u, g') := random g in
          match nth_error population (bisect cum_weights (u * total)%Q 0 (n - 1)) with
          | Some x => Ok (x, g')
          | None => Raise IndexError
          end
    end.

(** ** Doubles *)

(** A finite IEEE-754 double is the rational it denotes, and an operation
    on doubles is the exact operation followed by [binary64], the rounding
    to the nearest double, a tie going to the even significand.  Results
    beyond the largest double (infinities) are not represented; none arises
    from weights between 0 and 1. *)

(** [2^k] for any integer [k]. *)
Definition pow2 (k : Z) : Q := (2 ^ k)%Q.

(** The exponent [e] of a positive rational: [2^e <= x < 2^(e+1)]. *)
Definition ilog2 (x : Q) : Z :=
  let k := (Z.log2 (Qnum x) - Z.log2 (Zpos (Qden x)))%Z in
  if Qle_bool (pow2 k) x then k else (k - 1)%Z.

(** The nearest integer, a tie going to the even one. *)
Definition round_half_even (y : Q) : Z :=
  let f := Qfloor y in
  match (y - inject_Z f ?= 1 # 2)%Q with
  | Lt => f
  | Gt => (f + 1)%Z
  | Eq => if Z.even f then f else (f + 1)%Z
  end.

(** The exponent of the last bit kept: 52 bits below the leading one,
    and never below [2^-1074], the spacing of the subnormal doubles. *)
Definition ulp_exponent (x : Q) : Z :=
  (Z.max (ilog2 (Qabs x)) (-1022) - 52)%Z.

Definition binary64 (x : Q) : Q :=
  if Qeq_bool x 0 then 0%Q
  else (inject_Z (round_half_even (x / pow2 (ulp_exponent x)))
        * pow2 (ulp_exponent x))%Q.

(** [a + b], [a - b], [a * b] and [a / b] on floats. *)
Definition fadd (a b : Q) : Q := binary64 (a + b).
Definition fsub (a b : Q) : Q := binary64 (a - b).
Definition fmul (a b : Q) : Q := binary64 (a * b).
Definition fdiv (a b : Q) : Q := binary64 (a / b).

(** [sum(floats)] depends on the interpreter.  Before Python 3.12 it adds
    from left to right, starting from the int 0. *)
Definition sum_left_to_right (ws : list Q) : Q := fold_left fadd ws 0%Q.

(** From Python 3.12 it is Neumaier's compensated sum: beside the running
    sum [f] it keeps in [c] what each addition lost,
    [t = f + x; c += (f - t) + x if abs(f) >= abs(x) else (x - t) + f; f = t],
    and adds [c] at the end unless it is zero. *)
Fixpoint sum_compensated_from (f c : Q) (ws : list Q) : Q :=
  match ws with
  | [] => if Qeq_bool c 0 then f else fadd f c
  | x :: ws' =>
      let t := fadd f x in
      let lost :=
        if Qle_bool (Qabs x) (Qabs f) then fadd (fsub f t) x
        else fadd (fsub x t) f in
      sum_compensated_from t (fadd c lost) ws'
  end.

Definition sum_compensated (ws : list Q) : Q :=
  match ws with
  | [] => 0%Q
  | w :: ws' => sum_compensated_from (fadd 0 w) 0 ws'
  end.

(* ================================================================== *)
(** * data_utils.py *)

Definition record : Type := str * str.

(** ** FASTA files

    A file is its text.  [write_fasta] returns the text that it leaves in the
    file, and [read_fasta] takes the text of the file it reads. *)

(** Reading in text mode turns the line ends "\r\n" and "\r" into "\n". *)
Fixpoint universal_newlines (text : str) : str :=
  match text with
  | [] => []
  | c :: rest =>
      if Ascii.eqb c CR then
        LF :: match rest with
              | d :: rest' =>
                  if Ascii.eqb d LF then universal_newlines rest'
                  else universal_newlines rest
              | [] => []
              end
      else c :: universal_newlines rest
  end.

(** [for line in f]: each line keeps its "\n"; a last line may lack it. *)
Fixpoint lines_from (current text : str) : list str :=
  match text with
  | [] => match current with [] => [] | _ :: _ => [current] end
  | c :: rest =>
      if Ascii.eqb c LF then (current ++ [LF]) :: lines_from [] rest
      else lines_from (current ++ [c]) rest
  end.

Definition file_lines (text : str) : list str :=
  lines_from [] (universal_newlines text).

(** The local variables of [read_fasta]. *)
Record reader : Type := Reader {
  records : list record;
  header : option str;
  seq_lines : list str
}.

(** [''.join(seq_lines).replace(' ', '').replace('\t', '')]. *)
Definition joined (seq_lines : list str) : str :=
  remove_char TAB (remove_char SPACE (concat seq_lines)).

(** [if header is not None: records.append((header, seq))]. *)
Definition flush (st : reader) : list record :=
  match header st with
  | Some h => records st ++ [(h, joined (seq_lines st))]
  | None => records st
  end.

(** One turn of the loop over the lines. *)
Definition read_line (st : reader) (line : str) : reader :=
  let line := rstrip_char LF line in
  match line with
  | [] => st
  | _ :: _ =>
      if startswith (lit ">") line then
        Reader (flush st) (Some (strip (skipn 1 line))) []
      else
        Reader (records st) (header st) (seq_lines st ++ [strip line])
  end.

Definition read_fasta (text : str) : list record :=
  flush (fold_left read_line (file_lines text) (Reader [] None [])).

(** The body of the loop over the records: the header line, then the
    sequence in pieces of [width] characters. *)
Definition write_record (width : Z) (text : str) (r : record) : result str :=
  let '(h, s) := r in
  let text := text ++ lit ">" ++ h ++ [LF] in
  idx <- range 0 (Z.of_nat (length s)) width ;;
  Ok (fold_left (fun text i => text ++ slice s i (i + width) ++ [LF]) idx text).

Fixpoint write_records (width : Z) (text : str) (rs : list record) : result str :=
  match rs with
  | [] => Ok text
  | r :: rs' => text' <- write_record width text r ;; write_records width text' rs'
  end.

Definition WRAP_DEFAULT : Z := 80.

Definition write_fasta (rs : list record) (width : Z) : result str :=
  write_records width [] rs.

(** The pieces into which [write_fasta] cuts a sequence. *)
Definition wrapped (s : str) (width : Z) : list str :=
  match range 0 (Z.of_nat (length s)) width with
  | Ok idx => map (fun i => slice s i (i + width)) idx
  | Raise _ => []
  end.

(** A record that survives writing at [width] and reading back: the header
    has no line end and no blank at either end; the sequence has no line
    end, space or tab; and no piece of the sequence starts or ends with a
    blank or starts with ">". *)
Definition is_line_end (c : ascii) : bool := Ascii.eqb c LF || Ascii.eqb c CR.

Definition header_ok (h : str) : bool :=
  negb (existsb is_line_end h) && str_eqb (strip h) h.

Definition piece_ok (piece : str) : bool :=
  str_eqb (strip piece) piece && negb (startswith (lit ">") piece).

Definition sequence_ok (width : Z) (s : str) : bool :=
  negb (existsb (fun c => is_line_end c || Ascii.eqb c SPACE || Ascii.eqb c TAB) s)
  && forallb piece_ok (wrapped s width).

Definition record_ok (width : Z) (r : record) : bool :=
  header_ok (fst r) && sequence_ok width (snd r).

(** The first [m] pieces of [width] characters of a string, and the lines
    that [write_fasta] writes for a record. *)
Definition pieces (width m : nat) (s : str) : list str :=
  map (fun k => firstn width (skipn (k * width) s)) (seq 0 m).

Definition record_lines (width : Z) (r : record) : list str :=
  (lit ">" ++ fst r) :: wrapped (snd r) width.

Definition terminated (line : str) : str := line ++ [LF].

(** ** Base composition *)

Definition ACGT : str := lit "ACGT".

Definition is_canonical (base : ascii) : bool := existsb (Ascii.eqb base) ACGT.

(** The two nested loops that fill [counts]. *)
Definition count_bases (counts : dict (K:=ascii) (V:=Z)) (seqs : list str) : dict :=
  fold_left
    (fun (counts : dict) s =>
       fold_left
         (fun (counts : dict) base =>
            if is_canonical base then counter_incr Ascii.eqb counts base
            else counts)
         (map upper s) counts)
    seqs counts.

Definition compute_base_distribution (seqs : list str) : dict (K:=ascii) (V:=Q) :=
  let counts := count_bases [] seqs in
  let total := sum_Z (dict_values counts) in
  if (total =? 0)%Z
  then dict_of Ascii.eqb (map (fun b => (b, truediv 1 4)) ACGT)
  else dict_of Ascii.eqb
         (map (fun b => (b, truediv (counter_get Ascii.eqb counts b) total)) ACGT).

(** ** Ambiguity resolution *)

Definition AMBIGUOUS_NUCLEOTIDES : dict (K:=ascii) (V:=str) :=
  [ ("R"%char, lit "AG");
    ("Y"%char, lit "CT");
    ("S"%char, lit "GC");
    ("W"%char, lit "AT");
    ("K"%char, lit "GT");
    ("M"%char, lit "AC");
    ("B"%char, lit "CGT");
    ("D"%char, lit "AGT");
    ("H"%char, lit "ACT");
    ("V"%char, lit "ACG") ].

Definition base_order : str := lit "ACGT".

(** The function is wrapped in [lru_cache]; a cache of a pure function does
    not change what it returns. *)
Definition _weights_for_symbol (symbol : ascii) (base_probs_tuple : list Q)
  : result (str * list Q) :=
  let base_probs := dict_of Ascii.eqb (combine base_order base_probs_tuple) in
  possible <- dict_item Ascii.eqb AMBIGUOUS_NUCLEOTIDES symbol ;;
  weights <- map_result (dict_item Ascii.eqb base_probs) possible ;;
  let s := sum_Q weights in
  if Qeq_bool s 0%Q
  then Ok (possible,
           repeat (truediv 1 (Z.of_nat (length possible))) (length possible))
  else Ok (possible, map (fun w => (w / s)%Q) weights).

Fixpoint resolve_loop (seq : str) (base_probs_tuple : list Q)
    (new_chars : str) (g : rng) : result (str * rng) :=
  match seq with
  | [] => Ok (new_chars, g)
  | ch :: seq' =>
      let up := upper ch in
      if dict_contains Ascii.eqb AMBIGUOUS_NUCLEOTIDES up then
        '(bases, weights) <- _weights_for_symbol up base_probs_tuple ;;
        '(chosen, g') <- choices bases weights g ;;
        resolve_loop seq' base_probs_tuple
          (new_chars ++ [if isupper ch then chosen else lower chosen]) g'
      else
        resolve_loop seq' base_probs_tuple (new_chars ++ [ch]) g
  end.

Definition resolve_ambiguous_sequence (seq : str)
    (base_probs : dict (K:=ascii) (V:=Q)) (g : rng) : result (str * rng) :=
  base_probs_tuple <- map_result (dict_item Ascii.eqb base_probs) base_order ;;
  resolve_loop seq base_probs_tuple [] g.

(** ** Ambiguity resolution on doubles *)

(** The same code when the probabilities are floats, as those that
    [compute_base_distribution] returns: every arithmetic operation rounds.
    [float_sum] is the built-in [sum] of the interpreter at hand,
    [sum_left_to_right] or [sum_compensated]. *)
Module Float64.

Fixpoint accumulate_from (acc : Q) (ws : list Q) : list Q :=
  match ws with
  | [] => []
  | w :: ws' => fadd acc w :: accumulate_from (fadd acc w) ws'
  end.

Definition accumulate (ws : list Q) : list Q :=
  match ws with
  | [] => []
  | w :: ws' => w :: accumulate_from w ws'
  end.

(** [random.choices(population, weights=weights, k=1)[0]]:
    [total = cum_weights[-1] + 0.0] and the index is
    [bisect(cum_weights, random() * total, 0, n - 1)].  The doubles here
    are finite, so the test that [total] is finite is left out. *)
Definition choices {A} (population : list A) (weights : list Q) (g : rng)
  : result (A * rng) :=
  let n := length population in
  let cum_weights := accumulate weights in
  if negb (length cum_weights =? n) then Raise ValueError
  else
    match rev cum_weights with
    | [] => Raise IndexError
    | last :: _ =>
        let total := fadd last 0 in
        if Qle_bool total 0%Q then Raise ValueError
        else
          let '(u, g') := random g in
          match nth_error population
                  (bisect cum_weights (fmul u total) 0 (n - 1)) with
          | Some x => Ok (x, g')
          | None => Raise IndexError
          end
    end.

Section Resolver.
Variable float_sum : list Q -> Q.

Definition _weights_for_symbol (symbol : ascii) (base_probs_tuple : list Q)
  : result (str * list Q) :=
  let base_probs := dict_of Ascii.eqb (combine base_order base_probs_tuple) in
  possible <- dict_item Ascii.eqb AMBIGUOUS_NUCLEOTIDES symbol ;;
  weights <- map_result (dict_item Ascii.eqb base_probs) possible ;;
  let s := float_sum weights in
  if Qeq_bool s 0%Q
  then Ok (possible,
           repeat (fdiv 1 (inject_Z (Z.of_nat (length possible))))
                  (length possible))
  else Ok (possible, map (fun w => fdiv w s) weights).

Fixpoint resolve_loop (seq : str) (base_probs_tuple : list Q)
    (new_chars : str) (g : rng) : result (str * rng) :=
  match seq with
  | [] => Ok (new_chars, g)
  | ch :: seq' =>
      let up := upper ch in
      if dict_contains Ascii.eqb AMBIGUOUS_NUCLEOTIDES up then
        '(bases, weights) <- _weights_for_symbol up base_probs_tuple ;;
        '(chosen, g') <- choices bases weights g ;;
        resolve_loop seq' base_probs_tuple
          (new_chars ++ [if isupper ch then chosen else lower chosen]) g'
      else
        resolve_loop seq' base_probs_tuple (new_chars ++ [ch]) g
  end.

Definition resolve_ambiguous_sequence (seq : str)
    (base_probs : dict (K:=ascii) (V:=Q)) (g : rng) : result (str * rng) :=
  base_probs_tuple <- map_result (dict_item Ascii.eqb base_probs) base_order ;;
  resolve_loop seq base_probs_tuple [] g.

End Resolver.
End Float64.

(** ** Cut lengths *)

Definition random_cut_length (orig_len K H : Z) (g : rng) : result (Z * rng) :=
  if (orig_len <=? K)%Z then Ok (orig_len, g)
  else
    let min_len := Z.max 1 (K - H) in
    let max_len := Z.min K orig_len in
    let min_len := if (min_len >? max_len)%Z then max_len else min_len in
    randint min_len max_len g.

(** ** Deduplication *)

(** The list comprehension [[(header, seq) for seq, header in unique.items()]]
    maps [swap_entry] over the items. *)
Definition swap_entry : str * str -> record := fun '(seq, header) => (header, seq).

Definition make_unique_records (records : list record) : list record :=
  let unique :=
    fold_left
      (fun (unique : dict) '(header, seq) =>
         if negb (dict_contains str_eqb unique seq)
         then dict_set str_eqb unique seq header
         else unique)
      records ([] : dict (K:=str) (V:=str)) in
  map swap_entry unique.

Definition find_duplicate_sequences (records : list record) : dict (K:=str) (V:=Z) :=
  let seqs := map (fun '(_, seq) => seq) records in
  let counter := Counter str_eqb seqs in
  dict_of str_eqb (filter (fun '(seq, count) => (1 <? count)%Z) counter).

(** The description of deduplication in words: a record is kept exactly
    when its sequence is not the sequence of an earlier record. *)
Fixpoint first_occurrences_from (earlier : list str) (records : list record)
  : list record :=
  match records with
  | [] => []
  | (header, seq) :: rest =>
      if existsb (str_eqb seq) earlier
      then first_occurrences_from (earlier ++ [seq]) rest
      else (header, seq) :: first_occurrences_from (earlier ++ [seq]) rest
  end.

Definition first_occurrences (records : list record) : list record :=
  first_occurrences_from [] records.

(** The number of records of [records] whose sequence is [s]. *)
Definition occurrences (s : str) (records : list record) : Z :=
  Z.of_nat (length (filter (fun r => str_eqb (snd r) s) records)).

(** ** Notions used to state the properties *)

(** Occurrences of the base [b], in either case, over all [seqs]. *)
Definition base_count (b : ascii) (seqs : list str) : Z :=
  occ Ascii.eqb b (map upper (concat seqs)).

(** Characters of [seqs] that are a canonical base in either case. *)
Definition canonical_total (seqs : list str) : Z :=
  Z.of_nat (length (filter is_canonical (map upper (concat seqs)))).

(** Two distributions with the same keys and equal rational values. *)
Definition dict_Qeq (d d' : dict (K:=ascii) (V:=Q)) : Prop :=
  Forall2 (fun kv kv' => fst kv = fst kv' /\ (snd kv == snd kv')%Q) d d'.

(** The weight that the tuple [(pA, pC, pG, pT)] gives to a base. *)
Definition tuple_weight (pA pC pG pT : Q) (b : ascii) : Q :=
  if Ascii.eqb b "A" then pA
  else if Ascii.eqb b "C" then pC
  else if Ascii.eqb b "G" then pG
  else if Ascii.eqb b "T" then pT
  else 0%Q.

(** The probability with which a candidate is to be drawn: its weight among
    the candidates' weights, or an equal share when these sum to zero. *)
Definition renormalized (pA pC pG pT : Q) (bases : str) (b : ascii) : Q :=
  let total := sum_Q (map (tuple_weight pA pC pG pT) bases) in
  if Qeq_bool total 0%Q then truediv 1 (Z.of_nat (length bases))
  else (tuple_weight pA pC pG pT b / total)%Q.

(** What resolution may put in place of the character [ch]: [ch] itself when
    its uppercase form is not in the table, and otherwise one of the symbol's
    candidates, in the case of [ch]. *)
Definition resolved_char (ch out : ascii) : Prop :=
  match dict_get Ascii.eqb AMBIGUOUS_NUCLEOTIDES (upper ch) with
  | None => out = ch
  | Some bases =>
      exists chosen,
        In chosen bases /\ out = if isupper ch then chosen else lower chosen
  end.

(** A rational that is a double. *)
Definition is_double (x : Q) : Prop := (binary64 x == x)%Q.

(** A multiple of [2^-1074], the smallest positive double. *)
Definition on_grid (x : Q) : Prop :=
  exists n : Z, (x == inject_Z n * pow2 (-1074))%Q.

(** [2^-53], the relative error of one rounding, and [2^-1075], its
    absolute error below the normal range. *)
Definition u53 : Q := 1 # 9007199254740992.
Definition eta : Q := pow2 (-1075).

(** [2^-49]. *)
Definition kappa : Q := 1 # 562949953421312.

(** What the properties use of the built-in [sum]: on at most three
    non-negative doubles, the weights of the candidates of a symbol, its
    relative error is at most [2^-49]. *)
Definition accurate_sum (float_sum : list Q -> Q) : Prop :=
  forall ws,
    length ws <= 3 ->
    Forall (fun w => (0 <= w)%Q /\ is_double w) ws ->
    (Qabs (float_sum ws - sum_Q ws) <= kappa * sum_Q ws)%Q.

(** How [chosen] is drawn for [symbol] when [random.random] returns [u].
    It is the candidate of some index [i] such that
    - of the intervals that the cumulated weights returned by
      [_weights_for_symbol] cut out, the one of index [i], and no other,
      holds [random() * total];
    - [u] lies in the interval of the exact cumulated shares
      ([renormalized]: the restricted weights divided by their sum, or an
      equal share each when the sum is zero) of index [i], which is as long
      as the share of [chosen], or within [2^-45] of it;
    - the weight of [chosen] is not zero, unless all candidates have weight
      zero. *)
Definition drawn_as (float_sum : list Q -> Q) (pA pC pG pT : Q)
    (symbol : ascii) (bases : str) (u : Q) (chosen : ascii) : Prop :=
  exists weights i,
    Float64._weights_for_symbol float_sum symbol [pA; pC; pG; pT]
    = Ok (bases, weights) /\
    nth_error bases i = Some chosen /\
    (let cum := Float64.accumulate weights in
     let x := fmul u (fadd (last cum 0%Q) 0) in
     (nth i (0%Q :: cum) 0 <= x < nth i cum 0)%Q /\
     forall j, j < length bases ->
               (nth j (0%Q :: cum) 0 <= x < nth j cum 0)%Q -> j = i) /\
    (let shares := map (renormalized pA pC pG pT bases) bases in
     (sum_Q (firstn i shares) - pow2 (-45) <= u
      < sum_Q (firstn (S i) shares) + pow2 (-45))%Q) /\
    ((0 < tuple_weight pA pC pG pT chosen)%Q \/
     Forall (fun b => (tuple_weight pA pC pG pT b == 0)%Q) bases).

(* ================================================================== *)
(** * fasta_dataset.py *)

Fixpoint takewhile {A} (p : A -> bool) (l : list A) : list A :=
  match l with
  | [] => []
  | x :: l' => if p x then x :: takewhile p l' else []
  end.

(** [int(digits)] for a string of decimal digits. *)
Definition digit_value (c : ascii) : Z := (Z.of_N (code c) - 48)%Z.

Definition int_of_digits (digits : str) : Z :=
  fold_left (fun n d => (10 * n + digit_value d)%Z) digits 0%Z.

(** The pattern [re.escape(prefix) + r"(\d+)"] tried at the start of [s]:
    the literal prefix, then the longest run of digits, which must not be
    empty.  The result is the group. *)
Definition match_here (prefix s : str) : option str :=
  if startswith prefix s then
    match takewhile isdigit (skipn (length prefix) s) with
    | [] => None
    | d :: ds => Some (d :: ds)
    end
  else None.

(** [re.search]: the match at the leftmost position that has one. *)
Fixpoint search (prefix s : str) : option str :=
  match match_here prefix s with
  | Some group => Some group
  | None =>
      match s with
      | [] => None
      | _ :: s' => search prefix s'
      end
  end.

(** [FastaDataset.__extract_number]. *)
Definition extract_number (filename prefix : str) : Z :=
  match search prefix filename with
  | Some group => int_of_digits group
  | None => (-1)%Z
  end.

(** [os.path.join(a, b)] and [os.path.basename(p)] on POSIX. *)
Definition path_join (a b : str) : str :=
  if startswith (lit "/") b then b
  else match a with
       | [] => a ++ b
       | _ :: _ => if endswith (lit "/") a then a ++ b else a ++ lit "/" ++ b
       end.

Definition basename (p : str) : str :=
  rev (takewhile (fun c => negb (Ascii.eqb c "/")) (rev p)).

(** [l.sort(key=key)].  The sort is stable, and a stable sort has one
    possible result; insertion from the right, before the elements of equal
    key, computes it. *)
Fixpoint insert_by {A} (key : A -> Z) (x : A) (l : list A) : list A :=
  match l with
  | [] => [x]
  | y :: l' => if (key y <? key x)%Z then y :: insert_by key x l' else x :: l
  end.

Definition sort_by {A} (key : A -> Z) (l : list A) : list A :=
  fold_right (insert_by key) [] l.

(** The private attributes set by [FastaDataset.__init__]. *)
Record FastaDataset : Type := {
  ds_path : str;
  ds_prefix : str;
  ds_name : str;
  fasta_paths : list str
}.

(** [FastaDataset(path, prefix)], where [listing] is what [os.listdir(path)]
    returns.  The default prefix is "test". *)
Definition FastaDataset_init (listing : list str) (path prefix : str)
  : FastaDataset :=
  let fasta_paths :=
    map (path_join path)
        (filter (fun f => startswith prefix f && endswith (lit ".fasta") f)
                listing) in
  let fasta_paths :=
    sort_by (fun f => extract_number (basename f) prefix) fasta_paths in
  {| ds_path := path;
     ds_prefix := prefix;
     ds_name := basename path;
     fasta_paths := fasta_paths |}.

(** The names of a listing that the index keeps. *)
Definition selected (prefix : str) (listing : list str) : list str :=
  filter (fun f => startswith prefix f && endswith (lit ".fasta") f) listing.

(** A name of a directory entry holds no "/". *)
Definition entry_name (f : str) : bool := negb (existsb (fun c => Ascii.eqb c "/") f).

(* ================================================================== *)
(** * Further notions used to state properties *)

(** Order-preserving selection: [l] is [l'] with some elements left out. *)
Inductive subsequence {A : Type} : list A -> list A -> Prop :=
| subsequence_nil : subsequence [] []
| subsequence_keep x l l' : subsequence l l' -> subsequence (x :: l) (x :: l')
| subsequence_drop x l l' : subsequence l l' -> subsequence l (x :: l').

(** The generator after [k] raw integers were consumed. *)
Definition rng_drop (k : nat) (g : rng) : rng := fun n => g (k + n).

(** [up in AMBIGUOUS_NUCLEOTIDES] for the uppercase form of a character. *)
Definition is_symbol (ch : ascii) : bool :=
  dict_contains Ascii.eqb AMBIGUOUS_NUCLEOTIDES (upper ch).

(** A header line of a FASTA file, as [read_fasta] tests it, and the
    header that it carries. *)
Definition is_header_line (line : str) : bool :=
  startswith (lit ">") (rstrip_char LF line).

Definition header_of_line (line : str) : str :=
  strip (skipn 1 (rstrip_char LF line)).

(** Blanks and line ends: the characters that no sequence read from a file
    holds. *)
Definition is_blank_or_line_end (c : ascii) : bool :=
  is_line_end c || Ascii.eqb c SPACE || Ascii.eqb c TAB.

(** The same text with Windows line ends. *)
Definition with_crlf (text : str) : str :=
  flat_map (fun c => if Ascii.eqb c LF then [CR; LF] else [c]) text.

(** What the loop of [read_fasta] keeps true of its variables. *)
Definition reader_clean (st : reader) : Prop :=
  Forall (fun r => header_ok (fst r) = true /\
                   existsb is_blank_or_line_end (snd r) = false) (records st) /\
  (forall h, header st = Some h -> header_ok h = true) /\
  Forall (fun l => existsb is_line_end l = false) (seq_lines st).

(** Two states of the loop of [read_fasta] that no later step can tell
    apart: they differ at most in how the sequence read so far is split into
    lines. *)
Definition reader_same (st st' : reader) : Prop :=
  records st = records st' /\ header st = header st' /\
  concat (seq_lines st) = concat (seq_lines st').

(* ================================================================== *)
(** * fasta_dataset.py: contents and access *)

(** [l[start:stop:step]] on a list, with [None] for a bound left out: the
    bounds are adjusted to the list as CPython does, and a zero step raises
    [ValueError]. *)
Definition slice_adjust (len step i : Z) : Z :=
  (if i <? 0 then
     let i' := i + len in
     if i' <? 0 then (if step <? 0 then -1 else 0) else i'
   else if len <=? i then (if step <? 0 then len - 1 else len)
   else i)%Z.

Definition list_getslice {A} (l : list A) (start stop step : option Z)
  : result (list A) :=
  let len := Z.of_nat (length l) in
  let step := match step with Some s => s | None => 1%Z end in
  if (step =? 0)%Z then Raise ValueError
  else
    let start :=
      match start with
      | Some i => slice_adjust len step i
      | None => if (step <? 0)%Z then (len - 1)%Z else 0%Z
      end in
    let stop :=
      match stop with
      | Some i => slice_adjust len step i
      | None => if (step <? 0)%Z then (-1)%Z else len
      end in
    idx <- range start stop step ;;
    Ok (flat_map (fun i => match nth_error l (Z.to_nat i) with
                           | Some x => [x]
                           | None => []
                           end) idx).

(** The attributes of a [FastaContent]. *)
Record FastaContent : Type := {
  fc_path : str;
  fc_sequences : list str
}.

(** [FastaContent.name]. *)
Definition FastaContent_name (c : FastaContent) : str := basename (fc_path c).

(** An argument of [FastaDataset.__getitem__]: an int, a slice, or a value
    of another type. *)
Inductive index : Type :=
| Index_int (i : Z)
| Index_slice (start stop step : option Z)
| Index_other.

(** What [__getitem__] returns: one content or a list of contents. *)
Inductive item : Type :=
| One (c : FastaContent)
| Many (cs : list FastaContent).

(** What [__getitem__] raises: [IndexError("Index out of range")],
    [TypeError("Invalid argument type")], or the [ValueError] of a slice
    with step zero. *)
Inductive getitem_outcome : Type :=
| Returned (it : item)
| Raised_IndexError
| Raised_TypeError
| Raised_ValueError.

Section Contents.
(** [utils.parse_fasta_to_sequences], which [FastaContent] calls on the text
    of its file, is not among the sources: the parser and the text that
    [open(path).read()] returns for each path are parameters. *)
Variable parse_fasta_to_sequences : str -> list str.
Variable file_text : str -> str.

(** [FastaContent(path)]. *)
Definition FastaContent_init (path : str) : FastaContent :=
  {| fc_path := path;
     fc_sequences := parse_fasta_to_sequences (file_text path) |}.

(** [list(dataset)], by [FastaDataset.__iter__]. *)
Definition FastaDataset_iter (ds : FastaDataset) : list FastaContent :=
  map FastaContent_init (fasta_paths ds).

(** [len(dataset)]. *)
Definition FastaDataset_len (ds : FastaDataset) : Z :=
  Z.of_nat (length (fasta_paths ds)).

(** [dataset[index]]. *)
Definition FastaDataset_getitem (ds : FastaDataset) (idx : index)
  : getitem_outcome :=
  match idx with
  | Index_int i =>
      let n := Z.of_nat (length (fasta_paths ds)) in
      let i := if (i <? 0)%Z then (i + n)%Z else i in
      if ((i <? 0) || (n <=? i))%Z then Raised_IndexError
      else
        match nth_error (fasta_paths ds) (Z.to_nat i) with
        | Some path => Returned (One (FastaContent_init path))
        | None => Raised_IndexError
        end
  | Index_slice start stop step =>
      match list_getslice (fasta_paths ds) start stop step with
      | Ok sliced_paths => Returned (Many (map FastaContent_init sliced_paths))
      | Raise _ => Raised_ValueError
      end
  | Index_other => Raised_TypeError
  end.
End Contents.

(* ================================================================== *)
(** * Properties *)

(** ** Strings and dictionaries *)

Lemma filter_none {A} (p : A -> bool) (l : list A) :
  (forall x, In x l -> p x = false) -> filter p l = [].
Proof.
  induction l as [|x l IH]; intros H; simpl; [reflexivity|].
  rewrite (H x) by now left. apply IH. intros y Hy. apply H. now right.
Qed.

Lemma str_eqb_eq (a b : str) : str_eqb a b = true <-> a = b.
Proof.
  revert b; induction a as [|x a IH]; intros [|y b]; simpl;
    try (split; [discriminate | congruence]); try tauto.
  rewrite andb_true_iff, Ascii.eqb_eq, IH.
  split; [intros [-> ->]; reflexivity | intros H; inversion H; auto].
Qed.

Lemma str_eqb_refl (a : str) : str_eqb a a = true.
Proof. now apply str_eqb_eq. Qed.

Lemma str_eqb_neq (a b : str) : str_eqb a b = false <-> a <> b.
Proof.
  rewrite <- str_eqb_eq. destruct (str_eqb a b); split; congruence.
Qed.

Section DictFacts.
Context {K V : Type} (eqb : K -> K -> bool).
Hypothesis eqb_eq : forall a b, eqb a b = true <-> a = b.

Lemma eqb_false (a b : K) : eqb a b = false <-> a <> b.
Proof. rewrite <- eqb_eq. destruct (eqb a b); split; congruence. Qed.

Lemma dict_get_None (d : dict (V:=V)) k :
  dict_get eqb d k = None <-> ~ In k (dict_keys d).
Proof.
  induction d as [|[k' v] d IH]; simpl; [tauto|].
  destruct (eqb k' k) eqn:E.
  - apply eqb_eq in E. split; [discriminate | tauto].
  - apply eqb_false in E. rewrite IH. tauto.
Qed.

Lemma dict_get_In (d : dict (V:=V)) k v :
  dict_get eqb d k = Some v -> In (k, v) d.
Proof.
  induction d as [|[k' v'] d IH]; simpl; [discriminate|].
  destruct (eqb k' k) eqn:E.
  - apply eqb_eq in E. intros [= ->]. subst. now left.
  - auto.
Qed.

Lemma In_dict_get (d : dict (V:=V)) k v :
  NoDup (dict_keys d) -> In (k, v) d -> dict_get eqb d k = Some v.
Proof.
  induction d as [|[k' v'] d IH]; simpl; [tauto|].
  intros Hnd [[= -> ->]|Hin].
  - now rewrite (proj2 (eqb_eq k k) eq_refl).
  - inversion Hnd as [|? ? Hnot Hnd']; subst.
    destruct (eqb k' k) eqn:E.
    + apply eqb_eq in E; subst. exfalso. apply Hnot.
      change k with (fst (k, v)). now apply in_map.
    + auto.
Qed.

Lemma dict_contains_In (d : dict (V:=V)) k :
  dict_contains eqb d k = true <-> In k (dict_keys d).
Proof.
  unfold dict_contains. pose proof (dict_get_None d k) as H.
  destruct (dict_get eqb d k).
  - split; [intros _|reflexivity].
    destruct (in_dec (fun a b => match eqb a b as x return eqb a b = x -> _ with
                                 | true => fun E => left (proj1 (eqb_eq a b) E)
                                 | false => fun E => right (proj1 (eqb_false a b) E)
                                 end eq_refl) k (dict_keys d)); [assumption|].
    apply H in n. discriminate.
  - split; [discriminate|]. intros Hin. now apply H in Hin.
Qed.

Lemma dict_set_new (d : dict (V:=V)) k v :
  ~ In k (dict_keys d) -> dict_set eqb d k v = d ++ [(k, v)].
Proof.
  induction d as [|[k' v'] d IH]; simpl; [reflexivity|].
  intros Hn. destruct (eqb k' k) eqn:E.
  - apply eqb_eq in E. tauto.
  - rewrite IH by tauto. reflexivity.
Qed.

Lemma dict_keys_set (d : dict (V:=V)) k v :
  dict_keys (dict_set eqb d k v) =
  if dict_contains eqb d k then dict_keys d else dict_keys d ++ [k].
Proof.
  unfold dict_contains.
  induction d as [|[k' v'] d IH]; simpl; [reflexivity|].
  destruct (eqb k' k) eqn:E; simpl; [reflexivity|].
  rewrite IH. now destruct (dict_get eqb d k).
Qed.

Lemma dict_get_set (d : dict (V:=V)) k v k' :
  dict_get eqb (dict_set eqb d k v) k' =
  if eqb k k' then Some v else dict_get eqb d k'.
Proof.
  induction d as [|[k0 v0] d IH]; simpl; [reflexivity|].
  destruct (eqb k0 k) eqn:E; simpl.
  - apply eqb_eq in E; subst. now destruct (eqb k k').
  - rewrite IH. destruct (eqb k0 k') eqn:E'; [|reflexivity].
    apply eqb_eq in E'; subst. apply eqb_false in E.
    destruct (eqb k k') eqn:E2; [|reflexivity].
    apply eqb_eq in E2. congruence.
Qed.

Lemma dict_of_app (d l : list (K * V)) :
  NoDup (map fst (d ++ l)) ->
  fold_left (fun d kv => dict_set eqb d (fst kv) (snd kv)) l d = d ++ l.
Proof.
  revert d; induction l as [|[k v] l IH]; intros d Hnd; simpl.
  - now rewrite app_nil_r.
  - rewrite dict_set_new.
    + rewrite IH; rewrite <- app_assoc; [reflexivity | exact Hnd].
    + rewrite map_app in Hnd. simpl in Hnd.
      apply NoDup_remove_2 in Hnd. intros Hin. apply Hnd.
      apply in_or_app. now left.
Qed.

Lemma dict_of_NoDup (l : list (K * V)) :
  NoDup (map fst l) -> dict_of eqb l = l.
Proof. intros H. unfold dict_of. now rewrite dict_of_app. Qed.
End DictFacts.

(** ** Deduplication *)

Lemma existsb_str_eqb (s : str) (l : list str) :
  existsb (str_eqb s) l = true <-> In s l.
Proof.
  rewrite existsb_exists. split.
  - intros (x & Hin & E). apply str_eqb_eq in E. now subst.
  - intros Hin. exists s. split; [assumption | apply str_eqb_refl].
Qed.

Lemma make_unique_loop (records : list record) :
  forall (unique : dict (K:=str) (V:=str)) (earlier : list str),
    (forall s, In s (dict_keys unique) <-> In s earlier) ->
    map swap_entry
      (fold_left
         (fun (unique : dict) '(header, seq) =>
            if negb (dict_contains str_eqb unique seq)
            then dict_set str_eqb unique seq header
            else unique)
         records unique)
    = map swap_entry unique ++ first_occurrences_from earlier records.
Proof.
  induction records as [|[h s] rest IH]; intros unique earlier Hsame; simpl.
  - now rewrite app_nil_r.
  - destruct (dict_contains str_eqb unique s) eqn:Ec; simpl.
    + apply (dict_contains_In str_eqb str_eqb_eq) in Ec.
      rewrite (proj2 (existsb_str_eqb s earlier)) by now apply Hsame.
      apply IH. intros x. rewrite in_app_iff, <- Hsame. simpl.
      split; [tauto | intros [H|[<-|[]]]; assumption].
    + assert (Hnot : ~ In s (dict_keys unique)).
      { intros Hin. apply (dict_contains_In str_eqb str_eqb_eq) in Hin. congruence. }
      assert (He : existsb (str_eqb s) earlier = false).
      { destruct (existsb (str_eqb s) earlier) eqn:E; [|reflexivity].
        apply existsb_str_eqb, Hsame in E. contradiction. }
      rewrite He, (dict_set_new str_eqb str_eqb_eq) by assumption.
      rewrite (IH _ (earlier ++ [s])).
      * rewrite map_app, <- app_assoc. reflexivity.
      * intros x. unfold dict_keys. rewrite map_app, !in_app_iff.
        fold (dict_keys unique). rewrite Hsame. reflexivity.
Qed.

Lemma make_unique_first_occurrences (records : list record) :
  make_unique_records records = first_occurrences records.
Proof.
  unfold make_unique_records, first_occurrences.
  apply (make_unique_loop records [] []). intros s. reflexivity.
Qed.

Lemma first_occurrences_from_In (records : list record) :
  forall earlier h s,
    In (h, s) (first_occurrences_from earlier records) <->
    exists before after,
      records = before ++ (h, s) :: after /\
      ~ In s (earlier ++ map snd before).
Proof.
  induction records as [|[h0 s0] rest IH]; intros earlier h s; simpl.
  - split; [tauto|]. intros ([|] & after & E & _); discriminate.
  - assert (Hrest :
      In (h, s) (first_occurrences_from (earlier ++ [s0]) rest) <->
      exists before after,
        (h0, s0) :: rest = ((h0, s0) :: before) ++ (h, s) :: after /\
        ~ In s (earlier ++ map snd ((h0, s0) :: before))).
    { rewrite IH. split; intros (b & a & E & Hn); exists b, a; simpl in *.
      - split; [now rewrite E|]. now rewrite <- app_assoc in Hn.
      - split; [now inversion E|]. now rewrite <- app_assoc. }
    assert (Hhead :
      (h0, s0) = (h, s) /\ ~ In s earlier <->
      exists after,
        (h0, s0) :: rest = [] ++ (h, s) :: after /\
        ~ In s (earlier ++ map snd (@nil record))).
    { simpl. rewrite app_nil_r. split.
      - intros [E Hn]. exists rest. now rewrite E.
      - intros (a & E & Hn). split; [now inversion E | assumption]. }
    destruct (existsb (str_eqb s0) earlier) eqn:Ee.
    + apply existsb_str_eqb in Ee. rewrite Hrest. split.
      * intros (b & a & H). now exists ((h0, s0) :: b), a.
      * intros ([|x b] & a & E & Hn).
        -- simpl in E. inversion E; subst. exfalso. apply Hn.
           apply in_or_app. now left.
        -- simpl in E. inversion E; subst. now exists b, a.
    + assert (Hn0 : ~ In s0 earlier).
      { intros Hin. apply existsb_str_eqb in Hin. congruence. }
      simpl. rewrite Hrest. split.
      * intros [E|(b & a & H)].
        -- inversion E; subst. exists [], rest. simpl. now rewrite app_nil_r.
        -- now exists ((h0, s0) :: b), a.
      * intros ([|x b] & a & E & Hn).
        -- left. simpl in E. now inversion E.
        -- right. simpl in E. inversion E; subst. now exists b, a.
Qed.

Lemma first_occurrences_from_fresh (records : list record) :
  forall earlier s,
    In s (map snd (first_occurrences_from earlier records)) -> ~ In s earlier.
Proof.
  intros earlier s Hin. apply in_map_iff in Hin as ([h s'] & <- & Hin).
  apply first_occurrences_from_In in Hin as (b & a & _ & Hn).
  intros H. apply Hn, in_or_app. now left.
Qed.

Lemma first_occurrences_from_NoDup (records : list record) :
  forall earlier, NoDup (map snd (first_occurrences_from earlier records)).
Proof.
  induction records as [|[h s] rest IH]; intros earlier; simpl; [constructor|].
  destruct (existsb (str_eqb s) earlier); [apply IH|].
  simpl. constructor; [|apply IH].
  intros Hin. apply first_occurrences_from_fresh in Hin.
  apply Hin, in_or_app. right. now left.
Qed.

Lemma first_occurrences_from_id (records : list record) :
  forall earlier,
    NoDup (map snd records) ->
    (forall s, In s (map snd records) -> ~ In s earlier) ->
    first_occurrences_from earlier records = records.
Proof.
  induction records as [|[h s] rest IH]; intros earlier Hnd Hfresh; simpl;
    [reflexivity|].
  simpl in Hnd. inversion Hnd as [|? ? Hnot Hnd']; subst.
  destruct (existsb (str_eqb s) earlier) eqn:E.
  - apply existsb_str_eqb in E. exfalso. apply (Hfresh s); [now left | assumption].
  - rewrite IH; [reflexivity | assumption |].
    intros x Hx Hin. apply in_app_or in Hin as [Hin|[<-|[]]].
    + apply (Hfresh x); [now right | assumption].
    + contradiction.
Qed.

Lemma first_occurrences_from_seqs (records : list record) :
  forall earlier s,
    In s (map snd (first_occurrences_from earlier records)) <->
    In s (map snd records) /\ ~ In s earlier.
Proof.
  induction records as [|[h x] rest IH]; intros earlier s; cbn [first_occurrences_from map snd].
  - cbn. tauto.
  - destruct (existsb (str_eqb x) earlier) eqn:E.
    + apply existsb_str_eqb in E. rewrite IH, in_app_iff. cbn.
      split; [intros [H1 H2]; split; [now right | tauto]|].
      intros [[->|H1] H2]; [contradiction|]. split; [exact H1|].
      intros [H|[->|[]]]; contradiction.
    + assert (Hx : ~ In x earlier).
      { intros H. apply existsb_str_eqb in H. congruence. }
      cbn [map snd In]. rewrite IH, in_app_iff. cbn.
      destruct (list_eq_dec ascii_dec x s) as [->|Hne]; [tauto|]. tauto.
Qed.

(** C6.  [make_unique_records] keeps, for each distinct sequence, exactly the
    first record carrying it, with that record's header, in the order of
    first occurrence: it computes [first_occurrences]; a record is in the
    output exactly when it stands in the input with no earlier record of the
    same sequence; and the three-record example gives the two expected
    records. *)
Theorem make_unique_records_keeps_first :
  (forall records, make_unique_records records = first_occurrences records) /\
  (forall records h s,
      In (h, s) (make_unique_records records) <->
      exists before after,
        records = before ++ (h, s) :: after /\ ~ In s (map snd before)) /\
  make_unique_records
    [(lit "h1", lit "AAA"); (lit "h2", lit "CCC"); (lit "h3", lit "AAA")]
  = [(lit "h1", lit "AAA"); (lit "h2", lit "CCC")].
Proof.
  split; [exact make_unique_first_occurrences|]. split; [|reflexivity].
  intros records h s. rewrite make_unique_first_occurrences.
  unfold first_occurrences. now rewrite first_occurrences_from_In.
Qed.

(** C7.  Deduplication is idempotent. *)
Theorem make_unique_records_idempotent (records : list record) :
  make_unique_records (make_unique_records records)
  = make_unique_records records.
Proof.
  rewrite !make_unique_first_occurrences. unfold first_occurrences.
  apply first_occurrences_from_id.
  - apply first_occurrences_from_NoDup.
  - intros s _ [].
Qed.

(** ** Counting duplicates *)

Section CounterFacts.
Context {K : Type} (eqb : K -> K -> bool).
Hypothesis eqb_eq : forall a b, eqb a b = true <-> a = b.

Lemma occ_nonneg k l : (0 <= occ eqb k l)%Z.
Proof. unfold occ. lia. Qed.

Lemma occ_cons k x l :
  occ eqb k (x :: l) = ((if eqb x k then 1 else 0) + occ eqb k l)%Z.
Proof. unfold occ. cbn [filter]. destruct (eqb x k); cbn [length]; lia. Qed.

Lemma occ_NoDup k l : NoDup l -> (occ eqb k l <= 1)%Z.
Proof.
  induction 1 as [|x l Hnot Hnd IH]; [unfold occ; simpl; lia|].
  rewrite occ_cons. destruct (eqb x k) eqn:E; [|lia].
  apply eqb_eq in E; subst.
  assert (occ eqb k l = 0)%Z; [|lia].
  unfold occ. rewrite filter_none; [reflexivity|].
  intros y Hy. apply (eqb_false eqb eqb_eq). congruence.
Qed.

Lemma Counter_loop (l : list K) :
  forall c : dict (K:=K) (V:=Z),
    NoDup (dict_keys c) ->
    let c' := fold_left (counter_incr eqb) l c in
    NoDup (dict_keys c') /\
    forall k, dict_get eqb c' k =
              if (occ eqb k l =? 0)%Z then dict_get eqb c k
              else Some (counter_get eqb c k + occ eqb k l)%Z.
Proof.
  induction l as [|x l IH]; intros c Hnd; simpl.
  - split; [assumption|]. intros k. reflexivity.
  - destruct (IH (counter_incr eqb c x)) as [Hnd' Hget].
    { unfold counter_incr. rewrite (dict_keys_set eqb).
      destruct (dict_contains eqb c x) eqn:E; [assumption|].
      apply NoDup_app; [assumption | repeat constructor; intros [] |].
      - intros a Ha [<-|[]].
        apply (dict_contains_In eqb eqb_eq) in Ha. congruence. }
    split; [assumption|]. intros k. rewrite Hget, occ_cons.
    pose proof (occ_nonneg k l) as Hpos.
    assert (Hg : dict_get eqb (counter_incr eqb c x) k =
                 if eqb x k then Some (counter_get eqb c x + 1)%Z
                 else dict_get eqb c k).
    { unfold counter_incr. apply (dict_get_set eqb eqb_eq). }
    assert (Hc : counter_get eqb (counter_incr eqb c x) k =
                 if eqb x k then (counter_get eqb c x + 1)%Z
                 else counter_get eqb c k).
    { unfold counter_get at 1. rewrite Hg. now destruct (eqb x k). }
    rewrite Hg, Hc. destruct (eqb x k) eqn:E.
    + apply eqb_eq in E; subst x.
      destruct (1 + occ eqb k l =? 0)%Z eqn:E1; [apply Z.eqb_eq in E1; lia|].
      destruct (occ eqb k l =? 0)%Z eqn:E0; f_equal.
      * apply Z.eqb_eq in E0. lia.
      * lia.
    + reflexivity.
Qed.

Lemma Counter_get (l : list K) k :
  dict_get eqb (Counter eqb l) k =
  if (occ eqb k l =? 0)%Z then None else Some (occ eqb k l).
Proof.
  unfold Counter. destruct (Counter_loop l []) as [_ H]; [constructor|].
  rewrite H. reflexivity.
Qed.

Lemma Counter_NoDup (l : list K) : NoDup (dict_keys (Counter eqb l)).
Proof. unfold Counter. now destruct (Counter_loop l []) as [H _]; [constructor|]. Qed.

Lemma dict_get_filter {V} (p : K * V -> bool) (d : dict (K:=K) (V:=V)) k :
  NoDup (dict_keys d) ->
  dict_get eqb (filter p d) k =
  match dict_get eqb d k with
  | Some v => if p (k, v) then Some v else None
  | None => None
  end.
Proof.
  induction d as [|[k' v'] d IH]; intros Hnd; simpl; [reflexivity|].
  simpl in Hnd. inversion Hnd as [|? ? Hnot Hnd']; subst.
  destruct (eqb k' k) eqn:E.
  - apply eqb_eq in E; subst k'.
    destruct (p (k, v')); simpl.
    + now rewrite (proj2 (eqb_eq k k) eq_refl).
    + rewrite IH by assumption.
      now rewrite (proj2 (dict_get_None eqb eqb_eq d k) Hnot).
  - destruct (p (k', v')); simpl; [rewrite E|]; now apply IH.
Qed.

Lemma NoDup_keys_filter {V} (p : K * V -> bool) (d : dict (K:=K) (V:=V)) :
  NoDup (dict_keys d) -> NoDup (dict_keys (filter p d)).
Proof.
  induction d as [|[k v] d IH]; simpl; intros Hnd; [constructor|].
  inversion Hnd as [|? ? Hnot Hnd']; subst.
  destruct (p (k, v)); simpl; [|now apply IH].
  constructor; [|now apply IH].
  intros Hin. apply Hnot. unfold dict_keys in *.
  apply in_map_iff in Hin as (e & <- & He). apply filter_In in He as [He _].
  now apply in_map.
Qed.
End CounterFacts.

Lemma occ_seqs (s : str) (records : list record) :
  occ str_eqb s (map (fun '(_, seq) => seq) records) = occurrences s records.
Proof.
  unfold occ, occurrences. f_equal.
  induction records as [|[h x] rest IH]; simpl; [reflexivity|].
  destruct (str_eqb x s); simpl; now rewrite IH.
Qed.

Lemma find_duplicate_sequences_filter (records : list record) :
  find_duplicate_sequences records =
  filter (fun '(seq, count) => (1 <? count)%Z)
         (Counter str_eqb (map (fun '(_, seq) => seq) records)).
Proof.
  unfold find_duplicate_sequences. apply (dict_of_NoDup str_eqb str_eqb_eq).
  apply NoDup_keys_filter, (Counter_NoDup str_eqb str_eqb_eq).
Qed.

Lemma occ_In (s : str) (l : list str) : In s l -> (1 <= occ str_eqb s l)%Z.
Proof.
  induction l as [|x l IH]; [intros []|].
  rewrite (occ_cons str_eqb). pose proof (occ_nonneg str_eqb s l) as Hpos.
  intros [->|Hin]; [rewrite str_eqb_refl; lia|].
  specialize (IH Hin). destruct (str_eqb x s); lia.
Qed.

Lemma occurrences_after_dedup (records : list record) (s : str) :
  In s (map snd records) -> occurrences s (make_unique_records records) = 1%Z.
Proof.
  intros Hin. rewrite <- occ_seqs.
  replace (map (fun '(_, seq) => seq) (make_unique_records records))
    with (map snd (make_unique_records records))
    by (apply map_ext; now intros []).
  rewrite make_unique_first_occurrences. unfold first_occurrences.
  pose proof (occ_NoDup str_eqb str_eqb_eq s _
                (first_occurrences_from_NoDup records [])) as Hle.
  assert (Hge : (1 <= occ str_eqb s
                        (map snd (first_occurrences_from [] records)))%Z).
  { apply occ_In, first_occurrences_from_seqs. split; [exact Hin | intros []]. }
  lia.
Qed.

(** C10.  After deduplication every sequence of the input occurs exactly
    once, and no sequence is reported as a duplicate; in general
    [find_duplicate_sequences] maps a sequence [s] to a count [c] exactly
    when [s] occurs [c >= 2] times among the records, and it lists every
    such sequence once.  The function only reads [records]. *)
Theorem find_duplicate_sequences_spec :
  (forall records,
      find_duplicate_sequences (make_unique_records records) = []) /\
  (forall records s,
      In s (map snd records) ->
      occurrences s (make_unique_records records) = 1%Z) /\
  (forall records s c,
      dict_get str_eqb (find_duplicate_sequences records) s = Some c <->
      c = occurrences s records /\ (2 <= c)%Z) /\
  (forall records, NoDup (dict_keys (find_duplicate_sequences records))).
Proof.
  split; [|split; [exact occurrences_after_dedup | split]].
  - intros records. rewrite find_duplicate_sequences_filter.
    apply filter_none. intros [s c] Hin.
    apply (In_dict_get str_eqb str_eqb_eq) in Hin;
      [|apply (Counter_NoDup str_eqb str_eqb_eq)].
    rewrite (Counter_get str_eqb str_eqb_eq) in Hin.
    destruct (occ str_eqb s _ =? 0)%Z; [discriminate|].
    injection Hin as <-.
    apply Z.ltb_ge, (occ_NoDup str_eqb str_eqb_eq).
    rewrite make_unique_first_occurrences.
    replace (map (fun '(_, seq) => seq) (first_occurrences records))
      with (map snd (first_occurrences records))
      by (apply map_ext; now intros []).
    apply first_occurrences_from_NoDup.
  - intros records s c. rewrite find_duplicate_sequences_filter.
    rewrite (dict_get_filter str_eqb str_eqb_eq)
      by apply (Counter_NoDup str_eqb str_eqb_eq).
    rewrite (Counter_get str_eqb str_eqb_eq), occ_seqs.
    destruct (occurrences s records =? 0)%Z eqn:E0.
    + apply Z.eqb_eq in E0. split; [discriminate | lia].
    + destruct (1 <? occurrences s records)%Z eqn:E1.
      * apply Z.ltb_lt in E1. split; [intros [= <-]; lia | intros [-> _]; reflexivity].
      * apply Z.ltb_ge in E1. split; [discriminate | lia].
  - intros records. rewrite find_duplicate_sequences_filter.
    apply NoDup_keys_filter, (Counter_NoDup str_eqb str_eqb_eq).
Qed.

Lemma find_duplicate_sequences_spec_witness :
  occurrences (lit "AAA")
    (make_unique_records
       [(lit "h1", lit "AAA"); (lit "h2", lit "CCC"); (lit "h3", lit "AAA")])
  = 1%Z.
Proof.
  apply (proj1 (proj2 find_duplicate_sequences_spec)). left. reflexivity.
Defined.

(** ** Cut lengths *)

Lemma randint_range (a b : Z) (g : rng) :
  (a <= b)%Z ->
  exists v, randint a b g = Ok (v, snd (rng_next g)) /\ (a <= v <= b)%Z.
Proof.
  intros Hab. unfold randint.
  destruct (b <? a)%Z eqn:E; [apply Z.ltb_lt in E; lia|].
  exists (a + fst (rng_next g) mod (b - a + 1))%Z. split; [reflexivity|].
  pose proof (Z.mod_pos_bound (fst (rng_next g)) (b - a + 1)). lia.
Qed.

Lemma random_cut_length_outcome (orig_len K H : Z) (g : rng) :
  (0 <= orig_len)%Z -> (0 <= K)%Z -> (0 <= H)%Z ->
  exists v g',
    random_cut_length orig_len K H g = Ok (v, g') /\
    ((orig_len <= K)%Z -> v = orig_len /\ g' = g) /\
    (0 <= v <= orig_len)%Z /\
    (v <= K)%Z /\
    ((1 <= orig_len)%Z -> (1 <= K)%Z -> (1 <= v)%Z) /\
    ((K < orig_len)%Z -> (1 <= K)%Z -> (Z.max 1 (K - H) <= v)%Z) /\
    ((K < orig_len)%Z -> (Z.max 1 (K - H) > Z.min K orig_len)%Z ->
     v = Z.min K orig_len).
Proof.
  intros Ho HK HH. unfold random_cut_length.
  destruct (orig_len <=? K)%Z eqn:E.
  - apply Z.leb_le in E. exists orig_len, g. repeat split; lia.
  - apply Z.leb_gt in E.
    set (max_len := Z.min K orig_len).
    set (min_len := if (Z.max 1 (K - H) >? max_len)%Z then max_len
                    else Z.max 1 (K - H)).
    assert (Hle : (min_len <= max_len)%Z).
    { subst min_len. destruct (Z.max 1 (K - H) >? max_len)%Z eqn:E'; [lia|].
      rewrite Z.gtb_ltb in E'. apply Z.ltb_ge in E'. exact E'. }
    destruct (randint_range min_len max_len g Hle) as (v & Hv & Hrange).
    exists v, (snd (rng_next g)). split; [exact Hv|].
    subst min_len max_len.
    destruct (Z.max 1 (K - H) >? Z.min K orig_len)%Z eqn:E'.
    + rewrite Z.gtb_ltb in E'. apply Z.ltb_lt in E'. repeat split; lia.
    + rewrite Z.gtb_ltb in E'. apply Z.ltb_ge in E'. repeat split; lia.
Qed.

(** C2, as the code has it.  For non-negative arguments
    [random_cut_length] always returns a value and never raises; the value
    is [orig_len] itself when [orig_len <= K]; it is at most [K] and at most
    [orig_len]; it is at least 1 when both [orig_len] and [K] are at least 1,
    and then, when a cut is made, it is at least [max 1 (K - H)]; when the
    bounds are inconsistent the value is the upper bound [min K orig_len]. *)
Theorem random_cut_length_bounds (orig_len K H : Z) (g : rng) :
  (0 <= orig_len)%Z -> (0 <= K)%Z -> (0 <= H)%Z ->
  exists v g',
    random_cut_length orig_len K H g = Ok (v, g') /\
    ((orig_len <= K)%Z -> v = orig_len /\ g' = g) /\
    (0 <= v <= orig_len)%Z /\
    (v <= K)%Z /\
    ((1 <= orig_len)%Z -> (1 <= K)%Z -> (1 <= v)%Z) /\
    ((K < orig_len)%Z -> (1 <= K)%Z -> (Z.max 1 (K - H) <= v)%Z) /\
    ((K < orig_len)%Z -> (Z.max 1 (K - H) > Z.min K orig_len)%Z ->
     v = Z.min K orig_len).
Proof. exact (random_cut_length_outcome orig_len K H g). Qed.

Lemma random_cut_length_bounds_witness :
  exists v g',
    random_cut_length 200 100 10 (fun _ => 7%Z) = Ok (v, g') /\
    ((200 <= 100)%Z -> v = 200%Z /\ g' = (fun _ => 7%Z)) /\
    (0 <= v <= 200)%Z /\
    (v <= 100)%Z /\
    ((1 <= 200)%Z -> (1 <= 100)%Z -> (1 <= v)%Z) /\
    ((100 < 200)%Z -> (1 <= 100)%Z -> (Z.max 1 (100 - 10) <= v)%Z) /\
    ((100 < 200)%Z -> (Z.max 1 (100 - 10) > Z.min 100 200)%Z ->
     v = Z.min 100 200).
Proof.
  apply (random_cut_length_bounds 200 100 10 (fun _ => 7%Z)); lia.
Defined.

(** C2, as the claim states it, fails: with [K = 0] a sequence of length 5 is
    cut to length 0, and a sequence of length 0 keeps length 0; neither value
    lies in [[1, orig_len]]. *)
Lemma random_cut_length_below_one :
  (exists v, value_of (random_cut_length 5 0 0 (fun _ => 0%Z)) = Ok v /\
             (v < 1)%Z) /\
  (exists v, value_of (random_cut_length 0 3 1 (fun _ => 0%Z)) = Ok v /\
             (v < 1)%Z).
Proof. split; exists 0%Z; split; (reflexivity || lia). Qed.

(** The examples of the specification. *)
Example random_cut_length_examples (g : rng) :
  value_of (random_cut_length 50 100 10 g) = Ok 50%Z /\
  value_of (random_cut_length 95 100 10 g) = Ok 95%Z /\
  exists v, value_of (random_cut_length 200 100 10 g) = Ok v /\
            (90 <= v <= 100)%Z.
Proof.
  split; [reflexivity|]. split; [reflexivity|].
  destruct (random_cut_length_outcome 200 100 10 g) as (v & g' & E & H); try lia.
  exists v. rewrite E. split; [reflexivity|]. lia.
Qed.

(** ** Base composition *)

Lemma sum_Z_from (l : list Z) (a : Z) : fold_left Z.add l a = (a + sum_Z l)%Z.
Proof.
  unfold sum_Z. revert a. induction l as [|x l IH]; intros a; simpl; [lia|].
  rewrite IH, (IH x). lia.
Qed.

Lemma sum_Z_cons (x : Z) (l : list Z) : sum_Z (x :: l) = (x + sum_Z l)%Z.
Proof. unfold sum_Z at 1. simpl. apply sum_Z_from. Qed.

Section CounterSum.
Context {K : Type} (eqb : K -> K -> bool).

Lemma sum_values_set (c : dict (K:=K) (V:=Z)) k v :
  sum_Z (dict_values (dict_set eqb c k v)) =
  (sum_Z (dict_values c) - counter_get eqb c k + v)%Z.
Proof.
  unfold counter_get, dict_values.
  induction c as [|[k' v'] c IH]; cbn [dict_set dict_get map snd].
  - rewrite sum_Z_cons. unfold sum_Z. simpl. lia.
  - destruct (eqb k' k); cbn [map snd]; rewrite !sum_Z_cons; [lia|].
    rewrite IH. lia.
Qed.

Lemma sum_values_Counter_loop (l : list K) :
  forall c : dict (K:=K) (V:=Z),
    sum_Z (dict_values (fold_left (counter_incr eqb) l c)) =
    (sum_Z (dict_values c) + Z.of_nat (length l))%Z.
Proof.
  induction l as [|x l IH]; intros c; cbn [fold_left length]; [lia|].
  rewrite IH. unfold counter_incr. rewrite sum_values_set. lia.
Qed.

Lemma fold_left_guarded (p : K -> bool) (l : list K) :
  forall c : dict (K:=K) (V:=Z),
    fold_left (fun (c : dict) x => if p x then counter_incr eqb c x else c) l c
    = fold_left (counter_incr eqb) (filter p l) c.
Proof.
  induction l as [|x l IH]; intros c; simpl; [reflexivity|].
  destruct (p x); simpl; apply IH.
Qed.
End CounterSum.

Lemma count_bases_flat (seqs : list str) :
  forall counts,
    count_bases counts seqs =
    fold_left (counter_incr Ascii.eqb)
              (filter is_canonical (map upper (concat seqs))) counts.
Proof.
  unfold count_bases.
  induction seqs as [|s seqs IH]; intros counts; simpl; [reflexivity|].
  rewrite IH, fold_left_guarded, map_app, filter_app, fold_left_app.
  reflexivity.
Qed.

Lemma count_bases_total (seqs : list str) :
  sum_Z (dict_values (count_bases [] seqs)) = canonical_total seqs.
Proof.
  rewrite count_bases_flat, sum_values_Counter_loop. reflexivity.
Qed.

Lemma occ_filter_canonical (b : ascii) (l : str) :
  is_canonical b = true ->
  occ Ascii.eqb b (filter is_canonical l) = occ Ascii.eqb b l.
Proof.
  intros Hb. unfold occ. f_equal.
  induction l as [|x l IH]; simpl; [reflexivity|].
  destruct (is_canonical x) eqn:Ex; simpl.
  - destruct (Ascii.eqb x b); simpl; now rewrite IH.
  - destruct (Ascii.eqb x b) eqn:E; [|exact IH].
    apply Ascii.eqb_eq in E. congruence.
Qed.

Lemma count_bases_get (seqs : list str) (b : ascii) :
  is_canonical b = true ->
  counter_get Ascii.eqb (count_bases [] seqs) b = base_count b seqs.
Proof.
  intros Hb. rewrite count_bases_flat. unfold counter_get, base_count.
  fold (Counter Ascii.eqb (filter is_canonical (map upper (concat seqs)))).
  rewrite (Counter_get Ascii.eqb Ascii.eqb_eq), occ_filter_canonical by assumption.
  destruct (occ Ascii.eqb b _ =? 0)%Z eqn:E; [|reflexivity].
  apply Z.eqb_eq in E. now rewrite E.
Qed.

(** C3.  [compute_base_distribution] returns the mapping with the four keys
    A, C, G, T, in this order, whose value at a base is 1/4 when no canonical
    base occurs and otherwise the number of occurrences of the base, in
    either case, divided by the number of canonical bases; 1/4 is 0.25; and
    for ["AACGT"] the values are 0.4, 0.2, 0.2 and 0.2. *)
Theorem compute_base_distribution_spec :
  (forall seqs,
      compute_base_distribution seqs =
      map (fun b =>
             (b, if (canonical_total seqs =? 0)%Z then truediv 1 4
                 else truediv (base_count b seqs) (canonical_total seqs)))
          ACGT) /\
  (truediv 1 4 == 0.25)%Q /\
  dict_Qeq (compute_base_distribution [lit "AACGT"])
           [("A"%char, 0.4%Q); ("C"%char, 0.2%Q);
            ("G"%char, 0.2%Q); ("T"%char, 0.2%Q)].
Proof.
  split; [|split].
  - intros seqs. unfold compute_base_distribution.
    rewrite count_bases_total.
    destruct (canonical_total seqs =? 0)%Z.
    + reflexivity.
    + rewrite (dict_of_NoDup Ascii.eqb Ascii.eqb_eq).
      * cbn [ACGT lit String.list_ascii_of_string map].
        rewrite !count_bases_get by reflexivity. reflexivity.
      * rewrite map_map. cbn. repeat constructor; cbn; intuition discriminate.
  - reflexivity.
  - repeat constructor.
Qed.

(** ** Weighted choice *)

Lemma Qltb_lt (x y : Q) : Qltb x y = true <-> (x < y)%Q.
Proof.
  unfold Qltb. rewrite negb_true_iff. split.
  - intros H. apply Qnot_le_lt. intros Hle. apply Qle_bool_iff in Hle. congruence.
  - intros H. destruct (Qle_bool y x) eqn:E; [|reflexivity].
    apply Qle_bool_iff in E. exfalso. exact (Qlt_not_le _ _ H E).
Qed.

Lemma Qltb_ge (x y : Q) : Qltb x y = false <-> (y <= x)%Q.
Proof.
  unfold Qltb. rewrite negb_false_iff. apply Qle_bool_iff.
Qed.

Lemma random_unit (g : rng) : (0 <= fst (random g) < 1)%Q.
Proof.
  unfold random. simpl.
  pose proof (Z.mod_pos_bound (g O) (2 ^ 53) eq_refl) as [Hlo Hhi].
  unfold Qle, Qlt. simpl. split; [lia|].
  rewrite Z.mul_1_r. exact Hhi.
Qed.

Lemma random_snd (g : rng) : snd (random g) = snd (rng_next g).
Proof. reflexivity. Qed.

Section Choices.
Context {A : Type}.
Variable g : rng.

Lemma choices_two (b1 b2 : A) (w1 w2 : Q) :
  (w1 + w2 == 1)%Q ->
  choices [b1; b2] [w1; w2] g =
  Ok (if Qltb (fst (random g) * (w1 + w2 + 0)) w1 then b1 else b2, snd (random g)).
Proof.
  intros Hsum. unfold choices. cbn [length accumulate accumulate_from rev app Nat.eqb negb].
  destruct (Qle_bool (w1 + w2 + 0) 0) eqn:E.
  { apply Qle_bool_iff in E. lra. }
  unfold bisect. cbn.
  repeat match goal with
         | |- context [Qltb ?x ?y] => destruct (Qltb x y)
         end; reflexivity.
Qed.

Lemma choices_three (b1 b2 b3 : A) (w1 w2 w3 : Q) :
  (w1 + w2 + w3 == 1)%Q ->
  choices [b1; b2; b3] [w1; w2; w3] g =
  Ok (if Qltb (fst (random g) * (w1 + w2 + w3 + 0)) (w1 + w2)
      then if Qltb (fst (random g) * (w1 + w2 + w3 + 0)) w1 then b1 else b2
      else b3, snd (random g)).
Proof.
  intros Hsum. unfold choices. cbn [length accumulate accumulate_from rev app Nat.eqb negb].
  destruct (Qle_bool (w1 + w2 + w3 + 0) 0) eqn:E.
  { apply Qle_bool_iff in E. lra. }
  unfold bisect. cbn.
  repeat match goal with
         | |- context [Qltb ?x ?y] => destruct (Qltb x y)
         end; reflexivity.
Qed.
End Choices.

(** ** Ambiguity resolution *)

Ltac table_cases H :=
  unfold AMBIGUOUS_NUCLEOTIDES in H;
  cbn [dict_get lit String.list_ascii_of_string] in H;
  repeat match type of H with
         | (if Ascii.eqb ?c ?s then _ else _) = _ =>
             let E := fresh "E" in
             destruct (Ascii.eqb c s) eqn:E;
             [apply Ascii.eqb_eq in E; subst s;
              let H' := fresh "H" in
              pose proof H as H'; injection H' as <-
             | clear E]
         end;
  try discriminate H.

Lemma table_entries (symbol : ascii) (bases : str) :
  dict_get Ascii.eqb AMBIGUOUS_NUCLEOTIDES symbol = Some bases ->
  isupper symbol = true /\
  (length bases = 2 \/ length bases = 3) /\
  NoDup bases /\
  Forall (fun b => is_canonical b = true /\ isupper b = true /\
                   islower (lower b) = true /\ upper (lower b) = b) bases.
Proof.
  intros H. table_cases H; (split; [reflexivity|]); (split; [auto|]);
    (split; [repeat constructor; cbn; intuition discriminate|]);
    repeat constructor.
Qed.

Lemma weights_for_symbol_value (symbol : ascii) (bases : str) (pA pC pG pT : Q) :
  dict_get Ascii.eqb AMBIGUOUS_NUCLEOTIDES symbol = Some bases ->
  _weights_for_symbol symbol [pA; pC; pG; pT] =
  Ok (bases, map (renormalized pA pC pG pT bases) bases).
Proof.
  intros H. unfold _weights_for_symbol, dict_item. rewrite H.
  table_cases H; cbn -[Qeq_bool Qdiv Qplus truediv];
    unfold renormalized, sum_Q;
    cbn -[Qeq_bool Qdiv Qplus truediv];
    match goal with
    | |- context [Qeq_bool ?s 0] => destruct (Qeq_bool s 0)
    end; reflexivity.
Qed.

Lemma Qeq_bool_false (x y : Q) : Qeq_bool x y = false -> ~ (x == y)%Q.
Proof. intros H E. apply Qeq_bool_iff in E. congruence. Qed.

Lemma renormalized_sum (symbol : ascii) (bases : str) (pA pC pG pT : Q) :
  dict_get Ascii.eqb AMBIGUOUS_NUCLEOTIDES symbol = Some bases ->
  (sum_Q (map (renormalized pA pC pG pT bases) bases) == 1)%Q.
Proof.
  intros H.
  table_cases H; unfold renormalized, sum_Q;
    cbn -[Qeq_bool Qdiv Qplus truediv];
    match goal with
    | |- context [Qeq_bool ?s 0] =>
        destruct (Qeq_bool s 0) eqn:E;
        [reflexivity
        | apply Qeq_bool_false in E; field; intros Hc; apply E; lra]
    end.
Qed.

Lemma renormalized_nonneg (symbol : ascii) (bases : str) (pA pC pG pT : Q) :
  dict_get Ascii.eqb AMBIGUOUS_NUCLEOTIDES symbol = Some bases ->
  (0 <= pA)%Q -> (0 <= pC)%Q -> (0 <= pG)%Q -> (0 <= pT)%Q ->
  Forall (fun b => (0 <= renormalized pA pC pG pT bases b)%Q) bases.
Proof.
  intros H HA HC HG HT.
  table_cases H; unfold renormalized, sum_Q;
    cbn -[Qeq_bool Qdiv Qplus truediv];
    match goal with
    | |- context [Qeq_bool ?s 0] =>
        destruct (Qeq_bool s 0) eqn:E;
        [repeat (apply Forall_cons; [vm_compute; discriminate|]);
         apply Forall_nil
        | apply Qeq_bool_false in E;
          assert (0 < s)%Q by lra;
          repeat (apply Forall_cons;
                  [cbn -[Qdiv Qplus Qle Qmult];
                   apply Qle_shift_div_l; [assumption | lra]|]);
          apply Forall_nil]
    end.
Qed.

(** The fuel that [bisect] gives its loop is enough: more fuel does not
    change the result. *)
Lemma bisect_loop_enough (a : list Q) (x : Q) (fuel : nat) :
  forall extra lo hi,
    hi - lo <= fuel ->
    bisect_loop (fuel + extra) a x lo hi = bisect_loop fuel a x lo hi.
Proof.
  induction fuel as [|fuel IH]; intros extra lo hi Hle.
  - cbn [Nat.add bisect_loop]. destruct extra; [reflexivity|].
    cbn [bisect_loop]. destruct (lo <? hi) eqn:E; [|reflexivity].
    apply Nat.ltb_lt in E. lia.
  - cbn [Nat.add bisect_loop]. destruct (lo <? hi) eqn:E; [|reflexivity].
    apply Nat.ltb_lt in E.
    assert (Hmid : lo <= (lo + hi) / 2 < hi).
    { split.
      - apply Nat.div_le_lower_bound; lia.
      - apply Nat.Div0.div_lt_upper_bound; lia. }
    destruct (Qltb x (nth ((lo + hi) / 2) a 0%Q)); apply IH; lia.
Qed.

Section ChoicesIntervals.
Context {A : Type}.
Variable g : rng.

Lemma choices_two_spec (b1 b2 : A) (w1 w2 : Q) :
(w1 + w2 == 1)%Q ->
exists i chosen,
  choices [b1; b2] [w1; w2] g = Ok (chosen, snd (random g)) /\
  nth_error [b1; b2] i = Some chosen /\
  ((0 <= w1)%Q -> (0 <= w2)%Q ->
   (sum_Q (firstn i [w1; w2]) <= fst (random g)
    < sum_Q (firstn (S i) [w1; w2]))%Q).
Proof.
intros Hsum. rewrite (choices_two g b1 b2 w1 w2 Hsum).
pose proof (random_unit g) as Hu.
assert (Hx : (fst (random g) * (w1 + w2 + 0) == fst (random g))%Q).
{ rewrite Qplus_0_r, Hsum. apply Qmult_1_r. }
set (x := (fst (random g) * (w1 + w2 + 0))%Q) in *.
set (u := fst (random g)) in *. clearbody x u.
destruct (Qltb x w1) eqn:E.
- apply Qltb_lt in E. exists 0, b1. repeat split; unfold sum_Q; cbn; lra.
- apply Qltb_ge in E. exists 1, b2. repeat split; unfold sum_Q; cbn; lra.
Qed.

Lemma choices_three_spec (b1 b2 b3 : A) (w1 w2 w3 : Q) :
(w1 + w2 + w3 == 1)%Q ->
exists i chosen,
  choices [b1; b2; b3] [w1; w2; w3] g = Ok (chosen, snd (random g)) /\
  nth_error [b1; b2; b3] i = Some chosen /\
  ((0 <= w1)%Q -> (0 <= w2)%Q -> (0 <= w3)%Q ->
   (sum_Q (firstn i [w1; w2; w3]) <= fst (random g)
    < sum_Q (firstn (S i) [w1; w2; w3]))%Q).
Proof.
intros Hsum. rewrite (choices_three g b1 b2 b3 w1 w2 w3 Hsum).
pose proof (random_unit g) as Hu.
assert (Hx : (fst (random g) * (w1 + w2 + w3 + 0) == fst (random g))%Q).
{ rewrite Qplus_0_r, Hsum. apply Qmult_1_r. }
set (x := (fst (random g) * (w1 + w2 + w3 + 0))%Q) in *.
set (u := fst (random g)) in *. clearbody x u.
destruct (Qltb x (w1 + w2)) eqn:E; [destruct (Qltb x w1) eqn:E'|].
- apply Qltb_lt in E, E'. exists 0, b1. repeat split; unfold sum_Q; cbn; lra.
- apply Qltb_lt in E. apply Qltb_ge in E'.
  exists 1, b2. repeat split; unfold sum_Q; cbn; lra.
- apply Qltb_ge in E. exists 2, b3. repeat split; unfold sum_Q; cbn; lra.
Qed.
End ChoicesIntervals.

(** Drawing for a symbol of the table: the draw succeeds, consumes one raw
    number, and picks the candidate whose interval of cumulated probabilities
    holds the number drawn. *)
Lemma draw_for_symbol (symbol : ascii) (bases : str) (pA pC pG pT : Q) (g : rng) :
  dict_get Ascii.eqb AMBIGUOUS_NUCLEOTIDES symbol = Some bases ->
  let weights := map (renormalized pA pC pG pT bases) bases in
  exists i chosen,
    choices bases weights g = Ok (chosen, snd (random g)) /\
    nth_error bases i = Some chosen /\
    ((0 <= pA)%Q -> (0 <= pC)%Q -> (0 <= pG)%Q -> (0 <= pT)%Q ->
     (sum_Q (firstn i weights) <= fst (random g)
      < sum_Q (firstn (S i) weights))%Q).
Proof.
  intros H weights.
  pose proof (renormalized_sum symbol bases pA pC pG pT H) as Hsum.
  assert (Hpos : (0 <= pA)%Q -> (0 <= pC)%Q -> (0 <= pG)%Q -> (0 <= pT)%Q ->
                 Forall (fun b => (0 <= renormalized pA pC pG pT bases b)%Q) bases).
  { apply (renormalized_nonneg symbol); exact H. }
  destruct (table_entries symbol bases H) as (_ & Hlen & _ & _).
  subst weights. set (f := renormalized pA pC pG pT bases) in *. clearbody f.
  destruct Hlen as [Hlen|Hlen].
  - destruct bases as [|b1 [|b2 [|]]]; try discriminate Hlen.
    unfold sum_Q in Hsum. cbn in Hsum.
    destruct (choices_two_spec g b1 b2 (f b1) (f b2)) as (i & c & Hc & Hi & Hint);
      [lra|].
    exists i, c. split; [exact Hc|]. split; [exact Hi|].
    intros HA HC HG HT. specialize (Hpos HA HC HG HT).
    inversion Hpos as [|? ? H1 Hpos']; subst. inversion Hpos' as [|? ? H2 _]; subst.
    now apply Hint.
  - destruct bases as [|b1 [|b2 [|b3 [|]]]]; try discriminate Hlen.
    unfold sum_Q in Hsum. cbn in Hsum.
    destruct (choices_three_spec g b1 b2 b3 (f b1) (f b2) (f b3))
      as (i & c & Hc & Hi & Hint); [lra|].
    exists i, c. split; [exact Hc|]. split; [exact Hi|].
    intros HA HC HG HT. specialize (Hpos HA HC HG HT).
    inversion Hpos as [|? ? H1 Hpos']; subst. inversion Hpos' as [|? ? H2 Hpos'']; subst.
    inversion Hpos'' as [|? ? H3 _]; subst.
    now apply Hint.
Qed.

Lemma base_probs_tuple_ok (base_probs : dict (K:=ascii) (V:=Q)) :
  forallb (dict_contains Ascii.eqb base_probs) ACGT = true ->
  exists pA pC pG pT,
    map_result (dict_item Ascii.eqb base_probs) base_order = Ok [pA; pC; pG; pT].
Proof.
  unfold ACGT, base_order, dict_contains, dict_item. cbn.
  destruct (dict_get Ascii.eqb base_probs "A") as [pA|]; [|discriminate].
  destruct (dict_get Ascii.eqb base_probs "C") as [pC|]; [|discriminate].
  destruct (dict_get Ascii.eqb base_probs "G") as [pG|]; [|discriminate].
  destruct (dict_get Ascii.eqb base_probs "T") as [pT|]; [|discriminate].
  intros _. now exists pA, pC, pG, pT.
Qed.

Lemma resolve_loop_spec (seq : str) (pA pC pG pT : Q) :
  forall new_chars g,
  exists out g',
    resolve_loop seq [pA; pC; pG; pT] new_chars g = Ok (new_chars ++ out, g') /\
    Forall2 resolved_char seq out.
Proof.
  induction seq as [|ch seq IH]; intros new_chars g; cbn [resolve_loop].
  - exists [], g. rewrite app_nil_r. split; [reflexivity | constructor].
  - unfold dict_contains.
    destruct (dict_get Ascii.eqb AMBIGUOUS_NUCLEOTIDES (upper ch)) as [bases|] eqn:E.
    + rewrite (weights_for_symbol_value _ _ pA pC pG pT E). cbn [bind].
      destruct (draw_for_symbol _ _ pA pC pG pT g E) as (i & chosen & Hc & Hi & _).
      rewrite Hc. cbn [bind].
      destruct (IH (new_chars ++ [if isupper ch then chosen else lower chosen])
                   (snd (random g))) as (out & g' & Hout & Hall).
      exists ((if isupper ch then chosen else lower chosen) :: out), g'.
      rewrite Hout, <- app_assoc. split; [reflexivity|].
      constructor; [|exact Hall].
      unfold resolved_char. rewrite E. exists chosen.
      split; [now apply nth_error_In in Hi | reflexivity].
    + destruct (IH (new_chars ++ [ch]) g) as (out & g' & Hout & Hall).
      exists (ch :: out), g'. rewrite Hout, <- app_assoc.
      split; [reflexivity|]. constructor; [|exact Hall].
      unfold resolved_char. now rewrite E.
Qed.

Lemma resolve_spec (seq : str) (base_probs : dict (K:=ascii) (V:=Q)) (g : rng) :
  forallb (dict_contains Ascii.eqb base_probs) ACGT = true ->
  exists out g',
    resolve_ambiguous_sequence seq base_probs g = Ok (out, g') /\
    Forall2 resolved_char seq out.
Proof.
  intros H. destruct (base_probs_tuple_ok base_probs H) as (pA & pC & pG & pT & E).
  unfold resolve_ambiguous_sequence. rewrite E. cbn [bind].
  destruct (resolve_loop_spec seq pA pC pG pT [] g) as (out & g' & Hout & Hall).
  now exists out, g'.
Qed.

Lemma isupper_islower (c : ascii) : isupper c = true -> islower c = false.
Proof.
  unfold isupper, islower. rewrite andb_true_iff, !N.leb_le. intros [_ H].
  apply andb_false_iff. left. apply N.leb_gt. lia.
Qed.

Lemma upper_of_upper (c : ascii) : isupper c = true -> upper c = c.
Proof. intros H. unfold upper. now rewrite (isupper_islower c H). Qed.

(** A character that the table recognises is a letter. *)
Lemma symbol_cased (ch : ascii) (bases : str) :
  dict_get Ascii.eqb AMBIGUOUS_NUCLEOTIDES (upper ch) = Some bases ->
  (isupper ch = true /\ islower ch = false) \/
  (isupper ch = false /\ islower ch = true).
Proof.
  intros H. destruct (table_entries _ _ H) as (Hup & _).
  unfold upper in Hup. destruct (islower ch) eqn:El.
  - right. split; [|reflexivity].
    destruct (isupper ch) eqn:Eu; [|reflexivity].
    apply isupper_islower in Eu. congruence.
  - left. now split.
Qed.

Lemma resolved_char_cases (ch o : ascii) :
  resolved_char ch o ->
  (dict_get Ascii.eqb AMBIGUOUS_NUCLEOTIDES (upper ch) = None /\ o = ch) \/
  (exists bases,
      dict_get Ascii.eqb AMBIGUOUS_NUCLEOTIDES (upper ch) = Some bases /\
      In (upper o) bases /\ is_canonical (upper o) = true /\
      ((isupper ch = true /\ isupper o = true) \/
       (islower ch = true /\ islower o = true))).
Proof.
  unfold resolved_char.
  destruct (dict_get Ascii.eqb AMBIGUOUS_NUCLEOTIDES (upper ch)) as [bases|] eqn:E;
    [|now left].
  intros (chosen & Hin & ->). right. exists bases. split; [reflexivity|].
  destruct (table_entries _ _ E) as (_ & _ & _ & Hall).
  rewrite Forall_forall in Hall.
  destruct (Hall chosen Hin) as (Hcan & Hup & Hlow & Hul).
  destruct (symbol_cased ch bases E) as [[Eu El]|[Eu El]]; rewrite Eu.
  - rewrite (upper_of_upper chosen Hup). auto.
  - rewrite Hul. auto.
Qed.

(** C9.  For a distribution defined on the four canonical bases, resolution
    returns a string of the length of its input that holds, at each
    position, the input character or, when the uppercase form of that
    character is an ambiguity symbol, a canonical base (in either case) among
    the candidates of that symbol. *)
Theorem resolve_keeps_length_and_positions
    (seq : str) (base_probs : dict (K:=ascii) (V:=Q)) (g : rng) :
  forallb (dict_contains Ascii.eqb base_probs) ACGT = true ->
  exists out g',
    resolve_ambiguous_sequence seq base_probs g = Ok (out, g') /\
    length out = length seq /\
    Forall2
      (fun ch o =>
         o = ch \/
         exists bases,
           dict_get Ascii.eqb AMBIGUOUS_NUCLEOTIDES (upper ch) = Some bases /\
           In (upper o) bases /\ is_canonical (upper o) = true)
      seq out.
Proof.
  intros H. destruct (resolve_spec seq base_probs g H) as (out & g' & E & Hall).
  exists out, g'. split; [exact E|]. split.
  - symmetry. exact (Forall2_length Hall).
  - revert Hall. apply Forall2_impl. intros ch o Hr.
    destruct (resolved_char_cases ch o Hr) as [[_ ->]|(bases & Hb & Hin & Hcan & _)].
    + now left.
    + right. now exists bases.
Qed.

Lemma resolve_keeps_length_and_positions_witness :
  exists out,
    value_of (resolve_ambiguous_sequence (lit "RrA-nYy")
                [("A", 0.5%Q); ("C", 0.25%Q); ("G", 0.25%Q); ("T", 0%Q)]
                (fun n => Z.of_nat n)) = Ok out /\
    length out = 7.
Proof.
  destruct (resolve_keeps_length_and_positions (lit "RrA-nYy")
              [("A", 0.5%Q); ("C", 0.25%Q); ("G", 0.25%Q); ("T", 0%Q)]
              (fun n => Z.of_nat n) eq_refl) as (out & g' & E & Hlen & _).
  exists out. rewrite E. split; [reflexivity | exact Hlen].
Defined.

(** C5.  The table has the ten IUPAC symbols; for a distribution defined on
    the four canonical bases resolution never raises; a character whose
    uppercase form is not one of the symbols is returned unchanged; and the
    replacement of a symbol is a base in the case of the symbol: uppercase
    for an uppercase symbol, lowercase for a lowercase one. *)
Theorem resolve_passes_through_and_keeps_case
    (seq : str) (base_probs : dict (K:=ascii) (V:=Q)) (g : rng) :
  forallb (dict_contains Ascii.eqb base_probs) ACGT = true ->
  dict_keys AMBIGUOUS_NUCLEOTIDES = lit "RYSWKMBDHV" /\
  exists out g',
    resolve_ambiguous_sequence seq base_probs g = Ok (out, g') /\
    Forall2
      (fun ch o =>
         (~ In (upper ch) (dict_keys AMBIGUOUS_NUCLEOTIDES) -> o = ch) /\
         (In (upper ch) (dict_keys AMBIGUOUS_NUCLEOTIDES) ->
          is_canonical (upper o) = true /\
          ((isupper ch = true /\ isupper o = true) \/
           (islower ch = true /\ islower o = true))))
      seq out.
Proof.
  intros H. split; [reflexivity|].
  destruct (resolve_spec seq base_probs g H) as (out & g' & E & Hall).
  exists out, g'. split; [exact E|].
  revert Hall. apply Forall2_impl. intros ch o Hr.
  destruct (resolved_char_cases ch o Hr)
    as [[Hnone ->]|(bases & Hb & _ & Hcan & Hcase)].
  - split; [reflexivity|]. intros Hin.
    apply (dict_get_None Ascii.eqb Ascii.eqb_eq) in Hnone. contradiction.
  - split; [|auto]. intros Hnot.
    apply (dict_get_None Ascii.eqb Ascii.eqb_eq) in Hnot. congruence.
Qed.

Lemma resolve_passes_through_and_keeps_case_witness :
  exists out,
    value_of (resolve_ambiguous_sequence (lit "Ac-N*rB")
                [("A", 0.25%Q); ("C", 0.25%Q); ("G", 0.25%Q); ("T", 0.25%Q)]
                (fun n => (Z.of_nat n * 4503599627370496)%Z)) = Ok out /\
    firstn 5 out = lit "Ac-N*".
Proof.
  destruct (resolve_passes_through_and_keeps_case (lit "Ac-N*rB")
              [("A", 0.25%Q); ("C", 0.25%Q); ("G", 0.25%Q); ("T", 0.25%Q)]
              (fun n => (Z.of_nat n * 4503599627370496)%Z) eq_refl)
    as (_ & out & g' & E & Hall).
  exists out. rewrite E. split; [reflexivity|].
  cbn in E. injection E as <- _. reflexivity.
Defined.

(** Cumulated weights: each step adds one weight, and with non-negative
    weights they do not decrease. *)
Lemma firstn_succ_nth {A} (d : A) (l : list A) :
  forall i, i < length l -> firstn (S i) l = firstn i l ++ [nth i l d].
Proof.
  induction l as [|x l IH]; intros i Hi; [simpl in Hi; lia|].
  destruct i as [|i]; [reflexivity|].
  cbn [firstn nth app]. rewrite <- IH by (simpl in Hi; lia). reflexivity.
Qed.

Lemma sum_Q_firstn_succ (ws : list Q) (i : nat) :
  (sum_Q (firstn (S i) ws) == sum_Q (firstn i ws) + nth i ws 0)%Q.
Proof.
  destruct (Nat.lt_ge_cases i (length ws)) as [Hi|Hi].
  - rewrite (firstn_succ_nth 0%Q) by assumption.
    unfold sum_Q. rewrite fold_left_app. reflexivity.
  - rewrite !firstn_all2, nth_overflow by lia. now rewrite Qplus_0_r.
Qed.

Lemma sum_Q_firstn_mono (ws : list Q) :
  Forall (fun w => (0 <= w)%Q) ws ->
  forall j i, j <= i -> (sum_Q (firstn j ws) <= sum_Q (firstn i ws))%Q.
Proof.
  intros Hpos j i Hle. induction Hle as [|i Hle IH]; [apply Qle_refl|].
  rewrite sum_Q_firstn_succ.
  assert (0 <= nth i ws 0)%Q.
  { destruct (Nat.lt_ge_cases i (length ws)) as [Hi|Hi].
    - rewrite Forall_forall in Hpos. apply Hpos. now apply nth_In.
    - rewrite nth_overflow by lia. apply Qle_refl. }
  lra.
Qed.

(** ** Doubles *)

Lemma pow2_pos (k : Z) : (0 < pow2 k)%Q.
Proof. apply Qpower_0_lt. reflexivity. Qed.

Lemma pow2_add (a b : Z) : (pow2 (a + b) == pow2 a * pow2 b)%Q.
Proof. apply Qpower_plus. discriminate. Qed.

Lemma pow2_le (a b : Z) : (a <= b)%Z -> (pow2 a <= pow2 b)%Q.
Proof. intros H. apply Qpower_le_compat_l; [exact H | discriminate]. Qed.

Lemma pow2_lt (a b : Z) : (a < b)%Z -> (pow2 a < pow2 b)%Q.
Proof. intros H. apply Qpower_lt_compat_l; [exact H | reflexivity]. Qed.

Lemma pow2_lt_inv (a b : Z) : (pow2 a < pow2 b)%Q -> (a < b)%Z.
Proof. intros H. apply (Qpower_lt_compat_l_inv 2); [exact H | reflexivity]. Qed.

Lemma pow2_Z (k : Z) : (0 <= k)%Z -> (pow2 k == inject_Z (2 ^ k))%Q.
Proof. intros H. unfold pow2. now rewrite Zpower_Qpower. Qed.

Lemma pow2_succ (a : Z) : (pow2 (a + 1) == 2 * pow2 a)%Q.
Proof. rewrite pow2_add. change (pow2 1) with 2%Q. ring. Qed.

Lemma pow2_sub (a b : Z) : (pow2 (a - b) == pow2 a / pow2 b)%Q.
Proof. apply Qpower_minus. discriminate. Qed.

Lemma ilog2_spec (x : Q) :
  (0 < x)%Q -> (pow2 (ilog2 x) <= x < pow2 (ilog2 x + 1))%Q.
Proof.
  intros Hx. unfold ilog2.
  destruct x as [n d]. cbn [Qnum Qden].
  assert (Hn : (0 < n)%Z).
  { unfold Qlt in Hx. cbn in Hx. lia. }
  pose proof (Z.log2_spec n Hn) as [Hn1 Hn2].
  pose proof (Z.log2_spec (Zpos d) eq_refl) as [Hd1 Hd2].
  pose proof (Z.log2_nonneg n) as Ha.
  pose proof (Z.log2_nonneg (Zpos d)) as Hb.
  set (a := Z.log2 n) in *. set (b := Z.log2 (Zpos d)) in *.
  assert (HN1 : (pow2 a <= inject_Z n)%Q).
  { rewrite pow2_Z by assumption. now rewrite <- Zle_Qle. }
  assert (HN2 : (inject_Z n < pow2 (a + 1))%Q).
  { rewrite pow2_Z by lia. rewrite <- Zlt_Qlt.
    now replace (a + 1)%Z with (Z.succ a) by lia. }
  assert (HD1 : (pow2 b <= inject_Z (Zpos d))%Q).
  { rewrite pow2_Z by assumption. now rewrite <- Zle_Qle. }
  assert (HD2 : (inject_Z (Zpos d) < pow2 (b + 1))%Q).
  { rewrite pow2_Z by lia. rewrite <- Zlt_Qlt.
    now replace (b + 1)%Z with (Z.succ b) by lia. }
  assert (Hx' : (n # d == inject_Z n / inject_Z (Zpos d))%Q) by apply Qmake_Qdiv.
  assert (HD : (0 < inject_Z (Zpos d))%Q) by reflexivity.
  set (X := (n # d)%Q) in *. set (N := inject_Z n) in *.
  set (D := inject_Z (Zpos d)) in *.
  assert (HXD : (X * D == N)%Q).
  { rewrite Hx'. field. intros H0. rewrite H0 in HD. discriminate. }
  clearbody X N D a b. clear Hx' Hn1 Hn2 Hd1 Hd2 Hn.
  pose proof (pow2_pos (a - b)) as Hp.
  pose proof (pow2_pos b) as Hpb.
  assert (E1 : (pow2 (a - b) * pow2 b == pow2 a)%Q).
  { rewrite <- pow2_add. now replace (a - b + b)%Z with a by lia. }
  assert (E2 : (pow2 (a - b + 1) == 2 * pow2 (a - b))%Q) by apply pow2_succ.
  assert (E3 : (pow2 (a + 1) == 2 * pow2 a)%Q) by apply pow2_succ.
  assert (E4 : (pow2 (b + 1) == 2 * pow2 b)%Q) by apply pow2_succ.
  assert (E5 : (pow2 (a - b - 1 + 1) == pow2 (a - b))%Q).
  { now replace (a - b - 1 + 1)%Z with (a - b)%Z by lia. }
  assert (E6 : (2 * pow2 (a - b - 1) == pow2 (a - b))%Q).
  { rewrite <- pow2_succ. exact E5. }
  set (P := pow2 (a - b)) in *. set (B := pow2 b) in *. set (A := pow2 a) in *.
  set (P' := pow2 (a - b - 1)) in *.
  destruct (Qle_bool P X) eqn:E.
  - apply Qle_bool_iff in E. split; [exact E|].
    rewrite E2. apply Qnot_le_lt. intros Hc.
    assert (2 * P * B <= X * D)%Q.
    { apply Qmult_le_compat_nonneg; split; lra. }
    lra.
  - assert (Hlt : (X < P)%Q).
    { apply Qnot_le_lt. intros Hc. apply Qle_bool_iff in Hc. congruence. }
    split; [|now rewrite E5].
    apply Qnot_lt_le. intros Hc. change (X < P')%Q in Hc.
    assert (0 < P')%Q by (subst P'; apply pow2_pos).
    assert (0 < (P' - X) * D)%Q by (apply Qmult_lt_0_compat; lra).
    assert (0 < P' * (2 * B - D))%Q by (apply Qmult_lt_0_compat; lra).
    assert (P * B == 2 * P' * B)%Q by (rewrite <- E6; ring).
    lra.
Qed.

Lemma ilog2_unique (x : Q) (e : Z) :
  (pow2 e <= x < pow2 (e + 1))%Q -> ilog2 x = e.
Proof.
  intros [H1 H2].
  assert (Hx : (0 < x)%Q) by (pose proof (pow2_pos e); lra).
  destruct (ilog2_spec x Hx) as [H3 H4].
  assert (e < ilog2 x + 1)%Z by (apply pow2_lt_inv; lra).
  assert (ilog2 x < e + 1)%Z by (apply pow2_lt_inv; lra).
  lia.
Qed.

Lemma ilog2_comp (x y : Q) : (0 < x)%Q -> (x == y)%Q -> ilog2 x = ilog2 y.
Proof.
  intros Hx E. symmetry. apply ilog2_unique. rewrite <- E. now apply ilog2_spec.
Qed.

Lemma ilog2_mono (x y : Q) : (0 < x)%Q -> (x <= y)%Q -> (ilog2 x <= ilog2 y)%Z.
Proof.
  intros Hx Hle.
  destruct (ilog2_spec x Hx) as [H1 H2].
  destruct (ilog2_spec y) as [H3 H4]; [lra|].
  assert (ilog2 x < ilog2 y + 1)%Z by (apply pow2_lt_inv; lra). lia.
Qed.

(** *** Rounding to an integer *)

Lemma Qcompare_Eq (x y : Q) : (x ?= y)%Q = Eq -> (x == y)%Q.
Proof. apply Qeq_alt. Qed.

Lemma Qcompare_Lt (x y : Q) : (x ?= y)%Q = Lt -> (x < y)%Q.
Proof. apply Qlt_alt. Qed.

Lemma Qcompare_Gt (x y : Q) : (x ?= y)%Q = Gt -> (y < x)%Q.
Proof. apply Qgt_alt. Qed.

Lemma round_half_even_comp (x y : Q) :
  (x == y)%Q -> round_half_even x = round_half_even y.
Proof.
  intros E. unfold round_half_even. rewrite (Qfloor_comp _ _ E).
  assert (H : (x - inject_Z (Qfloor y) == y - inject_Z (Qfloor y))%Q) by now rewrite E.
  now rewrite (Qcompare_comp _ _ H _ _ (Qeq_refl (1 # 2))).
Qed.

Lemma round_half_even_error (y : Q) :
  (y - (1 # 2) <= inject_Z (round_half_even y) <= y + (1 # 2))%Q.
Proof.
  unfold round_half_even.
  pose proof (Qfloor_le y) as H1. pose proof (Qlt_floor y) as H2.
  rewrite inject_Z_plus in H2. change (inject_Z 1) with 1%Q in H2.
  set (f := Qfloor y) in *.
  destruct (y - inject_Z f ?= 1 # 2)%Q eqn:E.
  - apply Qcompare_Eq in E. destruct (Z.even f);
      [|rewrite inject_Z_plus; change (inject_Z 1) with 1%Q]; lra.
  - apply Qcompare_Lt in E. lra.
  - apply Qcompare_Gt in E. rewrite inject_Z_plus. change (inject_Z 1) with 1%Q. lra.
Qed.

Lemma round_half_even_Z (n : Z) : round_half_even (inject_Z n) = n.
Proof.
  unfold round_half_even. rewrite Qfloor_Z.
  assert (E : (inject_Z n - inject_Z n ?= 1 # 2)%Q = Lt).
  { apply (proj1 (Qlt_alt _ _)). generalize (inject_Z n). intros q. lra. }
  now rewrite E.
Qed.

Lemma round_half_even_mono (x y : Q) :
  (x <= y)%Q -> (round_half_even x <= round_half_even y)%Z.
Proof.
  intros Hle.
  pose proof (Qfloor_resp_le _ _ Hle) as Hf.
  destruct (Z.eq_dec (Qfloor x) (Qfloor y)) as [Heq|Hne].
  - unfold round_half_even. rewrite Heq.
    set (f := Qfloor y) in *.
    destruct (x - inject_Z f ?= 1 # 2)%Q eqn:Ex;
      destruct (y - inject_Z f ?= 1 # 2)%Q eqn:Ey;
      try (destruct (Z.even f)); try lia;
      try apply Qcompare_Eq in Ex; try apply Qcompare_Lt in Ex;
      try apply Qcompare_Gt in Ex;
      try apply Qcompare_Eq in Ey; try apply Qcompare_Lt in Ey;
      try apply Qcompare_Gt in Ey;
      exfalso; lra.
  - assert (Hlt : (Qfloor x + 1 <= Qfloor y)%Z) by lia.
    assert (round_half_even x <= Qfloor x + 1)%Z.
    { unfold round_half_even.
      destruct (x - inject_Z (Qfloor x) ?= 1 # 2)%Q;
        try destruct (Z.even (Qfloor x)); lia. }
    assert (Qfloor y <= round_half_even y)%Z.
    { unfold round_half_even.
      destruct (y - inject_Z (Qfloor y) ?= 1 # 2)%Q;
        try destruct (Z.even (Qfloor y)); lia. }
    lia.
Qed.

Lemma round_half_even_ge (n : Z) (y : Q) :
  (inject_Z n <= y)%Q -> (n <= round_half_even y)%Z.
Proof.
  intros H. rewrite <- (round_half_even_Z n). now apply round_half_even_mono.
Qed.

Lemma round_half_even_le (n : Z) (y : Q) :
  (y <= inject_Z n)%Q -> (round_half_even y <= n)%Z.
Proof.
  intros H. rewrite <- (round_half_even_Z n). now apply round_half_even_mono.
Qed.

(** *** Rounding to a double *)

Lemma Qeq_bool_comp (x y : Q) : (x == y)%Q -> Qeq_bool x 0 = Qeq_bool y 0.
Proof.
  intros E. destruct (Qeq_bool x 0) eqn:Ex, (Qeq_bool y 0) eqn:Ey; try reflexivity.
  - apply Qeq_bool_iff in Ex. rewrite E in Ex. apply Qeq_bool_iff in Ex. congruence.
  - apply Qeq_bool_iff in Ey. rewrite <- E in Ey. apply Qeq_bool_iff in Ey. congruence.
Qed.

Lemma Qabs_pos_lt (x : Q) : ~ (x == 0)%Q -> (0 < Qabs x)%Q.
Proof.
  intros H. destruct (Qlt_le_dec 0 (Qabs x)) as [Hlt|Hle]; [exact Hlt|].
  exfalso. apply H. pose proof (Qabs_nonneg x).
  assert (E : (Qabs x == 0)%Q) by lra.
  revert E. apply Qabs_case; intros; lra.
Qed.

Lemma ulp_exponent_comp (x y : Q) :
  ~ (x == 0)%Q -> (x == y)%Q -> ulp_exponent x = ulp_exponent y.
Proof.
  intros Hx E. unfold ulp_exponent.
  rewrite (ilog2_comp (Qabs x) (Qabs y));
    [reflexivity | now apply Qabs_pos_lt | now rewrite E].
Qed.

Lemma binary64_comp (x y : Q) : (x == y)%Q -> (binary64 x == binary64 y)%Q.
Proof.
  intros E. unfold binary64. rewrite (Qeq_bool_comp x y E).
  destruct (Qeq_bool y 0) eqn:Ey; [reflexivity|].
  assert (Hx : ~ (x == 0)%Q).
  { intros H. rewrite E in H. apply Qeq_bool_iff in H. congruence. }
  rewrite (ulp_exponent_comp x y Hx E).
  rewrite (round_half_even_comp (x / pow2 (ulp_exponent y)) (y / pow2 (ulp_exponent y)));
    [reflexivity | now rewrite E].
Qed.

#[global] Instance binary64_Proper : Proper (Qeq ==> Qeq) binary64.
Proof. intros x y E. now apply binary64_comp. Qed.

Lemma binary64_0 (x : Q) : (x == 0)%Q -> binary64 x = 0%Q.
Proof. intros E. unfold binary64. apply Qeq_bool_iff in E. now rewrite E. Qed.

Lemma binary64_unfold (x : Q) :
  ~ (x == 0)%Q ->
  binary64 x
  = (inject_Z (round_half_even (x / pow2 (ulp_exponent x)))
     * pow2 (ulp_exponent x))%Q.
Proof.
  intros H. unfold binary64. destruct (Qeq_bool x 0) eqn:E; [|reflexivity].
  apply Qeq_bool_iff in E. contradiction.
Qed.

(** The place of the last bit kept: at least [2^-1074], beyond the
    magnitude by 53 bits, and within 52 bits of it for a normal number. *)
Lemma ulp_exponent_spec (x : Q) :
  ~ (x == 0)%Q ->
  (-1074 <= ulp_exponent x)%Z /\
  (Qabs x < pow2 (ulp_exponent x + 53))%Q /\
  (ulp_exponent x = (-1074)%Z \/ (pow2 (ulp_exponent x + 52) <= Qabs x)%Q).
Proof.
  intros H. pose proof (ilog2_spec (Qabs x) (Qabs_pos_lt x H)) as [H1 H2].
  unfold ulp_exponent. set (e := ilog2 (Qabs x)) in *.
  split; [lia|]. split.
  - eapply Qlt_le_trans; [exact H2|]. apply pow2_le. lia.
  - destruct (Z_le_gt_dec (-1022) e) as [He|He].
    + right. replace (Z.max e (-1022) - 52 + 52)%Z with e by lia. exact H1.
    + left. lia.
Qed.

Lemma pow2_half (q : Z) : (pow2 (q - 1) == pow2 q * (1 # 2))%Q.
Proof.
  replace q with (q - 1 + 1)%Z at 2 by lia. rewrite pow2_succ. field.
Qed.

Lemma binary64_near (x : Q) :
  ~ (x == 0)%Q ->
  (Qabs (binary64 x - x) <= pow2 (ulp_exponent x - 1))%Q.
Proof.
  intros H. rewrite (binary64_unfold x H).
  set (q := ulp_exponent x). pose proof (pow2_pos q) as Hq.
  pose proof (round_half_even_error (x / pow2 q)) as [H1 H2].
  set (m := inject_Z (round_half_even (x / pow2 q))) in *. clearbody m.
  assert (E : (x == x / pow2 q * pow2 q)%Q) by (field; lra).
  set (y := (x / pow2 q)%Q) in *. clearbody y.
  rewrite pow2_half. apply Qabs_Qle_condition. rewrite E.
  set (P := pow2 q) in *. clearbody P.
  assert (0 <= (m - (y - (1 # 2))) * P)%Q by (apply Qmult_le_0_compat; lra).
  assert (0 <= (y + (1 # 2) - m) * P)%Q by (apply Qmult_le_0_compat; lra).
  split; lra.
Qed.


Lemma u53_pow2 : (pow2 (-53) == u53)%Q.
Proof. reflexivity. Qed.

Lemma eta_small : (0 < eta)%Q /\ (eta <= u53 * u53 * u53)%Q.
Proof. split; [reflexivity | vm_compute; discriminate]. Qed.

(** The error of one rounding: relative [2^-53], or absolute [2^-1075]
    below the normal range. *)
Lemma binary64_error (x : Q) :
  (Qabs (binary64 x - x) <= u53 * Qabs x + eta)%Q.
Proof.
  destruct (Qeq_dec x 0) as [E|H].
  - rewrite (binary64_0 x E), E. vm_compute. discriminate.
  - pose proof (binary64_near x H) as Hn.
    destruct (ulp_exponent_spec x H) as (Hq & _ & [Hs|Hs]).
    + rewrite Hs in Hn. change (pow2 (-1074 - 1)) with eta in Hn.
      assert (0 <= u53 * Qabs x)%Q.
      { apply Qmult_le_0_compat; [vm_compute; discriminate | apply Qabs_nonneg]. }
      lra.
    + assert (E : (pow2 (ulp_exponent x - 1) == u53 * pow2 (ulp_exponent x + 52))%Q).
      { rewrite <- u53_pow2, <- pow2_add. now replace (-53 + (ulp_exponent x + 52))%Z
          with (ulp_exponent x - 1)%Z by lia. }
      assert (u53 * pow2 (ulp_exponent x + 52) <= u53 * Qabs x)%Q.
      { apply Qmult_le_l; [reflexivity | exact Hs]. }
      assert (0 < eta)%Q by reflexivity.
      lra.
Qed.

(** In the normal range the error is relative. *)
Lemma binary64_error_normal (x : Q) :
  (pow2 (-1022) <= Qabs x)%Q ->
  (Qabs (binary64 x - x) <= u53 * Qabs x)%Q.
Proof.
  intros Hx.
  assert (H : ~ (x == 0)%Q).
  { intros E. rewrite E in Hx. revert Hx. vm_compute. intros Hx. now apply Hx. }
  pose proof (binary64_near x H) as Hn.
  pose proof (ilog2_spec (Qabs x) (Qabs_pos_lt x H)) as [H1 H2].
  assert (He : (-1022 <= ilog2 (Qabs x))%Z).
  { assert (-1022 < ilog2 (Qabs x) + 1)%Z by (apply pow2_lt_inv; lra). lia. }
  unfold ulp_exponent in Hn. rewrite Z.max_l in Hn by exact He.
  assert (E : (pow2 (ilog2 (Qabs x) - 52 - 1) == u53 * pow2 (ilog2 (Qabs x)))%Q).
  { rewrite <- u53_pow2, <- pow2_add. now replace (-53 + ilog2 (Qabs x))%Z
      with (ilog2 (Qabs x) - 52 - 1)%Z by lia. }
  assert (u53 * pow2 (ilog2 (Qabs x)) <= u53 * Qabs x)%Q.
  { apply Qmult_le_l; [reflexivity | exact H1]. }
  lra.
Qed.

Lemma binary64_nonneg (x : Q) : (0 <= x)%Q -> (0 <= binary64 x)%Q.
Proof.
  intros Hx. destruct (Qeq_dec x 0) as [E|H].
  - rewrite (binary64_0 x E). apply Qle_refl.
  - rewrite (binary64_unfold x H). pose proof (pow2_pos (ulp_exponent x)) as Hq.
    apply Qmult_le_0_compat; [|lra].
    change 0%Q with (inject_Z 0). rewrite <- Zle_Qle.
    apply round_half_even_ge. change (inject_Z 0) with 0%Q.
    apply Qle_shift_div_l; [exact Hq | lra].
Qed.

(** A multiple of [2^q] of at most 53 bits, [q >= -1074], is a double. *)
Lemma binary64_fixed_lt (m q : Z) :
  (-1074 <= q)%Z -> (Z.abs m < 2 ^ 53)%Z ->
  (binary64 (inject_Z m * pow2 q) == inject_Z m * pow2 q)%Q.
Proof.
  intros Hq Hm. set (v := (inject_Z m * pow2 q)%Q).
  pose proof (pow2_pos q) as Hpq.
  destruct (Qeq_dec v 0) as [E|H].
  - rewrite (binary64_0 v E). now rewrite E.
  - rewrite (binary64_unfold v H).
    destruct (ulp_exponent_spec v H) as (Hq' & Hlt & _).
    pose proof (ilog2_spec (Qabs v) (Qabs_pos_lt v H)) as [H1 H2].
    assert (Habs : (Qabs v == inject_Z (Z.abs m) * pow2 q)%Q).
    { unfold v. rewrite Qabs_Qmult, (Qabs_pos (pow2 q)) by lra.
      unfold Qabs, inject_Z. cbn. reflexivity. }
    assert (Hv : (Qabs v < pow2 (q + 53))%Q).
    { rewrite Habs, pow2_add, Qmult_comm.
      apply Qmult_lt_l; [exact Hpq|].
      rewrite pow2_Z by lia. now rewrite <- Zlt_Qlt. }
    assert (He : (ilog2 (Qabs v) < q + 53)%Z) by (apply pow2_lt_inv; lra).
    assert (Hle : (ulp_exponent v <= q)%Z) by (unfold ulp_exponent; lia).
    set (q' := ulp_exponent v) in *.
    assert (E : (v / pow2 q' == inject_Z (m * 2 ^ (q - q')))%Q).
    { unfold v. rewrite inject_Z_mult, <- pow2_Z by lia. rewrite pow2_sub.
      pose proof (pow2_pos q'). field. lra. }
    rewrite (round_half_even_comp _ _ E), round_half_even_Z.
    rewrite inject_Z_mult, <- pow2_Z by lia. rewrite pow2_sub. unfold v.
    pose proof (pow2_pos q'). field. lra.
Qed.

Lemma binary64_fixed (m q : Z) :
  (-1074 <= q)%Z -> (Z.abs m <= 2 ^ 53)%Z ->
  (binary64 (inject_Z m * pow2 q) == inject_Z m * pow2 q)%Q.
Proof.
  intros Hq Hm.
  destruct (Z_lt_le_dec (Z.abs m) (2 ^ 53)) as [Hlt|Hge];
    [now apply binary64_fixed_lt|].
  assert (Em : (inject_Z m * pow2 q == inject_Z (m / 2) * pow2 (q + 1))%Q).
  { rewrite pow2_succ.
    assert (m = 2 ^ 53 \/ m = - 2 ^ 53)%Z as [-> | ->] by lia;
      vm_compute Z.div; vm_compute Z.pow; unfold inject_Z; ring_simplify;
      reflexivity. }
  rewrite Em. apply binary64_fixed_lt; [lia|].
  assert (m = 2 ^ 53 \/ m = - 2 ^ 53)%Z as [-> | ->] by lia; vm_compute; reflexivity.
Qed.

Lemma binary64_integer_part (x : Q) :
  ~ (x == 0)%Q ->
  (Z.abs (round_half_even (x / pow2 (ulp_exponent x))) <= 2 ^ 53)%Z.
Proof.
  intros H. destruct (ulp_exponent_spec x H) as (Hq & Hlt & _).
  set (q := ulp_exponent x) in *. pose proof (pow2_pos q) as Hpq.
  rewrite pow2_add in Hlt. rewrite (pow2_Z 53) in Hlt by lia.
  assert (Hb : (- inject_Z (2 ^ 53) <= x / pow2 q <= inject_Z (2 ^ 53))%Q).
  { revert Hlt. apply Qabs_case; intros Hs Hlt; split.
    - apply Qle_shift_div_l; [exact Hpq|].
      assert (0 <= inject_Z (2 ^ 53) * pow2 q)%Q
        by (apply Qmult_le_0_compat; [discriminate | lra]). lra.
    - apply Qle_shift_div_r; [exact Hpq | lra].
    - apply Qle_shift_div_l; [exact Hpq | lra].
    - apply Qle_shift_div_r; [exact Hpq|].
      assert (0 <= inject_Z (2 ^ 53) * pow2 q)%Q
        by (apply Qmult_le_0_compat; [discriminate | lra]). lra. }
  destruct Hb as [Hb1 Hb2].
  apply round_half_even_le in Hb2.
  change (- inject_Z (2 ^ 53))%Q with (inject_Z (- 2 ^ 53)) in Hb1.
  apply round_half_even_ge in Hb1. lia.
Qed.

(** Rounding again changes nothing. *)
Lemma binary64_idem (x : Q) : (binary64 (binary64 x) == binary64 x)%Q.
Proof.
  destruct (Qeq_dec x 0) as [E|H].
  - rewrite (binary64_0 x E). reflexivity.
  - rewrite (binary64_unfold x H). apply binary64_fixed.
    + now destruct (ulp_exponent_spec x H).
    + now apply binary64_integer_part.
Qed.

(** Every double is a multiple of [2^-1074]. *)
Lemma binary64_grid (x : Q) :
  (binary64 x == x)%Q -> exists n : Z, (x == inject_Z n * pow2 (-1074))%Q.
Proof.
  intros E. destruct (Qeq_dec x 0) as [E0|H].
  - exists 0%Z. rewrite E0. reflexivity.
  - rewrite (binary64_unfold x H) in E.
    destruct (ulp_exponent_spec x H) as (Hq & _).
    set (q := ulp_exponent x) in *.
    exists (round_half_even (x / pow2 q) * 2 ^ (q + 1074))%Z.
    rewrite <- E at 1. rewrite inject_Z_mult, <- pow2_Z by lia.
    rewrite <- Qmult_assoc, <- pow2_add.
    now replace (q + 1074 + -1074)%Z with q by lia.
Qed.

(** Rounding keeps the order of non-negative numbers. *)
Lemma binary64_mono (x y : Q) :
  (0 <= x)%Q -> (x <= y)%Q -> (binary64 x <= binary64 y)%Q.
Proof.
  intros Hx Hle. destruct (Qeq_dec x 0) as [E|H].
  - rewrite (binary64_0 x E). apply binary64_nonneg. lra.
  - assert (Hy : ~ (y == 0)%Q) by (intros E; apply H; lra).
    rewrite (binary64_unfold x H), (binary64_unfold y Hy).
    destruct (ulp_exponent_spec x H) as (Hqx & Hltx & _).
    destruct (ulp_exponent_spec y Hy) as (Hqy & _ & Hy2).
    rewrite Qabs_pos in Hltx by exact Hx.
    rewrite Qabs_pos in Hy2 by lra.
    assert (Hq : (ulp_exponent x <= ulp_exponent y)%Z).
    { unfold ulp_exponent.
      assert (ilog2 (Qabs x) <= ilog2 (Qabs y))%Z; [|lia].
      apply ilog2_mono; [now apply Qabs_pos_lt|].
      rewrite !Qabs_pos by lra. exact Hle. }
    set (qx := ulp_exponent x) in *. set (qy := ulp_exponent y) in *.
    pose proof (pow2_pos qx) as Hpx. pose proof (pow2_pos qy) as Hpy.
    destruct (Z.eq_dec qx qy) as [Eq|Hne].
    + rewrite Eq. apply Qmult_le_compat_r; [|lra].
      rewrite <- Zle_Qle. apply round_half_even_mono.
      apply Qmult_le_compat_r; [exact Hle|].
      apply Qlt_le_weak, Qinv_lt_0_compat, Hpy.
    + destruct Hy2 as [Hy2|Hy2]; [lia|].
      apply Qle_trans with (pow2 (qx + 53)).
      * rewrite (pow2_add qx 53), Qmult_comm.
        apply Qmult_le_l; [exact Hpx|].
        rewrite (pow2_Z 53) by lia. rewrite <- Zle_Qle.
        apply round_half_even_le. rewrite <- (pow2_Z 53) by lia.
        apply Qle_shift_div_r; [exact Hpx|].
        rewrite <- pow2_add. replace (53 + qx)%Z with (qx + 53)%Z by lia. lra.
      * apply Qle_trans with (pow2 (qy + 52)); [apply pow2_le; lia|].
        rewrite (pow2_add qy 52), Qmult_comm.
        apply Qmult_le_compat_r; [|lra].
        rewrite (pow2_Z 52) by lia. rewrite <- Zle_Qle.
        apply round_half_even_ge. rewrite <- (pow2_Z 52) by lia.
        apply Qle_shift_div_l; [exact Hpy|].
        rewrite <- pow2_add. replace (52 + qy)%Z with (qy + 52)%Z by lia. lra.
Qed.


Lemma is_double_binary64 (x : Q) : is_double (binary64 x).
Proof. apply binary64_idem. Qed.

Lemma is_double_on_grid (x : Q) : is_double x -> on_grid x.
Proof. apply binary64_grid. Qed.

Lemma on_grid_comp (x y : Q) : (x == y)%Q -> on_grid x -> on_grid y.
Proof. intros E [n H]. exists n. now rewrite <- E. Qed.

Lemma on_grid_add (x y : Q) : on_grid x -> on_grid y -> on_grid (x + y).
Proof.
  intros [n Hn] [m Hm]. exists (n + m)%Z. rewrite Hn, Hm, inject_Z_plus. ring.
Qed.

Lemma on_grid_sub (x y : Q) : on_grid x -> on_grid y -> on_grid (x - y).
Proof.
  intros [n Hn] [m Hm]. exists (n - m)%Z. rewrite Hn, Hm.
  unfold Z.sub. rewrite inject_Z_plus, inject_Z_opp. ring.
Qed.

Lemma on_grid_0 : on_grid 0.
Proof. exists 0%Z. reflexivity. Qed.

(** Rounding a number of the grid of the doubles makes a relative error
    only: below the normal range it is a double already. *)
Lemma binary64_error_grid (x : Q) :
  on_grid x -> (Qabs (binary64 x - x) <= u53 * Qabs x)%Q.
Proof.
  intros [n Hn].
  destruct (Qlt_le_dec (Qabs x) (pow2 (-1022))) as [Hlt|Hge];
    [|now apply binary64_error_normal].
  assert (E : (binary64 x == x)%Q).
  { rewrite Hn. apply binary64_fixed; [lia|].
    assert (Habs : (Qabs x == inject_Z (Z.abs n) * pow2 (-1074))%Q).
    { rewrite Hn, Qabs_Qmult, (Qabs_pos (pow2 (-1074))) by discriminate.
      unfold Qabs, inject_Z. cbn. reflexivity. }
    rewrite Habs in Hlt.
    assert (H52 : (pow2 (-1022) == inject_Z (2 ^ 52) * pow2 (-1074))%Q) by reflexivity.
    rewrite H52 in Hlt.
    apply Qmult_lt_r in Hlt; [|reflexivity].
    rewrite <- Zlt_Qlt in Hlt. lia. }
  assert (E0 : (binary64 x - x == 0)%Q) by (rewrite E; ring).
  rewrite E0. change (Qabs 0) with 0%Q.
  apply Qmult_le_0_compat; [discriminate | apply Qabs_nonneg].
Qed.

(** The same with a bound on the magnitude, as two inequalities. *)
Lemma round_grid (x m : Q) :
  on_grid x -> (- m <= x <= m)%Q ->
  (x - u53 * m <= binary64 x <= x + u53 * m)%Q.
Proof.
  intros Hg Hm. pose proof (binary64_error_grid x Hg) as He.
  assert (Ha : (Qabs x <= m)%Q) by now apply Qabs_Qle_condition.
  assert (Hb : (u53 * Qabs x <= u53 * m)%Q).
  { apply Qmult_le_l; [reflexivity | exact Ha]. }
  apply Qabs_Qle_condition in He. lra.
Qed.

(** Any number: relative error [2^-53] plus absolute error [2^-1075]. *)
Lemma round_any (x m : Q) :
  (- m <= x <= m)%Q ->
  (x - u53 * m - eta <= binary64 x <= x + u53 * m + eta)%Q.
Proof.
  intros Hm. pose proof (binary64_error x) as He.
  assert (Ha : (Qabs x <= m)%Q) by now apply Qabs_Qle_condition.
  assert (Hb : (u53 * Qabs x <= u53 * m)%Q).
  { apply Qmult_le_l; [reflexivity | exact Ha]. }
  apply Qabs_Qle_condition in He. lra.
Qed.

Lemma sum_left_to_right_accurate : accurate_sum sum_left_to_right.
Proof.
  intros ws Hlen Hall. apply Qabs_Qle_condition.
  destruct ws as [|a [|b [|c [|]]]]; try (cbn in Hlen; lia);
    unfold sum_left_to_right, sum_Q, fadd; cbn [fold_left].
  - unfold kappa. split; lra.
  - inversion Hall as [|? ? [Ha Da] _]; subst.
    assert (E : (binary64 (0 + a) == a)%Q) by (rewrite Qplus_0_l; exact Da).
    rewrite E. unfold kappa. split; lra.
  - inversion Hall as [|? ? [Ha Da] Hall']; subst.
    inversion Hall' as [|? ? [Hb Db] _]; subst.
    assert (E : (binary64 (0 + a) == a)%Q) by (rewrite Qplus_0_l; exact Da).
    rewrite E.
    assert (Hg : on_grid (a + b))
      by (apply on_grid_add; now apply is_double_on_grid).
    pose proof (round_grid (a + b) (a + b) Hg ltac:(split; lra)) as H1.
    unfold kappa, u53 in *. split; lra.
  - inversion Hall as [|? ? [Ha Da] Hall']; subst.
    inversion Hall' as [|? ? [Hb Db] Hall'']; subst.
    inversion Hall'' as [|? ? [Hc Dc] _]; subst.
    assert (E : (binary64 (0 + a) == a)%Q) by (rewrite Qplus_0_l; exact Da).
    rewrite E.
    assert (Hg : on_grid (a + b))
      by (apply on_grid_add; now apply is_double_on_grid).
    pose proof (round_grid (a + b) (a + b) Hg ltac:(split; lra)) as H1.
    set (s1 := binary64 (a + b)) in *.
    assert (Hg2 : on_grid (s1 + c)).
    { apply on_grid_add; apply is_double_on_grid;
        [apply is_double_binary64 | exact Dc]. }
    assert (Hs1 : (0 <= s1)%Q) by (apply binary64_nonneg; lra).
    pose proof (round_grid (s1 + c) (s1 + c) Hg2 ltac:(split; lra)) as H2.
    clearbody s1. unfold kappa, u53 in *. split; lra.
Qed.

Lemma on_grid_binary64 (x : Q) : on_grid (binary64 x).
Proof. apply is_double_on_grid, is_double_binary64. Qed.

(** One step of the compensated sum: the running sum and the part of it
    that the rounding lost. *)
Lemma compensated_step (f x : Q) :
  (0 <= f)%Q -> (0 <= x)%Q -> on_grid f -> on_grid x ->
  let t := fadd f x in
  let lost :=
    if Qle_bool (Qabs x) (Qabs f) then fadd (fsub f t) x
    else fadd (fsub x t) f in
  (f + x - u53 * (f + x) <= t <= f + x + u53 * (f + x))%Q /\
  (- (4 * u53 * (f + x)) <= lost <= 4 * u53 * (f + x))%Q.
Proof.
  intros Hf Hx Gf Gx t lost.
  assert (Gt : on_grid t) by apply on_grid_binary64.
  pose proof (round_grid (f + x) (f + x) (on_grid_add _ _ Gf Gx)
                ltac:(split; lra)) as Ht.
  fold (fadd f x) in Ht. fold t in Ht.
  split; [exact Ht|]. subst lost. clearbody t.
  destruct (Qle_bool (Qabs x) (Qabs f)); unfold fadd, fsub.
  - assert (H1 : (- (2 * (f + x)) <= f - t <= 2 * (f + x))%Q)
      by (unfold u53 in *; split; lra).
    pose proof (round_grid (f - t) (2 * (f + x)) (on_grid_sub _ _ Gf Gt) H1) as Hr.
    set (r := binary64 (f - t)) in *.
    assert (Gr : on_grid r) by apply on_grid_binary64.
    clearbody r.
    assert (H2 : (- (3 * u53 * (f + x)) <= r + x <= 3 * u53 * (f + x))%Q)
      by (unfold u53 in *; split; lra).
    pose proof (round_grid (r + x) (3 * u53 * (f + x)) (on_grid_add _ _ Gr Gx) H2) as Hl.
    unfold u53 in *. split; lra.
  - assert (H1 : (- (2 * (f + x)) <= x - t <= 2 * (f + x))%Q)
      by (unfold u53 in *; split; lra).
    pose proof (round_grid (x - t) (2 * (f + x)) (on_grid_sub _ _ Gx Gt) H1) as Hr.
    set (r := binary64 (x - t)) in *.
    assert (Gr : on_grid r) by apply on_grid_binary64.
    clearbody r.
    assert (H2 : (- (3 * u53 * (f + x)) <= r + f <= 3 * u53 * (f + x))%Q)
      by (unfold u53 in *; split; lra).
    pose proof (round_grid (r + f) (3 * u53 * (f + x)) (on_grid_add _ _ Gr Gf) H2) as Hl.
    unfold u53 in *. split; lra.
Qed.

Lemma sum_compensated_accurate : accurate_sum sum_compensated.
Proof.
  intros ws Hlen Hall. apply Qabs_Qle_condition.
  destruct ws as [|a [|b [|c [|]]]]; try (cbn in Hlen; lia);
    unfold sum_compensated, sum_Q; cbn [fold_left sum_compensated_from].
  - unfold kappa. split; lra.
  - inversion Hall as [|? ? [Ha Da] _]; subst.
    assert (E : (fadd 0 a == a)%Q) by (unfold fadd; rewrite Qplus_0_l; exact Da).
    change (Qeq_bool 0 0) with true. cbv iota. rewrite E. unfold kappa. split; lra.
  - inversion Hall as [|? ? [Ha Da] Hall']; subst.
    inversion Hall' as [|? ? [Hb Db] _]; subst.
    assert (E : (fadd 0 a == a)%Q) by (unfold fadd; rewrite Qplus_0_l; exact Da).
    assert (Hf : (0 <= fadd 0 a)%Q) by (rewrite E; exact Ha).
    assert (Gf : on_grid (fadd 0 a)) by apply on_grid_binary64.
    destruct (compensated_step (fadd 0 a) b Hf Hb Gf (is_double_on_grid b Db))
      as [Ht Hl].
    set (f := fadd 0 a) in *.
    set (t := fadd f b) in *.
    set (lost := if Qle_bool (Qabs b) (Qabs f) then fadd (fsub f t) b
                 else fadd (fsub b t) f) in *.
    assert (Gt : on_grid t) by apply on_grid_binary64.
    assert (Gl : on_grid lost).
    { subst lost. destruct (Qle_bool (Qabs b) (Qabs f)); apply on_grid_binary64. }
    clearbody lost t f.
    assert (Hc : (- (4 * u53 * (f + b)) <= 0 + lost <= 4 * u53 * (f + b))%Q)
      by (split; lra).
    pose proof (round_grid (0 + lost) (4 * u53 * (f + b))
                  (on_grid_add _ _ on_grid_0 Gl) Hc) as Hc1.
    fold (fadd 0 lost) in Hc1. set (c1 := fadd 0 lost) in *.
    assert (Gc : on_grid c1) by apply on_grid_binary64.
    clearbody c1.
    destruct (Qeq_bool c1 0).
    + unfold kappa, u53 in *. split; lra.
    + assert (Hm : (- (2 * (f + b)) <= t + c1 <= 2 * (f + b))%Q)
        by (unfold u53 in *; split; lra).
      pose proof (round_grid (t + c1) (2 * (f + b)) (on_grid_add _ _ Gt Gc) Hm) as Hr.
      unfold fadd. unfold kappa, u53 in *. split; lra.
  - inversion Hall as [|? ? [Ha Da] Hall']; subst.
    inversion Hall' as [|? ? [Hb Db] Hall'']; subst.
    inversion Hall'' as [|? ? [Hc Dc] _]; subst.
    assert (E : (fadd 0 a == a)%Q) by (unfold fadd; rewrite Qplus_0_l; exact Da).
    assert (Hf : (0 <= fadd 0 a)%Q) by (rewrite E; exact Ha).
    assert (Gf : on_grid (fadd 0 a)) by apply on_grid_binary64.
    destruct (compensated_step (fadd 0 a) b Hf Hb Gf (is_double_on_grid b Db))
      as [Ht Hl].
    set (f := fadd 0 a) in *.
    set (t := fadd f b) in *.
    set (lost := if Qle_bool (Qabs b) (Qabs f) then fadd (fsub f t) b
                 else fadd (fsub b t) f) in *.
    assert (Gt : on_grid t) by apply on_grid_binary64.
    assert (Gl : on_grid lost).
    { subst lost. destruct (Qle_bool (Qabs b) (Qabs f)); apply on_grid_binary64. }
    assert (Ht0 : (0 <= t)%Q) by (apply binary64_nonneg; lra).
    clearbody lost t f.
    assert (Hc1 : (- (4 * u53 * (f + b)) <= 0 + lost <= 4 * u53 * (f + b))%Q)
      by (split; lra).
    pose proof (round_grid (0 + lost) (4 * u53 * (f + b))
                  (on_grid_add _ _ on_grid_0 Gl) Hc1) as Hc1'.
    fold (fadd 0 lost) in Hc1'. set (c1 := fadd 0 lost) in *.
    assert (Gc : on_grid c1) by apply on_grid_binary64.
    clearbody c1.
    destruct (compensated_step t c Ht0 Hc Gt (is_double_on_grid c Dc)) as [Ht2 Hl2].
    set (t2 := fadd t c) in *.
    set (lost2 := if Qle_bool (Qabs c) (Qabs t) then fadd (fsub t t2) c
                  else fadd (fsub c t2) t) in *.
    assert (Gt2 : on_grid t2) by apply on_grid_binary64.
    assert (Gl2 : on_grid lost2).
    { subst lost2. destruct (Qle_bool (Qabs c) (Qabs t)); apply on_grid_binary64. }
    clearbody lost2 t2.
    assert (Hc2 : (- (10 * u53 * (f + b + c)) <= c1 + lost2
                   <= 10 * u53 * (f + b + c))%Q)
      by (unfold u53 in *; split; lra).
    pose proof (round_grid (c1 + lost2) (10 * u53 * (f + b + c))
                  (on_grid_add _ _ Gc Gl2) Hc2) as Hc2'.
    fold (fadd c1 lost2) in Hc2'. set (c2 := fadd c1 lost2) in *.
    assert (Gc2 : on_grid c2) by apply on_grid_binary64.
    clearbody c2.
    destruct (Qeq_bool c2 0).
    + unfold kappa, u53 in *. split; lra.
    + assert (Hm : (- (2 * (f + b + c)) <= t2 + c2 <= 2 * (f + b + c))%Q)
        by (unfold u53 in *; split; lra).
      pose proof (round_grid (t2 + c2) (2 * (f + b + c))
                    (on_grid_add _ _ Gt2 Gc2) Hm) as Hr.
      unfold fadd. unfold kappa, u53 in *. split; lra.
Qed.

(** ** Weighted choice on doubles *)

Lemma random_range (g : rng) : (0 <= fst (random g) <= 1 - u53)%Q.
Proof.
  change (fst (random g)) with (Qmake (g O mod 2 ^ 53) (2 ^ 53)).
  pose proof (Z.mod_pos_bound (g O) (2 ^ 53) eq_refl) as [Hlo Hhi].
  set (r := (g O mod 2 ^ 53)%Z) in *. clearbody r.
  assert (E : (r # 2 ^ 53 == inject_Z r * u53)%Q).
  { unfold Qeq, Qmult, inject_Z, u53. cbn. lia. }
  setoid_rewrite E.
  assert (H0 : (0 <= inject_Z r)%Q) by (change 0%Q with (inject_Z 0); now rewrite <- Zle_Qle).
  assert (H1 : (inject_Z r <= inject_Z (2 ^ 53 - 1))%Q) by (rewrite <- Zle_Qle; lia).
  change (inject_Z (2 ^ 53 - 1)) with (9007199254740991 # 1)%Q in H1.
  unfold u53. split; lra.
Qed.

Lemma fadd_0_r (c : Q) : is_double c -> (fadd c 0 == c)%Q.
Proof. intros H. unfold fadd, is_double in *. now rewrite Qplus_0_r. Qed.

Lemma fadd_zero_weight (c w : Q) :
  is_double c -> (0 <= w)%Q -> (w <= 0)%Q -> (fadd c w == c)%Q.
Proof.
  intros H H0 H1. unfold fadd, is_double in *.
  assert (E : (c + w == c)%Q) by lra. now rewrite E.
Qed.

Lemma fadd_increases (c w : Q) :
  is_double c -> (0 <= c)%Q -> (0 <= w)%Q -> (c <= fadd c w)%Q.
Proof.
  intros H Hc Hw. unfold fadd, is_double in *.
  apply Qle_trans with (binary64 c); [rewrite H; apply Qle_refl|].
  apply binary64_mono; lra.
Qed.

Section FloatChoices.
Context {A : Type}.
Variable g : rng.

Lemma float_choices_two (b1 b2 : A) (w1 w2 : Q) :
  let total := fadd (fadd w1 w2) 0 in
  Qle_bool total 0 = false ->
  Float64.choices [b1; b2] [w1; w2] g =
  Ok (if Qltb (fmul (fst (random g)) total) w1 then b1 else b2, snd (random g)).
Proof.
  intros total Hpos. unfold Float64.choices.
  cbn [length Float64.accumulate Float64.accumulate_from rev app Nat.eqb negb].
  fold total. rewrite Hpos.
  unfold bisect. cbn.
  repeat match goal with
         | |- context [Qltb ?x ?y] => destruct (Qltb x y)
         end; reflexivity.
Qed.

Lemma float_choices_three (b1 b2 b3 : A) (w1 w2 w3 : Q) :
  let total := fadd (fadd (fadd w1 w2) w3) 0 in
  Qle_bool total 0 = false ->
  Float64.choices [b1; b2; b3] [w1; w2; w3] g =
  Ok (if Qltb (fmul (fst (random g)) total) (fadd w1 w2)
      then if Qltb (fmul (fst (random g)) total) w1 then b1 else b2
      else b3, snd (random g)).
Proof.
  intros total Hpos. unfold Float64.choices.
  cbn [length Float64.accumulate Float64.accumulate_from rev app Nat.eqb negb].
  fold total. rewrite Hpos.
  unfold bisect. cbn.
  repeat match goal with
         | |- context [Qltb ?x ?y] => destruct (Qltb x y)
         end; reflexivity.
Qed.
End FloatChoices.

(** The scaled draw, rounded: below the total, and close to the draw when
    the total is close to 1. *)
Lemma scaled_draw (U T b : Q) :
  (0 <= U <= 1 - u53)%Q -> is_double T -> (0 <= b <= 1 # 2)%Q ->
  (1 - b <= T <= 1 + b)%Q ->
  (0 <= fmul U T < T)%Q /\
  (U - b - 3 * u53 <= fmul U T <= U + b + 3 * u53)%Q.
Proof.
  intros HU HT Hb Hclose. unfold fmul.
  assert (Hz0 : (0 <= U * T)%Q) by (apply Qmult_le_0_compat; lra).
  assert (Hz1 : (U * T <= (1 - u53) * T)%Q).
  { apply Qmult_le_compat_r; lra. }
  assert (Hz2 : (U * T - U <= b)%Q).
  { assert (0 <= U * (1 + b - T))%Q by (apply Qmult_le_0_compat; lra).
    assert (0 <= (1 - U) * b)%Q by (apply Qmult_le_0_compat; unfold u53 in *; lra).
    lra. }
  assert (Hz3 : (- b <= U * T - U)%Q).
  { assert (0 <= U * (T - (1 - b)))%Q by (apply Qmult_le_0_compat; lra).
    assert (0 <= (1 - U) * b)%Q by (apply Qmult_le_0_compat; unfold u53 in *; lra).
    lra. }
  pose proof (round_any (U * T) (U * T) ltac:(split; lra)) as Hx.
  pose proof (binary64_nonneg (U * T) Hz0) as Hx0.
  destruct eta_small as [He0 He1].
  set (x := binary64 (U * T)) in *. set (Z := (U * T)%Q) in *.
  clearbody x Z. unfold u53 in *.
  assert (He2 : (eta <= 1 # 1000000000000000000000000000000000000000000000)%Q).
  { eapply Qle_trans; [exact He1|]. vm_compute. discriminate. }
  split; split; lra.
Qed.

(** ** Weights on doubles *)

(** The renormalised weight as the code computes it, against the exact
    quotient: the sum is accurate to [kappa], the division to one rounding. *)
Lemma weight_close (p s total : Q) :
  (0 <= p <= total)%Q -> (0 < total)%Q ->
  (total - kappa * total <= s <= total + kappa * total)%Q ->
  is_double (fdiv p s) /\ (0 <= fdiv p s)%Q /\
  (p / total - (2 * kappa + 3 * u53) <= fdiv p s
   <= p / total + (2 * kappa + 3 * u53))%Q /\
  ((p <= 0)%Q -> (fdiv p s == 0)%Q).
Proof.
  intros Hp Ht Hs.
  assert (Hs0 : (0 < s)%Q) by (unfold kappa in *; lra).
  split; [apply is_double_binary64|]. unfold fdiv.
  set (r := (p / s)%Q). set (P := (p / total)%Q).
  assert (Hr : (r * s == p)%Q) by (unfold r; field; lra).
  assert (HP : (P * total == p)%Q) by (unfold P; field; lra).
  assert (Hr0 : (0 <= r)%Q).
  { unfold r. apply Qle_shift_div_l; [exact Hs0 | lra]. }
  assert (HP0 : (0 <= P)%Q).
  { unfold P. apply Qle_shift_div_l; [exact Ht | lra]. }
  assert (HP1 : (P <= 1)%Q).
  { unfold P. apply Qle_shift_div_r; [exact Ht | lra]. }
  assert (Hzero : (p <= 0)%Q -> (r == 0)%Q).
  { intros H0. unfold r. assert (E : (p == 0)%Q) by lra. rewrite E. field. lra. }
  assert (H1 : (r * (1 - kappa) <= P)%Q).
  { assert (0 <= r * (s - (total - kappa * total)))%Q
      by (apply Qmult_le_0_compat; lra).
    assert (Hc : ((r * (1 - kappa) - P) * total <= 0)%Q) by lra.
    apply Qnot_lt_le. intros Hlt.
    assert (0 < (r * (1 - kappa) - P) * total)%Q
      by (apply Qmult_lt_0_compat; lra).
    lra. }
  assert (H2 : (P <= r * (1 + kappa))%Q).
  { assert (0 <= r * (total + kappa * total - s))%Q
      by (apply Qmult_le_0_compat; lra).
    assert (Hc : ((P - r * (1 + kappa)) * total <= 0)%Q) by lra.
    apply Qnot_lt_le. intros Hlt.
    assert (0 < (P - r * (1 + kappa)) * total)%Q
      by (apply Qmult_lt_0_compat; lra).
    lra. }
  pose proof (binary64_nonneg r Hr0) as Hw0.
  pose proof (round_any r r ltac:(split; lra)) as Hw.
  destruct eta_small as [He0 He1].
  assert (He2 : (eta <= u53)%Q).
  { eapply Qle_trans; [exact He1|]. vm_compute. discriminate. }
  split; [exact Hw0|]. split.
  - clearbody r P. set (w := binary64 r) in *. clearbody w.
    unfold kappa, u53 in *. split; lra.
  - intros H0. rewrite (Hzero H0). reflexivity.
Qed.

Lemma uniform_close (n : nat) :
  n = 2 \/ n = 3 ->
  let w := fdiv 1 (inject_Z (Z.of_nat n)) in
  is_double w /\ (0 < w)%Q /\
  (truediv 1 (Z.of_nat n) - (2 * kappa + 3 * u53) <= w
   <= truediv 1 (Z.of_nat n) + (2 * kappa + 3 * u53))%Q.
Proof.
  intros [-> | ->]; (split; [apply is_double_binary64|]);
    (split; [reflexivity|]); split; vm_compute; discriminate.
Qed.

(** ** The candidate drawn *)

(** Two candidates: the interval of cumulated weights that holds the scaled
    draw, and how far its ends are from the exact cumulated shares. *)
Lemma interval_two (w1 w2 P1 P2 U : Q) :
  is_double w1 -> is_double w2 -> (0 <= w1)%Q -> (0 <= w2)%Q ->
  (P1 + P2 == 1)%Q ->
  (P1 - (2 * kappa + 3 * u53) <= w1 <= P1 + (2 * kappa + 3 * u53))%Q ->
  (P2 - (2 * kappa + 3 * u53) <= w2 <= P2 + (2 * kappa + 3 * u53))%Q ->
  (0 <= U <= 1 - u53)%Q ->
  let total := fadd (fadd w1 w2) 0 in
  let x := fmul U total in
  let cum := [w1; fadd w1 w2] in
  Qle_bool total 0 = false /\
  exists i,
    i = (if Qltb x w1 then 0 else 1) /\
    (nth i (0%Q :: cum) 0 <= x < nth i cum 0)%Q /\
    (forall j, j < 2 -> (nth j (0%Q :: cum) 0 <= x < nth j cum 0)%Q -> j = i) /\
    (sum_Q (firstn i [P1; P2]) - pow2 (-45) <= U
     < sum_Q (firstn (S i) [P1; P2]) + pow2 (-45))%Q /\
    (0 < nth i [w1; w2] 0)%Q.
Proof.
  intros D1 D2 H1 H2 Hsum C1 C2 HU total x cum.
  assert (G12 : on_grid (w1 + w2)) by (apply on_grid_add; now apply is_double_on_grid).
  pose proof (round_grid (w1 + w2) 2 G12
                ltac:(unfold kappa, u53 in *; split; lra)) as Hc1.
  fold (fadd w1 w2) in Hc1.
  pose proof (fadd_increases w1 w2 D1 H1 H2) as Hs1.
  assert (Hz1 : (w2 <= 0)%Q -> (fadd w1 w2 <= w1)%Q).
  { intros Hz. rewrite (fadd_zero_weight w1 w2 D1 H2 Hz). apply Qle_refl. }
  assert (Dc : is_double (fadd w1 w2)) by apply is_double_binary64.
  assert (ET : (total == fadd w1 w2)%Q) by (apply fadd_0_r; exact Dc).
  assert (DT : is_double total) by apply is_double_binary64.
  destruct (scaled_draw U total (80 * u53) HU DT
              ltac:(unfold u53; split; discriminate)
              ltac:(unfold kappa, u53 in *; split; lra)) as [[Hx0 HxT] Hx].
  fold x in Hx0, HxT, Hx.
  assert (He : (pow2 (-45) == 256 * u53)%Q) by reflexivity.
  set (c1 := fadd w1 w2) in *. subst cum.
  split.
  { destruct (Qle_bool total 0) eqn:E; [|reflexivity].
    apply Qle_bool_iff in E. unfold kappa, u53 in *. lra. }
  clearbody c1 total x.
  destruct (Qltb x w1) eqn:E1.
  - apply Qltb_lt in E1. exists 0. split; [reflexivity|].
    cbn [nth firstn]. unfold sum_Q. cbn [fold_left].
    split; [split; lra|]. split.
    + intros [|[|j]] Hj; cbn [nth]; intros [Ha Hb]; try reflexivity; try lia.
      exfalso. lra.
    + rewrite He. unfold kappa, u53 in *. split; [split|]; lra.
  - apply Qltb_ge in E1. exists 1. split; [reflexivity|].
    cbn [nth firstn]. unfold sum_Q. cbn [fold_left].
    split; [split; lra|]. split.
    + intros [|[|j]] Hj; cbn [nth]; intros [Ha Hb]; try reflexivity; try lia.
      exfalso. lra.
    + rewrite He. unfold kappa, u53 in *. split; [split|]; lra.
Qed.

Lemma interval_three (w1 w2 w3 P1 P2 P3 U : Q) :
  is_double w1 -> is_double w2 -> is_double w3 ->
  (0 <= w1)%Q -> (0 <= w2)%Q -> (0 <= w3)%Q ->
  (0 <= P1)%Q -> (0 <= P2)%Q -> (0 <= P3)%Q ->
  (P1 + P2 + P3 == 1)%Q ->
  (P1 - (2 * kappa + 3 * u53) <= w1 <= P1 + (2 * kappa + 3 * u53))%Q ->
  (P2 - (2 * kappa + 3 * u53) <= w2 <= P2 + (2 * kappa + 3 * u53))%Q ->
  (P3 - (2 * kappa + 3 * u53) <= w3 <= P3 + (2 * kappa + 3 * u53))%Q ->
  (0 <= U <= 1 - u53)%Q ->
  let total := fadd (fadd (fadd w1 w2) w3) 0 in
  let x := fmul U total in
  let cum := [w1; fadd w1 w2; fadd (fadd w1 w2) w3] in
  Qle_bool total 0 = false /\
  exists i,
    i = (if Qltb x (fadd w1 w2) then if Qltb x w1 then 0 else 1 else 2) /\
    (nth i (0%Q :: cum) 0 <= x < nth i cum 0)%Q /\
    (forall j, j < 3 -> (nth j (0%Q :: cum) 0 <= x < nth j cum 0)%Q -> j = i) /\
    (sum_Q (firstn i [P1; P2; P3]) - pow2 (-45) <= U
     < sum_Q (firstn (S i) [P1; P2; P3]) + pow2 (-45))%Q /\
    (0 < nth i [w1; w2; w3] 0)%Q.
Proof.
  intros D1 D2 D3 H1 H2 H3 HP1 HP2 HP3 Hsum C1 C2 C3 HU total x cum.
  assert (G12 : on_grid (w1 + w2)) by (apply on_grid_add; now apply is_double_on_grid).
  pose proof (round_grid (w1 + w2) 2 G12
                ltac:(unfold kappa, u53 in *; split; lra)) as Hc1.
  fold (fadd w1 w2) in Hc1.
  pose proof (fadd_increases w1 w2 D1 H1 H2) as Hs1.
  assert (Hz1 : (w2 <= 0)%Q -> (fadd w1 w2 <= w1)%Q).
  { intros Hz. rewrite (fadd_zero_weight w1 w2 D1 H2 Hz). apply Qle_refl. }
  assert (Dc1 : is_double (fadd w1 w2)) by apply is_double_binary64.
  set (c1 := fadd w1 w2) in *.
  assert (G23 : on_grid (c1 + w3)) by (apply on_grid_add; now apply is_double_on_grid).
  pose proof (round_grid (c1 + w3) 2 G23
                ltac:(unfold kappa, u53 in *; split; lra)) as Hc2.
  fold (fadd c1 w3) in Hc2.
  pose proof (fadd_increases c1 w3 Dc1 ltac:(lra) H3) as Hs2.
  assert (Hz2 : (w3 <= 0)%Q -> (fadd c1 w3 <= c1)%Q).
  { intros Hz. rewrite (fadd_zero_weight c1 w3 Dc1 H3 Hz). apply Qle_refl. }
  assert (Dc2 : is_double (fadd c1 w3)) by apply is_double_binary64.
  assert (ET : (total == fadd c1 w3)%Q) by (apply fadd_0_r; exact Dc2).
  assert (DT : is_double total) by apply is_double_binary64.
  destruct (scaled_draw U total (120 * u53) HU DT
              ltac:(unfold u53; split; discriminate)
              ltac:(unfold kappa, u53 in *; split; lra)) as [[Hx0 HxT] Hx].
  fold x in Hx0, HxT, Hx.
  assert (He : (pow2 (-45) == 256 * u53)%Q) by reflexivity.
  set (c2 := fadd c1 w3) in *. subst cum.
  split.
  { destruct (Qle_bool total 0) eqn:E; [|reflexivity].
    apply Qle_bool_iff in E. unfold kappa, u53 in *. lra. }
  clearbody c2 c1 total x.
  destruct (Qltb x c1) eqn:E1; [destruct (Qltb x w1) eqn:E0|].
  - apply Qltb_lt in E1, E0. exists 0. split; [reflexivity|].
    cbn [nth firstn]. unfold sum_Q. cbn [fold_left].
    split; [split; lra|]. split.
    + intros [|[|[|j]]] Hj; cbn [nth]; intros [Ha Hb]; try reflexivity; try lia;
        exfalso; lra.
    + rewrite He. unfold kappa, u53 in *. split; [split|]; lra.
  - apply Qltb_lt in E1. apply Qltb_ge in E0. exists 1. split; [reflexivity|].
    cbn [nth firstn]. unfold sum_Q. cbn [fold_left].
    split; [split; lra|]. split.
    + intros [|[|[|j]]] Hj; cbn [nth]; intros [Ha Hb]; try reflexivity; try lia;
        exfalso; lra.
    + rewrite He. unfold kappa, u53 in *. split; [split|]; lra.
  - apply Qltb_ge in E1. exists 2. split; [reflexivity|].
    cbn [nth firstn]. unfold sum_Q. cbn [fold_left].
    split; [split; lra|]. split.
    + intros [|[|[|j]]] Hj; cbn [nth]; intros [Ha Hb]; try reflexivity; try lia;
        exfalso; lra.
    + rewrite He. unfold kappa, u53 in *. split; [split|]; lra.
Qed.

(** ** Ambiguity resolution on doubles *)

Lemma is_double_0 : is_double 0.
Proof. reflexivity. Qed.

Lemma tuple_weight_ok (pA pC pG pT : Q) (b : ascii) :
  Forall (fun p => (0 <= p <= 1)%Q /\ is_double p) [pA; pC; pG; pT] ->
  (0 <= tuple_weight pA pC pG pT b)%Q /\ is_double (tuple_weight pA pC pG pT b).
Proof.
  intros H.
  inversion H as [|? ? [[HA _] DA] H1]; subst.
  inversion H1 as [|? ? [[HC _] DC] H2]; subst.
  inversion H2 as [|? ? [[HG _] DG] H3]; subst.
  inversion H3 as [|? ? [[HT _] DT] _]; subst.
  unfold tuple_weight.
  destruct (Ascii.eqb b "A"); [now split|].
  destruct (Ascii.eqb b "C"); [now split|].
  destruct (Ascii.eqb b "G"); [now split|].
  destruct (Ascii.eqb b "T"); [now split|].
  split; [apply Qle_refl | exact is_double_0].
Qed.

Lemma tuple_item (pA pC pG pT : Q) (b : ascii) :
  is_canonical b = true ->
  dict_item Ascii.eqb
    (dict_of Ascii.eqb (combine base_order [pA; pC; pG; pT])) b
  = Ok (tuple_weight pA pC pG pT b).
Proof.
  unfold is_canonical, ACGT. cbn [lit String.list_ascii_of_string existsb].
  intros H.
  destruct (Ascii.eqb b "A") eqn:EA; [apply Ascii.eqb_eq in EA; now subst|].
  destruct (Ascii.eqb b "C") eqn:EC; [apply Ascii.eqb_eq in EC; now subst|].
  destruct (Ascii.eqb b "G") eqn:EG; [apply Ascii.eqb_eq in EG; now subst|].
  destruct (Ascii.eqb b "T") eqn:ET; [apply Ascii.eqb_eq in ET; now subst|].
  discriminate.
Qed.

Lemma accurate_sum_bounds (float_sum : list Q -> Q) (ws : list Q) :
  accurate_sum float_sum ->
  length ws <= 3 ->
  Forall (fun w => (0 <= w)%Q /\ is_double w) ws ->
  (sum_Q ws - kappa * sum_Q ws <= float_sum ws
   <= sum_Q ws + kappa * sum_Q ws)%Q.
Proof.
  intros H Hlen Hall. specialize (H ws Hlen Hall).
  apply Qabs_Qle_condition in H. lra.
Qed.

Lemma float_draw_for_symbol (float_sum : list Q -> Q) (symbol : ascii)
    (bases : str) (pA pC pG pT : Q) (g : rng) :
  accurate_sum float_sum ->
  dict_get Ascii.eqb AMBIGUOUS_NUCLEOTIDES symbol = Some bases ->
  Forall (fun p => (0 <= p <= 1)%Q /\ is_double p) [pA; pC; pG; pT] ->
  exists weights chosen,
    Float64._weights_for_symbol float_sum symbol [pA; pC; pG; pT]
    = Ok (bases, weights) /\
    Float64.choices bases weights g = Ok (chosen, snd (random g)) /\
    drawn_as float_sum pA pC pG pT symbol bases (fst (random g)) chosen.
Proof.
  intros Hsum H Hp.
  destruct (table_entries symbol bases H) as (_ & Hlen & _ & Hcan).
  pose proof (random_range g) as HU.
  assert (Hitem : dict_item Ascii.eqb AMBIGUOUS_NUCLEOTIDES symbol = Ok bases)
    by (unfold dict_item; now rewrite H).
  set (tw := tuple_weight pA pC pG pT).
  assert (Htw : forall b, (0 <= tw b)%Q /\ is_double (tw b))
    by (intros b; now apply tuple_weight_ok).
  unfold drawn_as.
  destruct Hlen as [Hlen|Hlen].
  - destruct bases as [|b1 [|b2 [|]]]; try discriminate Hlen.
    inversion Hcan as [|? ? (Hc1 & _) Hcan']; subst.
    inversion Hcan' as [|? ? (Hc2 & _) _]; subst.
    destruct (Htw b1) as [H1 D1]. destruct (Htw b2) as [H2 D2].
    pose proof (accurate_sum_bounds float_sum [tw b1; tw b2] Hsum
                  ltac:(cbn; lia) ltac:(repeat constructor; assumption)) as Hs.
    unfold Float64._weights_for_symbol. rewrite Hitem.
    cbn [bind map_result].
    rewrite !tuple_item by assumption. cbn [bind length repeat map].
    fold tw. unfold renormalized. cbn [map length]. fold tw.
    unfold sum_Q in Hs |- *. cbn [fold_left] in Hs |- *.
    set (s := float_sum [tw b1; tw b2]) in *.
    destruct (Qeq_dec (0 + tw b1 + tw b2) 0) as [E0|Hne].
    + assert (Es : Qeq_bool s 0 = true).
      { apply Qeq_bool_iff. unfold kappa in Hs. lra. }
      assert (Et : Qeq_bool (0 + tw b1 + tw b2) 0 = true) by now apply Qeq_bool_iff.
      rewrite Es, Et.
      destruct (uniform_close 2 (or_introl eq_refl)) as (Dw & Hw0 & Hw).
      cbn [Z.of_nat Pos.of_succ_nat Pos.succ] in Dw, Hw0, Hw |- *.
      set (w := fdiv 1 (inject_Z 2)) in *.
      destruct (interval_two w w (truediv 1 2) (truediv 1 2) (fst (random g))
                  Dw Dw ltac:(lra) ltac:(lra) ltac:(reflexivity) Hw Hw HU)
        as (Htot & i & Hi & Hint & Huniq & Heps & Hpos).
      exists [w; w], (if Qltb (fmul (fst (random g)) (fadd (fadd w w) 0)) w
                      then b1 else b2).
      split; [reflexivity|]. split; [now apply float_choices_two|].
      exists [w; w], i. split; [reflexivity|]. split.
      { rewrite Hi. now destruct (Qltb _ _). }
      split; [split; [exact Hint | exact Huniq]|]. split; [exact Heps|].
      right. repeat constructor; lra.
    + assert (Ht : (0 < 0 + tw b1 + tw b2)%Q) by lra.
      assert (Es : Qeq_bool s 0 = false).
      { destruct (Qeq_bool s 0) eqn:E; [|reflexivity].
        apply Qeq_bool_iff in E. unfold kappa in Hs. lra. }
      assert (Et : Qeq_bool (0 + tw b1 + tw b2) 0 = false).
      { destruct (Qeq_bool (0 + tw b1 + tw b2) 0) eqn:E; [|reflexivity].
        apply Qeq_bool_iff in E. contradiction. }
      rewrite Es, Et.
      destruct (weight_close (tw b1) s (0 + tw b1 + tw b2) ltac:(lra) Ht Hs)
        as (Dw1 & Hw1 & Hc1' & Hz1).
      destruct (weight_close (tw b2) s (0 + tw b1 + tw b2) ltac:(lra) Ht Hs)
        as (Dw2 & Hw2 & Hc2' & Hz2).
      set (w1 := fdiv (tw b1) s) in *. set (w2 := fdiv (tw b2) s) in *.
      destruct (interval_two w1 w2 (tw b1 / (0 + tw b1 + tw b2))
                  (tw b2 / (0 + tw b1 + tw b2)) (fst (random g))
                  Dw1 Dw2 Hw1 Hw2 ltac:(field; lra) Hc1' Hc2' HU)
        as (Htot & i & Hi & Hint & Huniq & Heps & Hpos).
      exists [w1; w2], (if Qltb (fmul (fst (random g)) (fadd (fadd w1 w2) 0)) w1
                        then b1 else b2).
      split; [reflexivity|]. split; [now apply float_choices_two|].
      exists [w1; w2], i. split; [reflexivity|]. split.
      { rewrite Hi. now destruct (Qltb _ _). }
      split; [split; [exact Hint | exact Huniq]|]. split; [exact Heps|].
      left. rewrite Hi in Hpos. revert Hpos.
      destruct (Qltb _ _); cbn [nth]; intros Hpos; apply Qnot_le_lt; intros Hz;
        [rewrite (Hz1 Hz) in Hpos | rewrite (Hz2 Hz) in Hpos];
        now apply Qlt_irrefl in Hpos.
  - destruct bases as [|b1 [|b2 [|b3 [|]]]]; try discriminate Hlen.
    inversion Hcan as [|? ? (Hc1 & _) Hcan']; subst.
    inversion Hcan' as [|? ? (Hc2 & _) Hcan'']; subst.
    inversion Hcan'' as [|? ? (Hc3 & _) _]; subst.
    destruct (Htw b1) as [H1 D1]. destruct (Htw b2) as [H2 D2].
    destruct (Htw b3) as [H3 D3].
    pose proof (accurate_sum_bounds float_sum [tw b1; tw b2; tw b3] Hsum
                  ltac:(cbn; lia) ltac:(repeat constructor; assumption)) as Hs.
    unfold Float64._weights_for_symbol. rewrite Hitem.
    cbn [bind map_result].
    rewrite !tuple_item by assumption. cbn [bind length repeat map].
    fold tw. unfold renormalized. cbn [map length]. fold tw.
    unfold sum_Q in Hs |- *. cbn [fold_left] in Hs |- *.
    set (s := float_sum [tw b1; tw b2; tw b3]) in *.
    destruct (Qeq_dec (0 + tw b1 + tw b2 + tw b3) 0) as [E0|Hne].
    + assert (Es : Qeq_bool s 0 = true).
      { apply Qeq_bool_iff. unfold kappa in Hs. lra. }
      assert (Et : Qeq_bool (0 + tw b1 + tw b2 + tw b3) 0 = true)
        by now apply Qeq_bool_iff.
      rewrite Es, Et.
      destruct (uniform_close 3 (or_intror eq_refl)) as (Dw & Hw0 & Hw).
      cbn [Z.of_nat Pos.of_succ_nat Pos.succ] in Dw, Hw0, Hw |- *.
      set (w := fdiv 1 (inject_Z 3)) in *.
      destruct (interval_three w w w (truediv 1 3) (truediv 1 3) (truediv 1 3)
                  (fst (random g))
                  Dw Dw Dw ltac:(lra) ltac:(lra) ltac:(lra)
                  ltac:(discriminate) ltac:(discriminate) ltac:(discriminate)
                  ltac:(reflexivity) Hw Hw Hw HU)
        as (Htot & i & Hi & Hint & Huniq & Heps & Hpos).
      exists [w; w; w],
        (if Qltb (fmul (fst (random g)) (fadd (fadd (fadd w w) w) 0)) (fadd w w)
         then if Qltb (fmul (fst (random g)) (fadd (fadd (fadd w w) w) 0)) w
              then b1 else b2
         else b3).
      split; [reflexivity|]. split; [now apply float_choices_three|].
      exists [w; w; w], i. split; [reflexivity|]. split.
      { rewrite Hi. now repeat destruct (Qltb _ _). }
      split; [split; [exact Hint | exact Huniq]|]. split; [exact Heps|].
      right. repeat constructor; lra.
    + assert (Ht : (0 < 0 + tw b1 + tw b2 + tw b3)%Q) by lra.
      assert (Es : Qeq_bool s 0 = false).
      { destruct (Qeq_bool s 0) eqn:E; [|reflexivity].
        apply Qeq_bool_iff in E. unfold kappa in Hs. lra. }
      assert (Et : Qeq_bool (0 + tw b1 + tw b2 + tw b3) 0 = false).
      { destruct (Qeq_bool (0 + tw b1 + tw b2 + tw b3) 0) eqn:E; [|reflexivity].
        apply Qeq_bool_iff in E. contradiction. }
      rewrite Es, Et.
      set (t := (0 + tw b1 + tw b2 + tw b3)%Q) in *.
      destruct (weight_close (tw b1) s t ltac:(subst t; lra) Ht Hs)
        as (Dw1 & Hw1 & Hc1' & Hz1).
      destruct (weight_close (tw b2) s t ltac:(subst t; lra) Ht Hs)
        as (Dw2 & Hw2 & Hc2' & Hz2).
      destruct (weight_close (tw b3) s t ltac:(subst t; lra) Ht Hs)
        as (Dw3 & Hw3 & Hc3' & Hz3).
      set (w1 := fdiv (tw b1) s) in *. set (w2 := fdiv (tw b2) s) in *.
      set (w3 := fdiv (tw b3) s) in *.
      assert (HP : forall p, (0 <= p)%Q -> (0 <= p / t)%Q).
      { intros p Hp0. apply Qle_shift_div_l; [exact Ht | lra]. }
      destruct (interval_three w1 w2 w3 (tw b1 / t) (tw b2 / t) (tw b3 / t)
                  (fst (random g))
                  Dw1 Dw2 Dw3 Hw1 Hw2 Hw3 (HP _ H1) (HP _ H2) (HP _ H3)
                  ltac:(subst t; field; lra) Hc1' Hc2' Hc3' HU)
        as (Htot & i & Hi & Hint & Huniq & Heps & Hpos).
      exists [w1; w2; w3],
        (if Qltb (fmul (fst (random g)) (fadd (fadd (fadd w1 w2) w3) 0)) (fadd w1 w2)
         then if Qltb (fmul (fst (random g)) (fadd (fadd (fadd w1 w2) w3) 0)) w1
              then b1 else b2
         else b3).
      split; [reflexivity|]. split; [now apply float_choices_three|].
      exists [w1; w2; w3], i. split; [reflexivity|]. split.
      { rewrite Hi. now repeat destruct (Qltb _ _). }
      split; [split; [exact Hint | exact Huniq]|]. split; [exact Heps|].
      left. rewrite Hi in Hpos. revert Hpos.
      destruct (Qltb _ (fadd w1 w2)); [destruct (Qltb _ w1)|];
        cbn [nth]; intros Hpos; apply Qnot_le_lt; intros Hz;
        [rewrite (Hz1 Hz) in Hpos | rewrite (Hz2 Hz) in Hpos
        | rewrite (Hz3 Hz) in Hpos];
        now apply Qlt_irrefl in Hpos.
Qed.

Lemma float_resolve_loop_spec (float_sum : list Q -> Q) (pA pC pG pT : Q) :
  accurate_sum float_sum ->
  Forall (fun p => (0 <= p <= 1)%Q /\ is_double p) [pA; pC; pG; pT] ->
  forall seq new_chars g,
  exists out,
    Float64.resolve_loop float_sum seq [pA; pC; pG; pT] new_chars g
    = Ok (new_chars ++ out, rng_drop (length (filter is_symbol seq)) g) /\
    length out = length seq /\
    forall k ch bases,
      nth_error seq k = Some ch ->
      dict_get Ascii.eqb AMBIGUOUS_NUCLEOTIDES (upper ch) = Some bases ->
      exists chosen,
        nth_error out k = Some (if isupper ch then chosen else lower chosen) /\
        drawn_as float_sum pA pC pG pT (upper ch) bases
          (fst (random (rng_drop (length (filter is_symbol (firstn k seq))) g)))
          chosen.
Proof.
  intros Hsum Hp seq.
  induction seq as [|ch seq IH]; intros new_chars g;
    cbn [Float64.resolve_loop filter].
  - exists []. rewrite app_nil_r. split; [reflexivity|]. split; [reflexivity|].
    intros [|k] c bases Hk; discriminate Hk.
  - unfold is_symbol at 1. unfold dict_contains.
    destruct (dict_get Ascii.eqb AMBIGUOUS_NUCLEOTIDES (upper ch)) as [bases|] eqn:E.
    + destruct (float_draw_for_symbol float_sum (upper ch) bases pA pC pG pT g
                  Hsum E Hp) as (weights & chosen & Hw & Hc & Hd).
      rewrite Hw. cbn [bind]. rewrite Hc. cbn [bind].
      destruct (IH (new_chars ++ [if isupper ch then chosen else lower chosen])
                   (snd (random g))) as (out & Hout & Hlen & Hpos).
      exists ((if isupper ch then chosen else lower chosen) :: out).
      rewrite Hout, <- app_assoc. split; [reflexivity|].
      split; [cbn [length]; now rewrite Hlen|].
      intros [|k] c bases' Hk Hb.
      * injection Hk as <-. rewrite E in Hb. injection Hb as <-.
        exists chosen. split; [reflexivity | exact Hd].
      * cbn [nth_error] in Hk |- *.
        destruct (Hpos k c bases' Hk Hb) as (chosen' & Ho & Hd').
        exists chosen'. split; [exact Ho|].
        cbn [firstn filter]. unfold is_symbol at 1. unfold dict_contains.
        rewrite E. exact Hd'.
    + destruct (IH (new_chars ++ [ch]) g) as (out & Hout & Hlen & Hpos).
      exists (ch :: out). rewrite Hout, <- app_assoc.
      split; [reflexivity|]. split; [cbn [length]; now rewrite Hlen|].
      intros [|k] c bases' Hk Hb.
      * injection Hk as <-. rewrite E in Hb. discriminate Hb.
      * cbn [nth_error] in Hk |- *.
        destruct (Hpos k c bases' Hk Hb) as (chosen' & Ho & Hd').
        exists chosen'. split; [exact Ho|].
        cbn [firstn filter]. unfold is_symbol at 1. unfold dict_contains.
        rewrite E. exact Hd'.
Qed.

Lemma float_resolve_spec (float_sum : list Q -> Q) (seq : str)
    (base_probs : dict (K:=ascii) (V:=Q)) (pA pC pG pT : Q) (g : rng) :
  accurate_sum float_sum ->
  map_result (dict_item Ascii.eqb base_probs) base_order = Ok [pA; pC; pG; pT] ->
  Forall (fun p => (0 <= p <= 1)%Q /\ is_double p) [pA; pC; pG; pT] ->
  exists out,
    Float64.resolve_ambiguous_sequence float_sum seq base_probs g
    = Ok (out, rng_drop (length (filter is_symbol seq)) g) /\
    length out = length seq /\
    forall k ch bases,
      nth_error seq k = Some ch ->
      dict_get Ascii.eqb AMBIGUOUS_NUCLEOTIDES (upper ch) = Some bases ->
      exists chosen,
        nth_error out k = Some (if isupper ch then chosen else lower chosen) /\
        drawn_as float_sum pA pC pG pT (upper ch) bases
          (fst (random (rng_drop (length (filter is_symbol (firstn k seq))) g)))
          chosen.
Proof.
  intros Hsum E Hp. unfold Float64.resolve_ambiguous_sequence. rewrite E.
  cbn [bind].
  exact (float_resolve_loop_spec float_sum pA pC pG pT Hsum Hp seq [] g).
Qed.

Lemma float_resolve_R_pure_A (float_sum : list Q -> Q) (ch : ascii) (g : rng) :
  accurate_sum float_sum ->
  upper ch = "R" ->
  value_of (Float64.resolve_ambiguous_sequence float_sum [ch]
              [("A", 1%Q); ("C", 0%Q); ("G", 0%Q); ("T", 0%Q)] g)
  = Ok [if isupper ch then "A" else "a"].
Proof.
  intros Hsum Hup.
  destruct (float_resolve_spec float_sum [ch]
              [("A", 1%Q); ("C", 0%Q); ("G", 0%Q); ("T", 0%Q)] 1 0 0 0 g
              Hsum eq_refl)
    as (out & E & Hlen & Hpos).
  { repeat constructor; try discriminate; reflexivity. }
  rewrite E. cbn [value_of bind].
  destruct (Hpos 0 ch (lit "AG") eq_refl ltac:(now rewrite Hup))
    as (chosen & Ho & weights & i & _ & Hi & _ & _ & Hw).
  destruct out as [|o [|]]; try discriminate Hlen.
  cbn [nth_error] in Ho. injection Ho as ->.
  assert (chosen = "A") as ->; [|now destruct (isupper ch)].
  destruct Hw as [Hw|Hw].
  - destruct i as [|[|i]]; cbn in Hi.
    + now injection Hi as <-.
    + injection Hi as <-. exfalso. revert Hw. cbn. apply Qlt_irrefl.
    + destruct i; discriminate Hi.
  - exfalso. inversion Hw as [|? ? H1 _]; subst. revert H1. cbn. discriminate.
Qed.

(** C4.  On floats, for a distribution of four doubles between 0 and 1 and
    either algorithm of the built-in [sum], [resolve_ambiguous_sequence]
    returns, drawing one number for each symbol, a string of the length of
    its input in which each ambiguity symbol is replaced, in the case of
    the symbol, by the candidate drawn as [drawn_as] says: with the number
    [u] that [random.random] returned for this symbol, it is the candidate
    whose interval of cumulated weights, as [_weights_for_symbol] and
    [random.choices] compute them, holds [random() * total]; [u] lies in
    the candidate's interval of the exact cumulated shares, whose length is
    the candidate's weight divided by the sum of the candidates' weights (an
    equal share when that sum is zero), or within [2^-45] of it; and a
    candidate of weight zero is never drawn unless all have weight zero.
    With all weight on A, "R" always resolves to "A" and "r" to "a". *)
Theorem resolve_draws_by_renormalized_weight :
  (forall float_sum seq base_probs pA pC pG pT g,
      accurate_sum float_sum ->
      map_result (dict_item Ascii.eqb base_probs) base_order
      = Ok [pA; pC; pG; pT] ->
      Forall (fun p => (0 <= p <= 1)%Q /\ is_double p) [pA; pC; pG; pT] ->
      exists out,
        Float64.resolve_ambiguous_sequence float_sum seq base_probs g
        = Ok (out, rng_drop (length (filter is_symbol seq)) g) /\
        length out = length seq /\
        forall k ch bases,
          nth_error seq k = Some ch ->
          dict_get Ascii.eqb AMBIGUOUS_NUCLEOTIDES (upper ch) = Some bases ->
          exists chosen,
            nth_error out k = Some (if isupper ch then chosen else lower chosen) /\
            drawn_as float_sum pA pC pG pT (upper ch) bases
              (fst (random
                      (rng_drop (length (filter is_symbol (firstn k seq))) g)))
              chosen) /\
  accurate_sum sum_left_to_right /\
  accurate_sum sum_compensated /\
  (forall float_sum g,
      accurate_sum float_sum ->
      value_of (Float64.resolve_ambiguous_sequence float_sum (lit "R")
                  [("A", 1%Q); ("C", 0%Q); ("G", 0%Q); ("T", 0%Q)] g)
      = Ok (lit "A")) /\
  (forall float_sum g,
      accurate_sum float_sum ->
      value_of (Float64.resolve_ambiguous_sequence float_sum (lit "r")
                  [("A", 1%Q); ("C", 0%Q); ("G", 0%Q); ("T", 0%Q)] g)
      = Ok (lit "a")).
Proof.
  split; [|split; [|split; [|split]]].
  - intros float_sum seq base_probs pA pC pG pT g Hsum E Hp.
    now apply float_resolve_spec.
  - exact sum_left_to_right_accurate.
  - exact sum_compensated_accurate.
  - intros float_sum g Hsum. now apply (float_resolve_R_pure_A float_sum "R").
  - intros float_sum g Hsum. now apply (float_resolve_R_pure_A float_sum "r").
Qed.

Lemma resolve_draws_by_renormalized_weight_witness :
  exists out,
    Float64.resolve_ambiguous_sequence sum_left_to_right (lit "aB-r")
      [("A", 0.25%Q); ("C", 0.25%Q); ("G", 0.25%Q); ("T", 0.25%Q)]
      (fun _ => 6004799503160661%Z)
    = Ok (out, rng_drop 2 (fun _ => 6004799503160661%Z)) /\
    length out = 4.
Proof.
  destruct (proj1 resolve_draws_by_renormalized_weight
              sum_left_to_right (lit "aB-r")
              [("A", 0.25%Q); ("C", 0.25%Q); ("G", 0.25%Q); ("T", 0.25%Q)]
              0.25%Q 0.25%Q 0.25%Q 0.25%Q (fun _ => 6004799503160661%Z)
              (proj1 (proj2 resolve_draws_by_renormalized_weight))
              eq_refl)
    as (out & E & Hlen & _).
  - repeat constructor; try discriminate; reflexivity.
  - exists out. split; [exact E | exact Hlen].
Defined.

(** The same draw under the two arithmetics: the running sums
    [1/3, 2/3, 1] of the exact shares put the number
    [6004799503160661 / 2^53], just below [2/3], in the interval of G; the
    doubles [0.3333333333333333, 0.6666666666666666, 1.0] put it in that of
    T, as the interpreter does. *)
Example resolve_B_at_two_thirds :
  value_of (Float64.resolve_ambiguous_sequence sum_left_to_right (lit "B")
              [("A", 0.25%Q); ("C", 0.25%Q); ("G", 0.25%Q); ("T", 0.25%Q)]
              (fun _ => 6004799503160661%Z))
  = Ok (lit "T") /\
  value_of (Float64.resolve_ambiguous_sequence sum_compensated (lit "B")
              [("A", 0.25%Q); ("C", 0.25%Q); ("G", 0.25%Q); ("T", 0.25%Q)]
              (fun _ => 6004799503160661%Z))
  = Ok (lit "T") /\
  value_of (resolve_ambiguous_sequence (lit "B")
              [("A", 0.25%Q); ("C", 0.25%Q); ("G", 0.25%Q); ("T", 0.25%Q)]
              (fun _ => 6004799503160661%Z))
  = Ok (lit "G").
Proof. split; [|split]; vm_compute; reflexivity. Qed.

(** ** FASTA files: what [write_fasta] writes *)

Lemma firstn_min_length {A} (a : nat) (l : list A) :
  firstn (Nat.min a (length l)) l = firstn a l.
Proof.
  destruct (Nat.le_gt_cases a (length l)) as [H|H].
  - now rewrite Nat.min_l.
  - rewrite Nat.min_r by lia. rewrite firstn_all, firstn_all2 by lia. reflexivity.
Qed.

Lemma pieces_concat (width : nat) (m : nat) :
  forall s : str, length s <= m * width -> concat (pieces width m s) = s.
Proof.
  unfold pieces. induction m as [|m IH]; intros s Hlen.
  - destruct s; [reflexivity | simpl in Hlen; lia].
  - rewrite <- cons_seq, <- seq_shift. cbn [map concat]. rewrite map_map.
    rewrite Nat.mul_0_l, skipn_O.
    rewrite <- (firstn_skipn width s) at 2. f_equal.
    rewrite <- (IH (skipn width s)) by (rewrite length_skipn; lia).
    f_equal. apply map_ext. intros k.
    rewrite skipn_skipn. do 2 f_equal. lia.
Qed.

Lemma pieces_nonempty (width m : nat) (s : str) :
  0 < width -> (forall k, k < m -> k * width < length s) ->
  Forall (fun p => p <> []) (pieces width m s).
Proof.
  intros Hw Hk. unfold pieces. apply Forall_forall. intros p Hp.
  apply in_map_iff in Hp as (k & <- & Hin). apply in_seq in Hin.
  specialize (Hk k ltac:(lia)).
  intros E. apply (f_equal (@length ascii)) in E.
  rewrite length_firstn, length_skipn in E. simpl in E. lia.
Qed.

Lemma wrapped_pieces (s : str) (width : Z) :
  (0 < width)%Z ->
  let m := Z.to_nat ((Z.of_nat (length s) + width - 1) / width) in
  wrapped s width = pieces (Z.to_nat width) m s /\
  length s <= m * Z.to_nat width /\
  (forall k, k < m -> k * Z.to_nat width < length s).
Proof.
  intros Hw m.
  assert (Hm : (Z.of_nat m = (Z.of_nat (length s) + width - 1) / width)%Z).
  { subst m. rewrite Z2Nat.id; [reflexivity|].
    apply Z.div_pos; lia. }
  assert (Hdiv : (width * Z.of_nat m <= Z.of_nat (length s) + width - 1
                  < width * (Z.of_nat m + 1))%Z).
  { rewrite Hm. split.
    - apply Z.mul_div_le. lia.
    - rewrite Z.mul_add_distr_l, Z.mul_1_r.
      pose proof (Z.mod_pos_bound (Z.of_nat (length s) + width - 1) width Hw).
      pose proof (Z.div_mod (Z.of_nat (length s) + width - 1) width ltac:(lia)).
      lia. }
  assert (Hup : length s <= m * Z.to_nat width) by nia.
  assert (Hlow : forall k, k < m -> k * Z.to_nat width < length s) by (intros; nia).
  split; [|split; assumption].
  unfold wrapped, range.
  destruct (width =? 0)%Z eqn:E0; [apply Z.eqb_eq in E0; lia|].
  destruct (0 <? width)%Z eqn:E1; [|apply Z.ltb_ge in E1; lia].
  rewrite Z.sub_0_r. fold m. unfold pieces. rewrite map_map. apply map_ext_in.
  intros k Hin. apply in_seq in Hin. specialize (Hlow k ltac:(lia)).
  unfold slice, slice_index.
  destruct (0 + Z.of_nat k * width <? 0)%Z eqn:E2; [apply Z.ltb_lt in E2; nia|].
  destruct (0 + Z.of_nat k * width + width <? 0)%Z eqn:E3; [apply Z.ltb_lt in E3; nia|].
  replace (Z.to_nat (Z.min (0 + Z.of_nat k * width) (Z.of_nat (length s))))
    with (k * Z.to_nat width) by nia.
  rewrite <- (firstn_min_length (Z.to_nat width)).
  f_equal. rewrite length_skipn. nia.
Qed.

Lemma fold_left_append {A} (f : A -> str) (l : list A) :
  forall text, fold_left (fun text i => text ++ f i) l text = text ++ concat (map f l).
Proof.
  induction l as [|x l IH]; intros text; simpl.
  - now rewrite app_nil_r.
  - rewrite IH, app_assoc. reflexivity.
Qed.

Lemma write_record_lines (width : Z) (text : str) (r : record) :
  (0 < width)%Z ->
  write_record width text r =
  Ok (text ++ concat (map terminated (record_lines width r))).
Proof.
  intros Hw. destruct r as [h s]. unfold write_record, record_lines, wrapped.
  unfold range. destruct (width =? 0)%Z eqn:E0; [apply Z.eqb_eq in E0; lia|].
  cbn [bind fst snd map concat]. rewrite fold_left_append, !map_map.
  unfold terminated. rewrite <- !app_assoc. reflexivity.
Qed.

Lemma write_records_lines (width : Z) (rs : list record) :
  (0 < width)%Z ->
  forall text,
    write_records width text rs =
    Ok (text ++ concat (map terminated (flat_map (record_lines width) rs))).
Proof.
  intros Hw. induction rs as [|r rs IH]; intros text; cbn [write_records flat_map].
  - cbn. now rewrite app_nil_r.
  - rewrite write_record_lines by assumption. cbn [bind].
    rewrite IH, map_app, concat_app, app_assoc. reflexivity.
Qed.

(** ** FASTA files: what [read_fasta] reads back *)

Lemma existsb_piece {A} (f : A -> bool) (a b : nat) (l : list A) :
  existsb f l = false -> existsb f (firstn a (skipn b l)) = false.
Proof.
  intros H. rewrite <- (firstn_skipn b l), existsb_app in H.
  apply orb_false_iff in H as [_ H].
  rewrite <- (firstn_skipn a (skipn b l)), existsb_app in H.
  now apply orb_false_iff in H as [H _].
Qed.

Lemma existsb_weaken {A} (f f' : A -> bool) (l : list A) :
  (forall x, f' x = true -> f x = true) ->
  existsb f l = false -> existsb f' l = false.
Proof.
  intros Himp. induction l as [|x l IH]; simpl; [reflexivity|].
  intros H. apply orb_false_iff in H as [Hx Hl].
  rewrite (IH Hl), orb_false_r.
  destruct (f' x) eqn:E; [|reflexivity]. apply Himp in E. congruence.
Qed.

Lemma existsb_reverse {A} (f : A -> bool) (l : list A) :
  existsb f (rev l) = existsb f l.
Proof.
  induction l as [|x l IH]; [reflexivity|].
  cbn [rev existsb]. rewrite existsb_app, IH. cbn. rewrite orb_false_r.
  apply orb_comm.
Qed.

Lemma dropwhile_none {A} (p : A -> bool) (l : list A) :
  existsb p l = false -> dropwhile p l = l.
Proof.
  destruct l as [|x l]; simpl; [reflexivity|].
  intros H. apply orb_false_iff in H as [-> _]. reflexivity.
Qed.

Lemma remove_char_none (c : ascii) (s : str) :
  existsb (fun x => Ascii.eqb x c) s = false -> remove_char c s = s.
Proof.
  unfold remove_char. induction s as [|x s IH]; simpl; [reflexivity|].
  intros H. apply orb_false_iff in H as [-> Hs]. simpl. now rewrite IH.
Qed.

Lemma universal_newlines_id (text : str) :
  existsb (fun c => Ascii.eqb c CR) text = false -> universal_newlines text = text.
Proof.
  induction text as [|c rest IH]; [reflexivity|].
  cbn [existsb universal_newlines]. intros H.
  apply orb_false_iff in H as [-> Hrest]. now rewrite IH.
Qed.

Lemma lines_from_line (line : str) :
  existsb is_line_end line = false ->
  forall current rest,
    lines_from current (line ++ LF :: rest) =
    (current ++ terminated line) :: lines_from [] rest.
Proof.
  unfold terminated.
  induction line as [|c line IH]; intros Hno current rest.
  - cbn. reflexivity.
  - cbn [existsb] in Hno. apply orb_false_iff in Hno as [Hc Hline].
    unfold is_line_end in Hc. apply orb_false_iff in Hc as [Hc _].
    cbn [app lines_from]. rewrite Hc, (IH Hline), <- app_assoc. reflexivity.
Qed.

Lemma lines_from_terminated (lines : list str) :
  Forall (fun l => existsb is_line_end l = false) lines ->
  lines_from [] (concat (map terminated lines)) = map terminated lines.
Proof.
  induction 1 as [|l lines Hl _ IH]; [reflexivity|].
  cbn [map concat]. unfold terminated at 1. rewrite <- app_assoc.
  cbn [app]. rewrite (lines_from_line l Hl), IH. reflexivity.
Qed.

Lemma no_CR_terminated (lines : list str) :
  Forall (fun l => existsb is_line_end l = false) lines ->
  existsb (fun c => Ascii.eqb c CR) (concat (map terminated lines)) = false.
Proof.
  induction 1 as [|l lines Hl _ IH]; [reflexivity|].
  cbn [map concat]. unfold terminated at 1.
  rewrite !existsb_app, IH, orb_false_r. cbn [existsb].
  rewrite (existsb_weaken is_line_end _ l); [reflexivity | | exact Hl].
  intros x Hx. unfold is_line_end. rewrite Hx. apply orb_true_r.
Qed.

Lemma file_lines_terminated (lines : list str) :
  Forall (fun l => existsb is_line_end l = false) lines ->
  file_lines (concat (map terminated lines)) = map terminated lines.
Proof.
  intros H. unfold file_lines.
  rewrite universal_newlines_id by now apply no_CR_terminated.
  now apply lines_from_terminated.
Qed.

Lemma rstrip_terminated (line : str) :
  existsb is_line_end line = false -> rstrip_char LF (terminated line) = line.
Proof.
  intros H. unfold rstrip_char, terminated. rewrite rev_app_distr. cbn.
  rewrite dropwhile_none; [apply rev_involutive|].
  rewrite existsb_reverse. apply (existsb_weaken is_line_end); [|exact H].
  intros x Hx. unfold is_line_end.
  apply Ascii.eqb_eq in Hx. subst x. reflexivity.
Qed.

Lemma read_header_line (st : reader) (h : str) :
  header_ok h = true ->
  existsb is_line_end (lit ">" ++ h) = false /\
  read_line st (terminated (lit ">" ++ h)) = Reader (flush st) (Some h) [].
Proof.
  unfold header_ok. rewrite andb_true_iff, negb_true_iff, str_eqb_eq.
  intros [Hno Hstrip].
  assert (Hline : existsb is_line_end (lit ">" ++ h) = false) by (cbn; exact Hno).
  split; [exact Hline|].
  unfold read_line. rewrite (rstrip_terminated _ Hline).
  cbn [lit String.list_ascii_of_string app startswith skipn].
  rewrite Ascii.eqb_refl. cbn [andb]. now rewrite Hstrip.
Qed.

Lemma read_piece_line (st : reader) (piece : str) :
  piece <> [] -> piece_ok piece = true -> existsb is_line_end piece = false ->
  read_line st (terminated piece) =
  Reader (records st) (header st) (seq_lines st ++ [piece]).
Proof.
  unfold piece_ok. rewrite andb_true_iff, negb_true_iff, str_eqb_eq.
  intros Hne [Hstrip Hstart] Hline.
  unfold read_line. rewrite (rstrip_terminated _ Hline).
  destruct piece as [|c piece]; [contradiction|].
  now rewrite Hstart, Hstrip.
Qed.

Lemma read_piece_lines (ps : list str) :
  Forall (fun p => p <> [] /\ piece_ok p = true /\
                   existsb is_line_end p = false) ps ->
  forall rs hd sl,
    fold_left read_line (map terminated ps) (Reader rs hd sl) =
    Reader rs hd (sl ++ ps).
Proof.
  induction 1 as [|p ps (Hne & Hok & Hline) _ IH]; intros rs hd sl; cbn [map fold_left].
  - now rewrite app_nil_r.
  - rewrite (read_piece_line _ p Hne Hok Hline). cbn [records header seq_lines].
    rewrite IH, <- app_assoc. reflexivity.
Qed.

Lemma sequence_ok_pieces (width : Z) (s : str) :
  (0 < width)%Z -> sequence_ok width s = true ->
  Forall (fun p => p <> [] /\ piece_ok p = true /\
                   existsb is_line_end p = false) (wrapped s width) /\
  joined (wrapped s width) = s.
Proof.
  intros Hw. unfold sequence_ok.
  rewrite andb_true_iff, negb_true_iff, forallb_forall. intros [Hchars Hpieces].
  destruct (wrapped_pieces s width Hw) as (Hwr & Hup & Hlow).
  split.
  - apply Forall_forall. intros p Hp. split; [|split].
    + pose proof (pieces_nonempty (Z.to_nat width) _ s ltac:(lia) Hlow) as Hne.
      rewrite Forall_forall in Hne. apply Hne. now rewrite <- Hwr.
    + now apply Hpieces.
    + rewrite Hwr in Hp. unfold pieces in Hp.
      apply in_map_iff in Hp as (k & <- & _). apply existsb_piece.
      apply (existsb_weaken _ _ s) with (2 := Hchars).
      intros x ->. reflexivity.
  - rewrite Hwr. unfold joined. rewrite (pieces_concat _ _ s Hup).
    rewrite (remove_char_none SPACE).
    + apply remove_char_none. apply (existsb_weaken _ _ s) with (2 := Hchars).
      intros x ->. apply orb_true_r.
    + apply (existsb_weaken _ _ s) with (2 := Hchars).
      intros x ->. rewrite orb_true_r. reflexivity.
Qed.

Lemma record_lines_no_line_end (width : Z) (rs : list record) :
  (0 < width)%Z -> forallb (record_ok width) rs = true ->
  Forall (fun l => existsb is_line_end l = false)
         (flat_map (record_lines width) rs).
Proof.
  intros Hw. induction rs as [|[h s] rs IH]; cbn [forallb flat_map];
    [constructor|].
  unfold record_ok at 1. cbn [fst snd]. rewrite !andb_true_iff.
  intros [[Hh Hs] Hrs]. apply Forall_app. split; [|now apply IH].
  unfold record_lines. cbn [fst snd]. constructor.
  - now destruct (read_header_line (Reader [] None []) h Hh).
  - destruct (sequence_ok_pieces width s Hw Hs) as [Hall _].
    revert Hall. apply Forall_impl. tauto.
Qed.

Lemma read_record_lines (width : Z) (rs : list record) :
  (0 < width)%Z -> forallb (record_ok width) rs = true ->
  forall st,
    flush (fold_left read_line
             (map terminated (flat_map (record_lines width) rs)) st)
    = flush st ++ rs.
Proof.
  intros Hw. induction rs as [|[h s] rs IH]; cbn [forallb flat_map]; intros Hok st.
  - cbn. now rewrite app_nil_r.
  - unfold record_ok at 1 in Hok. cbn [fst snd] in Hok.
    rewrite !andb_true_iff in Hok. destruct Hok as [[Hh Hs] Hrs].
    destruct (sequence_ok_pieces width s Hw Hs) as [Hall Hjoin].
    rewrite map_app, fold_left_app. unfold record_lines at 2.
    cbn [fst snd map fold_left].
    destruct (read_header_line st h Hh) as [_ ->].
    rewrite (read_piece_lines _ Hall), (IH Hrs).
    unfold flush at 1. cbn [header records seq_lines app].
    rewrite Hjoin, <- app_assoc. reflexivity.
Qed.

(** C1, as the code has it.  For a width of at least 1 and records that are
    [record_ok] (headers without line ends and without blanks at either end;
    sequences without line ends, spaces or tabs, whose pieces of [width]
    characters neither start or end with a blank nor start with ">"),
    [write_fasta] succeeds and [read_fasta] gives the records back, in
    order. *)
Theorem read_write_roundtrip (rs : list record) (width : Z) :
  (1 <= width)%Z ->
  forallb (record_ok width) rs = true ->
  exists text, write_fasta rs width = Ok text /\ read_fasta text = rs.
Proof.
  intros Hw Hok. assert (Hpos : (0 < width)%Z) by lia.
  unfold write_fasta. rewrite (write_records_lines width rs Hpos).
  eexists. split; [reflexivity|].
  unfold read_fasta. cbn [app].
  rewrite file_lines_terminated by now apply record_lines_no_line_end.
  now rewrite (read_record_lines width rs Hpos Hok).
Qed.

Lemma read_write_roundtrip_witness :
  exists text,
    write_fasta [(lit "s1 first", lit "ACGTRYACGT"); (lit "s2", ([] : str))] 4
    = Ok text /\
    read_fasta text = [(lit "s1 first", lit "ACGTRYACGT"); (lit "s2", ([] : str))].
Proof.
  apply (read_write_roundtrip
           [(lit "s1 first", lit "ACGTRYACGT"); (lit "s2", ([] : str))] 4);
    [lia | reflexivity].
Defined.

(** C1, as the claim states it, fails.  None of these headers and sequences
    holds a line end and no sequence starts or ends with a blank, yet a
    blank inside a sequence is dropped, a blank at the end of a header is
    dropped, and a piece that starts with ">" is read as a header. *)
Lemma roundtrip_loses_blanks_and_markers :
  (strip (lit "A C") = lit "A C" /\
   exists text, write_fasta [(lit "h", lit "A C")] 80 = Ok text /\
                read_fasta text = [(lit "h", lit "AC")]) /\
  (strip (lit "AC") = lit "AC" /\
   exists text, write_fasta [(lit "h ", lit "AC")] 80 = Ok text /\
                read_fasta text = [(lit "h", lit "AC")]) /\
  (strip (lit "A>C") = lit "A>C" /\
   exists text, write_fasta [(lit "h", lit "A>C")] 1 = Ok text /\
                read_fasta text = [(lit "h", lit "A"); (([] : str), lit "C")]).
Proof.
  repeat split; eexists; split; reflexivity.
Qed.

(** ** Sorting by a key *)

Section SortBy.
Context {A : Type}.
Variable key : A -> Z.

Lemma insert_by_perm (x : A) (l : list A) :
Permutation (insert_by key x l) (x :: l).
Proof.
induction l as [|y l IH]; cbn [insert_by]; [reflexivity|].
destruct (key y <? key x)%Z; [|reflexivity].
rewrite IH. apply perm_swap.
Qed.

Lemma sort_by_perm (l : list A) : Permutation (sort_by key l) l.
Proof.
induction l as [|x l IH]; cbn; [reflexivity|].
fold (sort_by key l). rewrite insert_by_perm. now constructor.
Qed.

Lemma insert_by_sorted (x : A) (l : list A) :
StronglySorted (fun a b => (key a <= key b)%Z) l ->
StronglySorted (fun a b => (key a <= key b)%Z) (insert_by key x l).
Proof.
induction 1 as [|y l Hs IH Hall]; cbn [insert_by].
- repeat constructor.
- destruct (key y <? key x)%Z eqn:E.
  + apply Z.ltb_lt in E. constructor; [exact IH|].
    apply (Permutation_Forall (x := x :: l));
      [symmetry; apply insert_by_perm|].
    constructor; [lia | exact Hall].
  + apply Z.ltb_ge in E. constructor; [now constructor|].
    constructor; [exact E|].
    revert Hall. apply Forall_impl. intros z Hz. lia.
Qed.

Lemma sort_by_sorted (l : list A) :
StronglySorted (fun a b => (key a <= key b)%Z) (sort_by key l).
Proof.
induction l as [|x l IH]; cbn; [constructor|].
now apply insert_by_sorted.
Qed.

(** A list sorted by a key that is -1 or non-negative has the elements of
  key -1 first. *)
Lemma sorted_split (l : list A) :
StronglySorted (fun a b => (key a <= key b)%Z) l ->
Forall (fun a => key a = (-1)%Z \/ (0 <= key a)%Z) l ->
exists front back,
  l = front ++ back /\
  Forall (fun a => key a = (-1)%Z) front /\
  Forall (fun a => (0 <= key a)%Z) back.
Proof.
induction 1 as [|x l Hs IH Hall]; intros Hkeys.
- exists [], []. repeat constructor.
- inversion Hkeys as [|? ? Hx Hl]; subst.
  destruct Hx as [Hx|Hx].
  + destruct (IH Hl) as (front & back & -> & Hf & Hb).
    exists (x :: front), back. repeat split; [now constructor | exact Hb].
  + exists [], (x :: l). repeat split; [constructor|].
    constructor; [exact Hx|].
    revert Hall. apply Forall_impl. intros z Hz. lia.
Qed.
End SortBy.

Lemma insert_by_ext_in {A} (key key' : A -> Z) (x : A) (l : list A) :
  key x = key' x -> (forall y, In y l -> key y = key' y) ->
  insert_by key x l = insert_by key' x l.
Proof.
  intros Hx. induction l as [|y l IH]; intros Hl; cbn [insert_by]; [reflexivity|].
  rewrite Hx, (Hl y) by now left.
  rewrite IH by (intros z Hz; apply Hl; now right). reflexivity.
Qed.

Lemma sort_by_ext_in {A} (key key' : A -> Z) (l : list A) :
  (forall x, In x l -> key x = key' x) -> sort_by key l = sort_by key' l.
Proof.
  induction l as [|x l IH]; intros Hext; cbn; [reflexivity|].
  fold (sort_by key l) (sort_by key' l).
  rewrite IH by (intros y Hy; apply Hext; now right).
  apply insert_by_ext_in; [apply Hext; now left|].
  intros y Hy. apply Hext. right.
  now apply (Permutation_in _ (sort_by_perm key' l)).
Qed.

Lemma insert_by_map {A B} (f : A -> B) (key : B -> Z) (x : A) (l : list A) :
  insert_by key (f x) (map f l) = map f (insert_by (fun x => key (f x)) x l).
Proof.
  induction l as [|y l IH]; cbn; [reflexivity|].
  destruct (key (f y) <? key (f x))%Z; cbn; [now rewrite IH | reflexivity].
Qed.

Lemma sort_by_map {A B} (f : A -> B) (key : B -> Z) (l : list A) :
  sort_by key (map f l) = map f (sort_by (fun x => key (f x)) l).
Proof.
  induction l as [|x l IH]; cbn; [reflexivity|].
  fold (sort_by key (map f l)) (sort_by (fun x => key (f x)) l).
  rewrite IH. apply insert_by_map.
Qed.

(** ** The dataset index *)

Lemma takewhile_app_stop {A} (p : A -> bool) (l1 l2 : list A) :
  forallb p l1 = true ->
  match l2 with [] => True | y :: _ => p y = false end ->
  takewhile p (l1 ++ l2) = l1.
Proof.
  intros H1 H2. induction l1 as [|x l1 IH]; cbn in *.
  - destruct l2 as [|y l2]; [reflexivity|]. cbn. now rewrite H2.
  - apply andb_true_iff in H1 as [-> H1]. now rewrite IH.
Qed.

Lemma startswith_app (p s : str) : startswith p (p ++ s) = true.
Proof.
  induction p as [|x p IH]; cbn; [reflexivity|].
  now rewrite Ascii.eqb_refl, IH.
Qed.

Lemma endswith_app (p s : str) : endswith p (s ++ p) = true.
Proof. unfold endswith. rewrite rev_app_distr. apply startswith_app. Qed.

Lemma skipn_length_app {A} (l1 l2 : list A) : skipn (length l1) (l1 ++ l2) = l2.
Proof. induction l1 as [|x l1 IH]; cbn; [reflexivity | exact IH]. Qed.

Lemma basename_join (path f : str) :
  entry_name f = true -> basename (path_join path f) = f.
Proof.
  unfold entry_name. rewrite negb_true_iff. intros Hf.
  assert (Hrev : forallb (fun c => negb (Ascii.eqb c "/")) (rev f) = true).
  { rewrite <- existsb_reverse in Hf. clear -Hf.
    induction (rev f) as [|c l IH]; cbn in *; [reflexivity|].
    apply orb_false_iff in Hf as [-> Hl]. now rewrite IH. }
  assert (Hstart : startswith (lit "/") f = false).
  { destruct f as [|c f]; [reflexivity|].
    cbn [existsb] in Hf. cbn [startswith lit String.list_ascii_of_string].
    apply orb_false_iff in Hf as [Hc _].
    rewrite Ascii.eqb_sym, Hc. reflexivity. }
  unfold path_join, basename. rewrite Hstart.
  destruct path as [|a path].
  - cbn [app]. rewrite <- (app_nil_r (rev f)).
    rewrite takewhile_app_stop; [apply rev_involutive | exact Hrev | exact I].
  - destruct (endswith (lit "/") (a :: path)) eqn:E.
    + rewrite rev_app_distr. unfold endswith in E.
      destruct (rev (a :: path)) as [|c l]; [discriminate E|].
      cbn [startswith lit String.list_ascii_of_string rev app] in E.
      rewrite andb_true_r in E.
      rewrite takewhile_app_stop; [apply rev_involutive | exact Hrev |].
      rewrite Ascii.eqb_sym, E. reflexivity.
    + rewrite !rev_app_distr, <- app_assoc.
      rewrite takewhile_app_stop; [apply rev_involutive | exact Hrev |].
      reflexivity.
Qed.

Lemma int_of_digits_nonneg (digits : str) :
  forallb isdigit digits = true -> (0 <= int_of_digits digits)%Z.
Proof.
  unfold int_of_digits. assert (H0 : (0 <= 0)%Z) by lia. revert H0.
  generalize 0%Z at 2 4 as n.
  induction digits as [|d digits IH]; intros n Hn Hd;
    cbn [fold_left forallb] in *; [exact Hn|].
  apply andb_true_iff in Hd as [Hd Hds]. apply IH; [|exact Hds].
  unfold isdigit in Hd. apply andb_true_iff in Hd as [Hlo _].
  apply N.leb_le in Hlo. unfold digit_value. lia.
Qed.

Lemma takewhile_all {A} (p : A -> bool) (l : list A) :
  forallb p (takewhile p l) = true.
Proof.
  induction l as [|x l IH]; cbn; [reflexivity|].
  destruct (p x) eqn:E; cbn; [now rewrite E|reflexivity].
Qed.

Lemma search_digits (prefix s group : str) :
  search prefix s = Some group -> forallb isdigit group = true.
Proof.
  induction s as [|c s IH]; cbn [search].
  - unfold match_here. destruct (startswith prefix []); [|discriminate].
    destruct prefix; cbn; discriminate.
  - destruct (match_here prefix (c :: s)) as [g|] eqn:E; [|exact IH].
    intros [= <-]. unfold match_here in E.
    destruct (startswith prefix (c :: s)); [|discriminate].
    pose proof (takewhile_all isdigit (skipn (length prefix) (c :: s))) as Hall.
    destruct (takewhile isdigit (skipn (length prefix) (c :: s)));
      [discriminate|]. now injection E as <-.
Qed.

Lemma extract_number_cases (f prefix : str) :
  (search prefix f = None /\ extract_number f prefix = (-1)%Z) \/
  (search prefix f <> None /\ (0 <= extract_number f prefix)%Z).
Proof.
  unfold extract_number. destruct (search prefix f) as [g|] eqn:E.
  - right. split; [discriminate|].
    apply int_of_digits_nonneg. now apply (search_digits prefix f).
  - now left.
Qed.

Lemma search_numbered_name (prefix digits rest : str) :
  digits <> [] -> forallb isdigit digits = true ->
  match rest with [] => True | c :: _ => isdigit c = false end ->
  search prefix (prefix ++ digits ++ rest) = Some digits.
Proof.
  intros Hne Hd Hrest.
  assert (E : match_here prefix (prefix ++ digits ++ rest) = Some digits).
  { unfold match_here. rewrite startswith_app, skipn_length_app.
    rewrite (takewhile_app_stop isdigit digits rest Hd Hrest).
    destruct digits; [contradiction | reflexivity]. }
  destruct (prefix ++ digits ++ rest); cbn [search]; now rewrite E.
Qed.

Lemma fasta_paths_sorted_names (listing : list str) (path prefix : str) :
  forallb entry_name listing = true ->
  fasta_paths (FastaDataset_init listing path prefix) =
  map (path_join path)
      (sort_by (fun f => extract_number f prefix) (selected prefix listing)).
Proof.
  intros Hnames. unfold FastaDataset_init, selected. cbn [fasta_paths].
  rewrite sort_by_map. f_equal. apply sort_by_ext_in.
  intros f Hf. apply filter_In in Hf as [Hf _].
  rewrite forallb_forall in Hnames. now rewrite basename_join by auto.
Qed.

(** C8.  For a directory listing (names without "/") the index holds the
    joined paths of the names that start with the prefix and end with
    ".fasta", each once per occurrence, in the order of the number that
    follows the prefix: numbers do not decrease along the index; a name of
    the form prefix, digits, ".fasta" has the value of its digits as number
    and is kept; a name in which no number follows the prefix counts as -1,
    so that all such names come first. *)
Theorem FastaDataset_index (listing : list str) (path prefix : str) :
  forallb entry_name listing = true ->
  let number := fun f => extract_number f prefix in
  let kept := sort_by number (selected prefix listing) in
  fasta_paths (FastaDataset_init listing path prefix) = map (path_join path) kept /\
  map basename (fasta_paths (FastaDataset_init listing path prefix)) = kept /\
  Permutation kept (selected prefix listing) /\
  (forall f, In f kept <->
             In f listing /\ startswith prefix f = true /\
             endswith (lit ".fasta") f = true) /\
  StronglySorted (fun f f' => (number f <= number f')%Z) kept /\
  (exists unnumbered numbered,
      kept = unnumbered ++ numbered /\
      Forall (fun f => search prefix f = None /\ number f = (-1)%Z) unnumbered /\
      Forall (fun f => search prefix f <> None /\ (0 <= number f)%Z) numbered) /\
  (forall digits,
      digits <> [] -> forallb isdigit digits = true ->
      number (prefix ++ digits ++ lit ".fasta") = int_of_digits digits /\
      (In (prefix ++ digits ++ lit ".fasta") listing ->
       In (prefix ++ digits ++ lit ".fasta") kept)).
Proof.
  intros Hnames number kept.
  assert (Hperm : Permutation kept (selected prefix listing))
    by apply sort_by_perm.
  assert (Hin : forall f, In f kept <->
                          In f listing /\ startswith prefix f = true /\
                          endswith (lit ".fasta") f = true).
  { intros f. split.
    - intros H. apply (Permutation_in _ Hperm), filter_In in H as [H1 H2].
      now apply andb_true_iff in H2.
    - intros (H1 & H2 & H3). apply (Permutation_in _ (Permutation_sym Hperm)).
      apply filter_In. split; [exact H1 | now rewrite H2, H3]. }
  assert (Hpaths : fasta_paths (FastaDataset_init listing path prefix)
                   = map (path_join path) kept)
    by now apply fasta_paths_sorted_names.
  split; [exact Hpaths|]. split; [|split; [exact Hperm|split; [exact Hin|split]]].
  - rewrite Hpaths, map_map. rewrite <- (map_id kept) at 2.
    apply map_ext_in. intros f Hf. apply basename_join.
    rewrite forallb_forall in Hnames. apply Hnames. now apply Hin.
  - apply sort_by_sorted.
  - split.
    + destruct (sorted_split number kept (sort_by_sorted number _))
        as (front & back & E & Hf & Hb).
      { apply Forall_forall. intros f _.
        destruct (extract_number_cases f prefix) as [[_ H]|[_ H]]; auto. }
      exists front, back. split; [exact E|]. split.
      * revert Hf. apply Forall_impl. intros f Hkey. split; [|exact Hkey].
        destruct (extract_number_cases f prefix) as [[H _]|[_ H]]; [exact H|].
        unfold number in Hkey. lia.
      * revert Hb. apply Forall_impl. intros f Hkey. split; [|exact Hkey].
        destruct (extract_number_cases f prefix) as [[_ H]|[H _]]; [|exact H].
        unfold number in Hkey. lia.
    + intros digits Hne Hd. split.
      * unfold number, extract_number.
        now rewrite (search_numbered_name prefix digits (lit ".fasta") Hne Hd).
      * intros H. apply Hin. split; [exact H|]. split.
        -- apply startswith_app.
        -- rewrite app_assoc. apply endswith_app.
Qed.

Lemma FastaDataset_index_witness :
  fasta_paths
    (FastaDataset_init
       [lit "test10.fasta"; lit "test2.fasta"; lit "readme.txt";
        lit "testx.fasta"] (lit "data") (lit "test"))
  = [lit "data/testx.fasta"; lit "data/test2.fasta"; lit "data/test10.fasta"].
Proof.
  destruct (FastaDataset_index
              [lit "test10.fasta"; lit "test2.fasta"; lit "readme.txt";
               lit "testx.fasta"] (lit "data") (lit "test") eq_refl)
    as (E & _).
  rewrite E. reflexivity.
Defined.

(* ================================================================== *)
(** * Further properties *)

(** ** Deduplication and duplicate counts together *)

Lemma first_occurrences_from_subsequence (records : list record) :
  forall earlier, subsequence (first_occurrences_from earlier records) records.
Proof.
  induction records as [|[h s] rest IH]; intros earlier; cbn; [constructor|].
  destruct (existsb (str_eqb s) earlier); constructor; apply IH.
Qed.

(** X1.  Deduplication selects records of the input in their order, keeps
    every sequence of the input, and keeps it once. *)
Theorem make_unique_records_selects (records : list record) :
  subsequence (make_unique_records records) records /\
  NoDup (map snd (make_unique_records records)) /\
  (forall s, In s (map snd (make_unique_records records)) <->
             In s (map snd records)).
Proof.
  rewrite make_unique_first_occurrences. unfold first_occurrences.
  split; [apply first_occurrences_from_subsequence|].
  split; [apply first_occurrences_from_NoDup|].
  intros s. rewrite first_occurrences_from_seqs. cbn. tauto.
Qed.

Lemma occ_NoDup_iff (l : list str) :
  NoDup l <-> forall s, (occ str_eqb s l <= 1)%Z.
Proof.
  split; [intros H s; now apply (occ_NoDup str_eqb str_eqb_eq)|].
  induction l as [|x l IH]; intros H; constructor.
  - intros Hin. specialize (H x).
    rewrite (occ_cons str_eqb), str_eqb_refl in H.
    assert (1 <= occ str_eqb x l)%Z; [|lia].
    clear -Hin. induction l as [|y l IHl]; [destruct Hin|].
    rewrite (occ_cons str_eqb). pose proof (occ_nonneg str_eqb x l).
    destruct Hin as [->|Hin]; [rewrite str_eqb_refl; lia|].
    specialize (IHl Hin). destruct (str_eqb y x); lia.
  - apply IH. intros s. specialize (H s).
    rewrite (occ_cons str_eqb) in H. destruct (str_eqb x s); lia.
Qed.

Lemma Counter_entries (l : list str) (s : str) (c : Z) :
  In (s, c) (Counter str_eqb l) <-> c = occ str_eqb s l /\ (1 <= c)%Z.
Proof.
  pose proof (Counter_get str_eqb str_eqb_eq l s) as Hget.
  pose proof (occ_nonneg str_eqb s l) as Hpos.
  split.
  - intros Hin.
    apply (In_dict_get str_eqb str_eqb_eq) in Hin;
      [|apply (Counter_NoDup str_eqb str_eqb_eq)].
    rewrite Hget in Hin. destruct (occ str_eqb s l =? 0)%Z eqn:E; [discriminate|].
    apply Z.eqb_neq in E. injection Hin as <-. lia.
  - intros [-> H1]. apply (dict_get_In str_eqb str_eqb_eq). rewrite Hget.
    destruct (occ str_eqb s l =? 0)%Z eqn:E; [apply Z.eqb_eq in E; lia|reflexivity].
Qed.

Lemma seqs_map_snd (records : list record) :
  map (fun '(_, seq) => seq) records = map snd records.
Proof. apply map_ext. now intros []. Qed.

(** X2.  A collection is left as it is by deduplication exactly when no
    duplicate is reported, and exactly when its sequences are distinct. *)
Theorem make_unique_records_fixed_iff (records : list record) :
  (make_unique_records records = records <-> NoDup (map snd records)) /\
  (find_duplicate_sequences records = [] <-> NoDup (map snd records)).
Proof.
  split.
  - rewrite make_unique_first_occurrences. unfold first_occurrences. split.
    + intros E. rewrite <- E. apply first_occurrences_from_NoDup.
    + intros H. apply first_occurrences_from_id; [exact H | intros s _ []].
  - rewrite find_duplicate_sequences_filter, seqs_map_snd, occ_NoDup_iff. split.
    + intros E s.
      destruct (Z.le_gt_cases (occ str_eqb s (map snd records)) 1) as [H|H];
        [exact H|].
      assert (Hin : In (s, occ str_eqb s (map snd records))
                       (filter (fun '(_, count) => (1 <? count)%Z)
                               (Counter str_eqb (map snd records)))).
      { apply filter_In. split; [apply Counter_entries; lia|].
        apply Z.ltb_lt. lia. }
      rewrite E in Hin. destruct Hin.
    + intros H. apply filter_none. intros [s c] Hin.
      apply Counter_entries in Hin as [-> _]. apply Z.ltb_ge, H.
Qed.

Lemma Counter_keys_loop (records : list record) :
  forall (c : dict (K:=str) (V:=Z)) (earlier : list str),
    (forall s, In s (dict_keys c) <-> In s earlier) ->
    dict_keys (fold_left (counter_incr str_eqb) (map snd records) c)
    = dict_keys c ++ map snd (first_occurrences_from earlier records).
Proof.
  induction records as [|[h s] rest IH]; intros c earlier Hsame;
    cbn [map snd fold_left first_occurrences_from].
  - now rewrite app_nil_r.
  - assert (Hkeys : dict_keys (counter_incr str_eqb c s) =
                    if existsb (str_eqb s) earlier then dict_keys c
                    else dict_keys c ++ [s]).
    { unfold counter_incr. rewrite dict_keys_set.
      destruct (dict_contains str_eqb c s) eqn:E.
      - apply (dict_contains_In str_eqb str_eqb_eq), Hsame in E.
        apply existsb_str_eqb in E. now rewrite E.
      - destruct (existsb (str_eqb s) earlier) eqn:E'; [|reflexivity].
        apply existsb_str_eqb, Hsame in E'.
        apply (dict_contains_In str_eqb str_eqb_eq) in E'. congruence. }
    rewrite (IH _ (earlier ++ [s])).
    + rewrite Hkeys. destruct (existsb (str_eqb s) earlier); [reflexivity|].
      cbn [map snd]. now rewrite <- app_assoc.
    + intros x. rewrite Hkeys, in_app_iff.
      destruct (existsb (str_eqb s) earlier) eqn:E.
      * apply existsb_str_eqb in E. rewrite Hsame. cbn.
        split; [tauto | intros [H|[<-|[]]]; assumption].
      * rewrite in_app_iff, Hsame. reflexivity.
Qed.

Lemma Counter_keys (records : list record) :
  dict_keys (Counter str_eqb (map snd records))
  = map snd (make_unique_records records).
Proof.
  rewrite make_unique_first_occurrences. unfold Counter, first_occurrences.
  now rewrite (Counter_keys_loop records [] []).
Qed.

Lemma dict_as_map {K V} (f : K -> V) (d : dict (K:=K) (V:=V)) :
  (forall k v, In (k, v) d -> v = f k) ->
  d = map (fun k => (k, f k)) (dict_keys d).
Proof.
  induction d as [|[k v] d IH]; intros H; cbn; [reflexivity|].
  rewrite <- (H k v) by now left. f_equal. apply IH.
  intros k' v' Hin. apply H. now right.
Qed.

Lemma Counter_as_map (records : list record) :
  Counter str_eqb (map snd records)
  = map (fun s => (s, occurrences s records))
        (map snd (make_unique_records records)).
Proof.
  rewrite <- Counter_keys. apply dict_as_map. intros s c Hin.
  apply Counter_entries in Hin as [-> _].
  rewrite <- seqs_map_snd. apply occ_seqs.
Qed.

Lemma find_duplicate_sequences_as_map (records : list record) :
  find_duplicate_sequences records
  = map (fun s => (s, occurrences s records))
        (filter (fun s => (1 <? occurrences s records)%Z)
                (map snd (make_unique_records records))).
Proof.
  rewrite find_duplicate_sequences_filter, seqs_map_snd, Counter_as_map.
  induction (map snd (make_unique_records records)) as [|s l IH]; cbn;
    [reflexivity|].
  destruct (1 <? occurrences s records)%Z; cbn; now rewrite IH.
Qed.

(** X3.  The report of duplicates lists, in the order in which deduplication
    keeps them, the sequences that occur at least twice, each with the number
    of its occurrences. *)
Theorem find_duplicate_sequences_in_kept_order (records : list record) :
  find_duplicate_sequences records
  = map (fun s => (s, occurrences s records))
        (filter (fun s => (1 <? occurrences s records)%Z)
                (map snd (make_unique_records records))).
Proof. exact (find_duplicate_sequences_as_map records). Qed.

Lemma sum_Z_excess (f : str -> Z) (keys : list str) :
  (forall s, In s keys -> (1 <= f s)%Z) ->
  sum_Z (map (fun s => f s - 1) (filter (fun s => 1 <? f s) keys))%Z
  = (sum_Z (map f keys) - Z.of_nat (length keys))%Z.
Proof.
  induction keys as [|s keys IH]; intros H; [reflexivity|].
  cbn [filter map length]. rewrite sum_Z_cons.
  specialize (IH (fun x Hx => H x (or_intror Hx))).
  specialize (H s (or_introl eq_refl)).
  destruct (1 <? f s)%Z eqn:E.
  - cbn [map]. rewrite sum_Z_cons, IH. lia.
  - apply Z.ltb_ge in E. rewrite IH. lia.
Qed.

(** X4.  The records that deduplication drops are counted by the report of
    duplicates: a sequence reported [c] times accounts for [c - 1] of them. *)
Theorem dropped_records_are_the_reported_duplicates (records : list record) :
  Z.of_nat (length records)
  = (Z.of_nat (length (make_unique_records records))
     + sum_Z (map (fun c => c - 1)
                  (dict_values (find_duplicate_sequences records))))%Z.
Proof.
  pose proof (sum_values_Counter_loop str_eqb (map snd records) []) as Hsum.
  fold (Counter str_eqb (map snd records)) in Hsum.
  rewrite Counter_as_map in Hsum. unfold dict_values in Hsum.
  rewrite map_map in Hsum. cbn [snd] in Hsum.
  rewrite length_map in Hsum. change (sum_Z (map snd [])) with 0%Z in Hsum.
  rewrite find_duplicate_sequences_as_map.
  unfold dict_values. rewrite !map_map. cbn [snd].
  rewrite <- (map_map (fun s => occurrences s records) (fun c => (c - 1)%Z)).
  rewrite map_map.
  rewrite (sum_Z_excess (fun s => occurrences s records)).
  - rewrite length_map, Hsum. unfold record. lia.
  - intros s Hs. rewrite <- Counter_keys in Hs.
    unfold dict_keys in Hs. apply in_map_iff in Hs as ([s' c] & <- & Hin).
    apply Counter_entries in Hin as [-> H1]. cbn [fst].
    rewrite <- occ_seqs, seqs_map_snd. exact H1.
Qed.

Lemma first_occurrences_from_app (a b : list record) :
  forall earlier,
    first_occurrences_from earlier (a ++ b)
    = first_occurrences_from earlier a
      ++ first_occurrences_from (earlier ++ map snd a) b.
Proof.
  induction a as [|[h s] a IH]; intros earlier; cbn [app map snd first_occurrences_from].
  - now rewrite app_nil_r.
  - rewrite IH, <- app_assoc. cbn [app].
    destruct (existsb (str_eqb s) earlier); reflexivity.
Qed.

Lemma first_occurrences_from_filter (l : list record) :
  forall known earlier,
    first_occurrences_from (known ++ earlier) l
    = filter (fun r => negb (existsb (str_eqb (snd r)) known))
             (first_occurrences_from earlier l).
Proof.
  induction l as [|[h s] l IH]; intros known earlier;
    cbn [first_occurrences_from]; [reflexivity|].
  rewrite existsb_app, <- app_assoc, IH.
  destruct (existsb (str_eqb s) earlier); [now rewrite orb_true_r|].
  rewrite orb_false_r. cbn [filter snd].
  destruct (existsb (str_eqb s) known); reflexivity.
Qed.

(** X5.  Deduplicating two collections put end to end keeps what
    deduplication keeps of the first, then what it keeps of the second whose
    sequence the first does not hold. *)
Theorem make_unique_records_app (a b : list record) :
  make_unique_records (a ++ b)
  = make_unique_records a
    ++ filter (fun r => negb (existsb (str_eqb (snd r)) (map snd a)))
              (make_unique_records b).
Proof.
  rewrite !make_unique_first_occurrences. unfold first_occurrences.
  rewrite first_occurrences_from_app. f_equal.
  rewrite <- (first_occurrences_from_filter b (map snd a) []).
  cbn [app]. now rewrite app_nil_r.
Qed.

(** ** Base composition: more properties *)

Lemma compute_base_distribution_value (seqs : list str) :
  compute_base_distribution seqs =
  map (fun b =>
         (b, if (canonical_total seqs =? 0)%Z then truediv 1 4
             else truediv (base_count b seqs) (canonical_total seqs)))
      ACGT.
Proof.
  unfold compute_base_distribution. rewrite count_bases_total.
  destruct (canonical_total seqs =? 0)%Z; [reflexivity|].
  rewrite (dict_of_NoDup Ascii.eqb Ascii.eqb_eq).
  - cbn [ACGT lit String.list_ascii_of_string map].
    rewrite !count_bases_get by reflexivity. reflexivity.
  - rewrite map_map. cbn. repeat constructor; cbn; intuition discriminate.
Qed.

Lemma canonical_indicator (x : ascii) :
  (if is_canonical x then 1 else 0)%Z
  = ((if Ascii.eqb x "A" then 1 else 0) + (if Ascii.eqb x "C" then 1 else 0)
     + (if Ascii.eqb x "G" then 1 else 0) + (if Ascii.eqb x "T" then 1 else 0))%Z.
Proof. destruct x as [[] [] [] [] [] [] [] []]; reflexivity. Qed.

Lemma canonical_split (l : str) :
  Z.of_nat (length (filter is_canonical l))
  = (occ Ascii.eqb "A" l + occ Ascii.eqb "C" l
     + occ Ascii.eqb "G" l + occ Ascii.eqb "T" l)%Z.
Proof.
  induction l as [|x l IH]; [reflexivity|].
  rewrite !(occ_cons Ascii.eqb). cbn [filter].
  pose proof (canonical_indicator x) as Hx.
  destruct (is_canonical x); cbn [length]; lia.
Qed.

Lemma canonical_total_split (seqs : list str) :
  canonical_total seqs
  = (base_count "A" seqs + base_count "C" seqs
     + base_count "G" seqs + base_count "T" seqs)%Z.
Proof. apply canonical_split. Qed.

Lemma base_count_nonneg (b : ascii) (seqs : list str) : (0 <= base_count b seqs)%Z.
Proof. apply occ_nonneg. Qed.

Lemma share_bounds (c t : Z) :
  (0 <= c <= t)%Z -> (0 < t)%Z -> (0 <= truediv c t <= 1)%Q.
Proof.
  intros Hc Ht. unfold truediv.
  assert (Hqt : (0 < inject_Z t)%Q) by (change 0%Q with (inject_Z 0); now rewrite <- Zlt_Qlt).
  assert (Hq0 : (0 <= inject_Z c)%Q) by (change 0%Q with (inject_Z 0); rewrite <- Zle_Qle; lia).
  assert (Hq1 : (inject_Z c <= inject_Z t)%Q) by (rewrite <- Zle_Qle; lia).
  split.
  - apply Qle_shift_div_l; [exact Hqt | lra].
  - apply Qle_shift_div_r; [exact Hqt | lra].
Qed.

(** X6.  Whatever the sequences, the four doubles returned form a
    probability vector up to rounding: each lies between 0 and 1, and their
    sum differs from 1 by at most [2^-52].  (The values before rounding sum
    to 1; the doubles need not: for the one sequence ACGGGT they sum to
    [1 - 2^-55].) *)
Theorem compute_base_distribution_simplex (seqs : list str) :
  Forall (fun v => (0 <= binary64 v <= 1)%Q)
         (dict_values (compute_base_distribution seqs)) /\
  (Qabs (sum_Q (map binary64 (dict_values (compute_base_distribution seqs))) - 1)
   <= pow2 (-52))%Q.
Proof.
  rewrite compute_base_distribution_value.
  pose proof (canonical_total_split seqs) as Hsplit.
  pose proof (base_count_nonneg "A" seqs) as HA.
  pose proof (base_count_nonneg "C" seqs) as HC.
  pose proof (base_count_nonneg "G" seqs) as HG.
  pose proof (base_count_nonneg "T" seqs) as HT.
  destruct (canonical_total seqs =? 0)%Z eqn:E.
  - split; [repeat constructor; discriminate | vm_compute; discriminate].
  - apply Z.eqb_neq in E.
    assert (Ht : (0 < canonical_total seqs)%Z) by lia.
    cbn [ACGT lit String.list_ascii_of_string map dict_values snd].
    pose proof (share_bounds (base_count "A" seqs) (canonical_total seqs)
                  ltac:(lia) Ht) as BA.
    pose proof (share_bounds (base_count "C" seqs) (canonical_total seqs)
                  ltac:(lia) Ht) as BC.
    pose proof (share_bounds (base_count "G" seqs) (canonical_total seqs)
                  ltac:(lia) Ht) as BG.
    pose proof (share_bounds (base_count "T" seqs) (canonical_total seqs)
                  ltac:(lia) Ht) as BT.
    assert (Hone : (truediv (base_count "A" seqs) (canonical_total seqs)
                    + truediv (base_count "C" seqs) (canonical_total seqs)
                    + truediv (base_count "G" seqs) (canonical_total seqs)
                    + truediv (base_count "T" seqs) (canonical_total seqs) == 1)%Q).
    { unfold truediv.
      assert (Hq : (inject_Z (canonical_total seqs) ==
                    inject_Z (base_count "A" seqs) + inject_Z (base_count "C" seqs)
                    + inject_Z (base_count "G" seqs) + inject_Z (base_count "T" seqs))%Q)
        by (rewrite Hsplit, !inject_Z_plus; reflexivity).
      assert (Hne : ~ (inject_Z (canonical_total seqs) == 0)%Q).
      { intros H0. apply E.
        apply (proj1 (inject_Z_injective (canonical_total seqs) 0)). exact H0. }
      set (t := inject_Z (canonical_total seqs)) in *.
      set (a := inject_Z (base_count "A" seqs)) in *.
      set (c := inject_Z (base_count "C" seqs)) in *.
      set (g := inject_Z (base_count "G" seqs)) in *.
      set (u := inject_Z (base_count "T" seqs)) in *.
      clearbody t a c g u.
      setoid_replace (a / t + c / t + g / t + u / t)%Q
        with ((a + c + g + u) / t)%Q by (field; exact Hne).
      rewrite <- Hq. field. exact Hne. }
    set (vA := truediv (base_count "A" seqs) (canonical_total seqs)) in *.
    set (vC := truediv (base_count "C" seqs) (canonical_total seqs)) in *.
    set (vG := truediv (base_count "G" seqs) (canonical_total seqs)) in *.
    set (vT := truediv (base_count "T" seqs) (canonical_total seqs)) in *.
    clearbody vA vC vG vT.
    assert (Hone1 : (binary64 1 == 1)%Q) by reflexivity.
    assert (Hr : forall v, (0 <= v <= 1)%Q ->
                 (0 <= binary64 v <= 1)%Q /\
                 (v - u53 * v - eta <= binary64 v <= v + u53 * v + eta)%Q).
    { intros v Hv. split; [split|].
      - apply binary64_nonneg. lra.
      - rewrite <- Hone1. apply binary64_mono; lra.
      - apply round_any. split; lra. }
    destruct (Hr vA BA) as [RA EA]. destruct (Hr vC BC) as [RC EC].
    destruct (Hr vG BG) as [RG EG]. destruct (Hr vT BT) as [RT ET].
    split; [repeat (apply Forall_cons; [assumption|]); apply Forall_nil|].
    cbn [map]. unfold sum_Q. cbn [fold_left].
    destruct eta_small as [He0 He1].
    assert (He2 : (eta <= u53 * (1 # 4))%Q).
    { eapply Qle_trans; [exact He1|]. vm_compute. discriminate. }
    assert (Hp : (pow2 (-52) == 2 * u53)%Q) by reflexivity.
    rewrite Hp. apply Qabs_Qle_condition.
    set (fA := binary64 vA) in *. set (fC := binary64 vC) in *.
    set (fG := binary64 vG) in *. set (fT := binary64 vT) in *.
    clearbody fA fC fG fT. unfold u53 in *. split; lra.
Qed.

Lemma upper_upper (c : ascii) : upper (upper c) = upper c.
Proof. destruct c as [[] [] [] [] [] [] [] []]; reflexivity. Qed.

Lemma upper_lower (c : ascii) : upper (lower c) = upper c.
Proof. destruct c as [[] [] [] [] [] [] [] []]; reflexivity. Qed.

Lemma length_filter_perm {A} (f : A -> bool) (l l' : list A) :
  Permutation l l' -> length (filter f l) = length (filter f l').
Proof.
  induction 1 as [|x l l' _ IH|x y l|l l' l'' _ IH1 _ IH2]; cbn.
  - reflexivity.
  - destruct (f x); cbn; now rewrite IH.
  - destruct (f x), (f y); reflexivity.
  - now rewrite IH1.
Qed.

Lemma compute_base_distribution_chars (seqs seqs' : list str) :
  Permutation (map upper (concat seqs)) (map upper (concat seqs')) ->
  compute_base_distribution seqs = compute_base_distribution seqs'.
Proof.
  intros H. rewrite !compute_base_distribution_value.
  assert (Ht : canonical_total seqs = canonical_total seqs').
  { unfold canonical_total. f_equal. now apply length_filter_perm. }
  assert (Hb : forall b, base_count b seqs = base_count b seqs').
  { intros b. unfold base_count, occ. f_equal. now apply length_filter_perm. }
  rewrite Ht. apply map_ext. intros b. now rewrite Hb.
Qed.

Lemma Permutation_concat {A} (l l' : list (list A)) :
  Permutation l l' -> Permutation (concat l) (concat l').
Proof.
  induction 1 as [|x l l' _ IH|x y l|l l' l'' _ IH1 _ IH2]; cbn.
  - reflexivity.
  - now apply Permutation_app_head.
  - rewrite !app_assoc. apply Permutation_app_tail, Permutation_app_comm.
  - now transitivity (concat l').
Qed.

(** X7.  The distribution does not depend on the case of the letters. *)
Theorem compute_base_distribution_ignores_case (seqs : list str) :
  compute_base_distribution (map (map upper) seqs)
  = compute_base_distribution seqs /\
  compute_base_distribution (map (map lower) seqs)
  = compute_base_distribution seqs.
Proof.
  split; apply compute_base_distribution_chars;
    rewrite <- concat_map, map_map;
    [erewrite map_ext; [reflexivity | apply upper_upper]
    |erewrite map_ext; [reflexivity | apply upper_lower]].
Qed.

(** X8.  The distribution depends on the characters only, not on how they
    are spread over the sequences nor on the order of the sequences. *)
Theorem compute_base_distribution_ignores_layout (seqs seqs' : list str) :
  (Permutation (concat seqs) (concat seqs') ->
   compute_base_distribution seqs = compute_base_distribution seqs') /\
  (Permutation seqs seqs' ->
   compute_base_distribution seqs = compute_base_distribution seqs').
Proof.
  split; intros H; apply compute_base_distribution_chars, Permutation_map.
  - exact H.
  - now apply Permutation_concat.
Qed.

Lemma compute_base_distribution_ignores_layout_witness :
  compute_base_distribution [lit "ACG"; lit "TTA"]
  = compute_base_distribution [lit "TTAAC"; lit "G"].
Proof.
  apply (proj1 (compute_base_distribution_ignores_layout
                  [lit "ACG"; lit "TTA"] [lit "TTAAC"; lit "G"])).
  cbn. apply (Permutation_app_comm (lit "ACG") (lit "TTA")).
Defined.

(** X9.  Characters other than the four bases, in either case, do not count:
    removing them leaves the distribution as it is. *)
Theorem compute_base_distribution_ignores_others (seqs : list str) :
  compute_base_distribution
    (map (filter (fun c => is_canonical (upper c))) seqs)
  = compute_base_distribution seqs.
Proof.
  rewrite !compute_base_distribution_value.
  assert (Hf : forall p, length (filter p (map upper (concat
                   (map (filter (fun c => is_canonical (upper c))) seqs))))
                 = length (filter (fun c => p c && is_canonical c)
                                  (map upper (concat seqs)))).
  { intros p. induction seqs as [|s seqs IH]; [reflexivity|].
    cbn [map concat]. rewrite !map_app, !filter_app, !length_app, IH. f_equal.
    clear IH. induction s as [|c s IHs]; [reflexivity|].
    cbn [filter map]. destruct (is_canonical (upper c)) eqn:E; cbn [map filter].
    - rewrite andb_true_r. destruct (p (upper c)); cbn [length]; now rewrite IHs.
    - rewrite andb_false_r. exact IHs. }
  assert (Ht : canonical_total
                 (map (filter (fun c => is_canonical (upper c))) seqs)
               = canonical_total seqs).
  { unfold canonical_total. rewrite Hf. do 2 f_equal. apply filter_ext.
    intros c. now destruct (is_canonical c). }
  rewrite Ht. apply map_ext_in. intros b Hb.
  assert (Hcan : is_canonical b = true).
  { unfold is_canonical. apply existsb_exists. exists b.
    split; [exact Hb | apply Ascii.eqb_refl]. }
  replace (base_count b (map (filter (fun c => is_canonical (upper c))) seqs))
    with (base_count b seqs); [reflexivity|].
  unfold base_count, occ. rewrite Hf. do 2 f_equal. apply filter_ext.
  intros c. destruct (Ascii.eqb c b) eqn:E; [|reflexivity].
  apply Ascii.eqb_eq in E. subst c. now rewrite Hcan.
Qed.

(** ** Ambiguity resolution: more properties *)

Lemma resolve_loop_trace (seq : str) (pA pC pG pT : Q) :
  forall new_chars g,
  exists out,
    resolve_loop seq [pA; pC; pG; pT] new_chars g
    = Ok (new_chars ++ out, rng_drop (length (filter is_symbol seq)) g) /\
    Forall2 resolved_char seq out.
Proof.
  induction seq as [|ch seq IH]; intros new_chars g; cbn [resolve_loop filter].
  - exists []. rewrite app_nil_r. split; [reflexivity | constructor].
  - unfold is_symbol at 1. unfold dict_contains.
    destruct (dict_get Ascii.eqb AMBIGUOUS_NUCLEOTIDES (upper ch)) as [bases|] eqn:E.
    + rewrite (weights_for_symbol_value _ _ pA pC pG pT E). cbn [bind].
      destruct (draw_for_symbol _ _ pA pC pG pT g E) as (i & chosen & Hc & Hi & _).
      rewrite Hc. cbn [bind].
      destruct (IH (new_chars ++ [if isupper ch then chosen else lower chosen])
                   (snd (random g))) as (out & Hout & Hall).
      exists ((if isupper ch then chosen else lower chosen) :: out).
      rewrite Hout, <- app_assoc. split; [reflexivity|].
      constructor; [|exact Hall].
      unfold resolved_char. rewrite E. exists chosen.
      split; [now apply nth_error_In in Hi | reflexivity].
    + destruct (IH (new_chars ++ [ch]) g) as (out & Hout & Hall).
      exists (ch :: out). rewrite Hout, <- app_assoc.
      split; [reflexivity|]. constructor; [|exact Hall].
      unfold resolved_char. now rewrite E.
Qed.

Lemma resolve_trace (seq : str) (base_probs : dict (K:=ascii) (V:=Q)) (g : rng) :
  forallb (dict_contains Ascii.eqb base_probs) ACGT = true ->
  exists out,
    resolve_ambiguous_sequence seq base_probs g
    = Ok (out, rng_drop (length (filter is_symbol seq)) g) /\
    Forall2 resolved_char seq out.
Proof.
  intros H. destruct (base_probs_tuple_ok base_probs H) as (pA & pC & pG & pT & E).
  unfold resolve_ambiguous_sequence. rewrite E. cbn [bind].
  destruct (resolve_loop_trace seq pA pC pG pT [] g) as (out & Hout & Hall).
  now exists out.
Qed.

(** X10.  Resolution draws one random number for each character that is an
    ambiguity symbol, and none for the others: the generator it returns is
    the one it was given, advanced by the number of symbols. *)
Theorem resolve_draws_once_per_symbol
    (seq : str) (base_probs : dict (K:=ascii) (V:=Q)) (g : rng) :
  forallb (dict_contains Ascii.eqb base_probs) ACGT = true ->
  exists out,
    resolve_ambiguous_sequence seq base_probs g
    = Ok (out, rng_drop (length (filter is_symbol seq)) g).
Proof.
  intros H. destruct (resolve_trace seq base_probs g H) as (out & E & _).
  now exists out.
Qed.

Lemma resolve_draws_once_per_symbol_witness :
  exists out,
    resolve_ambiguous_sequence (lit "ARN-yT")
      [("A", 0.25%Q); ("C", 0.25%Q); ("G", 0.25%Q); ("T", 0.25%Q)]
      (fun n => Z.of_nat n)
    = Ok (out, rng_drop 2 (fun n => Z.of_nat n)).
Proof.
  exact (resolve_draws_once_per_symbol (lit "ARN-yT")
           [("A", 0.25%Q); ("C", 0.25%Q); ("G", 0.25%Q); ("T", 0.25%Q)]
           (fun n => Z.of_nat n) eq_refl).
Defined.

Lemma resolved_char_plain (seq out : str) :
  Forall2 resolved_char seq out ->
  forallb (fun ch => negb (is_symbol ch)) seq = true -> out = seq.
Proof.
  induction 1 as [|ch o seq out Hr _ IH]; cbn [forallb]; [reflexivity|].
  rewrite andb_true_iff, negb_true_iff. intros [Hch Hrest].
  rewrite (IH Hrest). f_equal.
  unfold is_symbol, dict_contains in Hch. unfold resolved_char in Hr.
  destruct (dict_get Ascii.eqb AMBIGUOUS_NUCLEOTIDES (upper ch));
    [discriminate | exact Hr].
Qed.

(** X11.  A sequence without ambiguity symbols is returned as it is, and the
    generator is left untouched. *)
Theorem resolve_plain_sequence
    (seq : str) (base_probs : dict (K:=ascii) (V:=Q)) (g : rng) :
  forallb (dict_contains Ascii.eqb base_probs) ACGT = true ->
  forallb (fun ch => negb (is_symbol ch)) seq = true ->
  resolve_ambiguous_sequence seq base_probs g = Ok (seq, g).
Proof.
  intros H Hplain. destruct (resolve_trace seq base_probs g H) as (out & E & Hall).
  rewrite E, (resolved_char_plain seq out Hall Hplain).
  replace (filter is_symbol seq) with (@nil ascii); [reflexivity|].
  symmetry. apply filter_none. intros ch Hin.
  rewrite forallb_forall in Hplain. now apply negb_true_iff, Hplain.
Qed.

Lemma resolve_plain_sequence_witness :
  resolve_ambiguous_sequence (lit "ACgt-N*acGT")
    [("A", 0.25%Q); ("C", 0.25%Q); ("G", 0.25%Q); ("T", 0.25%Q)]
    (fun n => Z.of_nat n)
  = Ok (lit "ACgt-N*acGT", fun n => Z.of_nat n).
Proof.
  exact (resolve_plain_sequence (lit "ACgt-N*acGT")
           [("A", 0.25%Q); ("C", 0.25%Q); ("G", 0.25%Q); ("T", 0.25%Q)]
           (fun n => Z.of_nat n) eq_refl eq_refl).
Defined.

Lemma resolved_char_not_symbol (ch o : ascii) :
  resolved_char ch o -> is_symbol o = false.
Proof.
  intros Hr. destruct (resolved_char_cases ch o Hr)
    as [[Hnone ->]|(bases & _ & _ & Hcan & _)].
  - unfold is_symbol, dict_contains. now rewrite Hnone.
  - unfold is_symbol, dict_contains. revert Hcan.
    unfold is_canonical. cbn [ACGT lit String.list_ascii_of_string existsb].
    destruct (Ascii.eqb (upper o) "A") eqn:EA;
      [apply Ascii.eqb_eq in EA; now rewrite EA|].
    destruct (Ascii.eqb (upper o) "C") eqn:EC;
      [apply Ascii.eqb_eq in EC; now rewrite EC|].
    destruct (Ascii.eqb (upper o) "G") eqn:EG;
      [apply Ascii.eqb_eq in EG; now rewrite EG|].
    destruct (Ascii.eqb (upper o) "T") eqn:ET;
      [apply Ascii.eqb_eq in ET; now rewrite ET|].
    discriminate.
Qed.

(** X12.  The result of resolution holds no ambiguity symbol, so resolving it
    again, with any distribution on the four bases and any generator, returns
    it unchanged without drawing. *)
Theorem resolve_twice
    (seq : str) (base_probs base_probs' : dict (K:=ascii) (V:=Q)) (g g2 : rng) :
  forallb (dict_contains Ascii.eqb base_probs) ACGT = true ->
  forallb (dict_contains Ascii.eqb base_probs') ACGT = true ->
  exists out g',
    resolve_ambiguous_sequence seq base_probs g = Ok (out, g') /\
    filter is_symbol out = [] /\
    resolve_ambiguous_sequence out base_probs' g2 = Ok (out, g2).
Proof.
  intros H H'. destruct (resolve_trace seq base_probs g H) as (out & E & Hall).
  assert (Hplain : forallb (fun ch => negb (is_symbol ch)) out = true).
  { clear E. induction Hall as [|ch o s out' Hr _ IH]; [reflexivity|].
    cbn [forallb]. now rewrite (resolved_char_not_symbol ch o Hr), IH. }
  assert (Hnone : filter is_symbol out = []).
  { apply filter_none. intros ch Hin. rewrite forallb_forall in Hplain.
    now apply negb_true_iff, Hplain. }
  eexists out, _. split; [exact E|]. split; [exact Hnone|].
  destruct (resolve_trace out base_probs' g2 H') as (out2 & E2 & Hall2).
  rewrite E2, Hnone, (resolved_char_plain out out2 Hall2 Hplain). reflexivity.
Qed.

Lemma resolve_twice_witness :
  exists out g',
    resolve_ambiguous_sequence (lit "ARN-yT")
      [("A", 0.25%Q); ("C", 0.25%Q); ("G", 0.25%Q); ("T", 0.25%Q)]
      (fun n => Z.of_nat n) = Ok (out, g') /\
    filter is_symbol out = [] /\
    resolve_ambiguous_sequence out
      [("A", 1%Q); ("C", 0%Q); ("G", 0%Q); ("T", 0%Q)] (fun _ => 5%Z)
    = Ok (out, fun _ => 5%Z).
Proof.
  exact (resolve_twice (lit "ARN-yT")
           [("A", 0.25%Q); ("C", 0.25%Q); ("G", 0.25%Q); ("T", 0.25%Q)]
           [("A", 1%Q); ("C", 0%Q); ("G", 0%Q); ("T", 0%Q)]
           (fun n => Z.of_nat n) (fun _ => 5%Z) eq_refl eq_refl).
Defined.

(** X13.  A distribution that lacks one of the four bases makes resolution
    raise [KeyError] before it looks at the sequence, even when the sequence
    is empty or holds no ambiguity symbol. *)
Theorem resolve_missing_base
    (seq : str) (base_probs : dict (K:=ascii) (V:=Q)) (g : rng) :
  forallb (dict_contains Ascii.eqb base_probs) ACGT = false ->
  resolve_ambiguous_sequence seq base_probs g = Raise KeyError.
Proof.
  unfold resolve_ambiguous_sequence, ACGT, base_order, dict_contains, dict_item.
  cbn [lit String.list_ascii_of_string forallb map_result].
  destruct (dict_get Ascii.eqb base_probs "A"); [|reflexivity].
  destruct (dict_get Ascii.eqb base_probs "C"); [|reflexivity].
  destruct (dict_get Ascii.eqb base_probs "G"); [|reflexivity].
  destruct (dict_get Ascii.eqb base_probs "T"); [|reflexivity].
  discriminate.
Qed.

Lemma resolve_missing_base_witness :
  resolve_ambiguous_sequence (lit "ACGT")
    [("A", 0.5%Q); ("C", 0.25%Q); ("G", 0.25%Q)] (fun _ => 0%Z)
  = Raise KeyError.
Proof.
  exact (resolve_missing_base (lit "ACGT")
           [("A", 0.5%Q); ("C", 0.25%Q); ("G", 0.25%Q)] (fun _ => 0%Z) eq_refl).
Defined.

Lemma resolve_loop_acc (seq : str) (tuple : list Q) :
  forall new_chars g,
    resolve_loop seq tuple new_chars g
    = ('(out, g') <- resolve_loop seq tuple [] g ;; Ok (new_chars ++ out, g')).
Proof.
  induction seq as [|ch seq IH]; intros new_chars g; cbn [resolve_loop].
  - cbn. now rewrite app_nil_r.
  - destruct (dict_contains Ascii.eqb AMBIGUOUS_NUCLEOTIDES (upper ch)).
    + destruct (_weights_for_symbol (upper ch) tuple) as [[bases weights]|e];
        [|reflexivity].
      cbn [bind]. destruct (choices bases weights g) as [[chosen g']|e];
        [|reflexivity].
      cbn [bind app].
      rewrite (IH (new_chars ++ _)), (IH [_]).
      destruct (resolve_loop seq tuple [] g') as [[out g'']|e]; [|reflexivity].
      cbn [bind]. now rewrite <- app_assoc.
    + cbn [app]. rewrite (IH (new_chars ++ _)), (IH [_]).
      destruct (resolve_loop seq tuple [] g) as [[out g'']|e]; [|reflexivity].
      cbn [bind]. now rewrite <- app_assoc.
Qed.

Lemma resolve_loop_app (s1 s2 : str) (tuple : list Q) :
  forall new_chars g,
    resolve_loop (s1 ++ s2) tuple new_chars g
    = ('(out, g') <- resolve_loop s1 tuple new_chars g ;;
       resolve_loop s2 tuple out g').
Proof.
  induction s1 as [|ch s1 IH]; intros new_chars g; cbn [app resolve_loop];
    [reflexivity|].
  destruct (dict_contains Ascii.eqb AMBIGUOUS_NUCLEOTIDES (upper ch)).
  - destruct (_weights_for_symbol (upper ch) tuple) as [[bases weights]|e];
      [|reflexivity].
    cbn [bind]. destruct (choices bases weights g) as [[chosen g']|e];
      [|reflexivity].
    cbn [bind]. apply IH.
  - apply IH.
Qed.

(** X14.  Resolving a sequence is resolving its first part, then its second
    part with the generator the first part left, and putting the results end
    to end; an error of either part is the error of the whole. *)
Theorem resolve_app
    (s1 s2 : str) (base_probs : dict (K:=ascii) (V:=Q)) (g : rng) :
  resolve_ambiguous_sequence (s1 ++ s2) base_probs g
  = ('(out1, g1) <- resolve_ambiguous_sequence s1 base_probs g ;;
     '(out2, g2) <- resolve_ambiguous_sequence s2 base_probs g1 ;;
     Ok (out1 ++ out2, g2)).
Proof.
  unfold resolve_ambiguous_sequence.
  destruct (map_result (dict_item Ascii.eqb base_probs) base_order)
    as [tuple|e]; [|reflexivity].
  cbn [bind]. rewrite resolve_loop_app.
  destruct (resolve_loop s1 tuple [] g) as [[out1 g1]|e]; [|reflexivity].
  cbn [bind]. apply resolve_loop_acc.
Qed.

Lemma draw_positive (symbol : ascii) (bases : str) (pA pC pG pT : Q) (g : rng) :
  dict_get Ascii.eqb AMBIGUOUS_NUCLEOTIDES symbol = Some bases ->
  (0 <= pA)%Q -> (0 <= pC)%Q -> (0 <= pG)%Q -> (0 <= pT)%Q ->
  exists chosen,
    choices bases (map (renormalized pA pC pG pT bases) bases) g
    = Ok (chosen, snd (random g)) /\
    In chosen bases /\
    (0 < renormalized pA pC pG pT bases chosen)%Q.
Proof.
  intros H HA HC HG HT.
  destruct (draw_for_symbol symbol bases pA pC pG pT g H)
    as (i & chosen & Hc & Hi & Hint).
  specialize (Hint HA HC HG HT).
  exists chosen. split; [exact Hc|]. split; [now apply nth_error_In in Hi|].
  set (f := renormalized pA pC pG pT bases) in *.
  pose proof (sum_Q_firstn_succ (map f bases) i) as Hs.
  rewrite (nth_indep _ 0%Q (f chosen)), map_nth in Hs
    by (rewrite length_map; apply nth_error_Some; congruence).
  rewrite (nth_error_nth _ _ _ Hi) in Hs. lra.
Qed.

Lemma renormalized_positive (symbol : ascii) (bases : str) (pA pC pG pT : Q) (b : ascii) :
  dict_get Ascii.eqb AMBIGUOUS_NUCLEOTIDES symbol = Some bases ->
  (0 <= pA)%Q -> (0 <= pC)%Q -> (0 <= pG)%Q -> (0 <= pT)%Q ->
  In b bases ->
  (0 < renormalized pA pC pG pT bases b)%Q ->
  (0 < tuple_weight pA pC pG pT b)%Q \/
  Forall (fun c => (tuple_weight pA pC pG pT c == 0)%Q) bases.
Proof.
  intros H HA HC HG HT Hb.
  unfold renormalized.
  destruct (Qeq_bool (sum_Q (map (tuple_weight pA pC pG pT) bases)) 0) eqn:E.
  - intros _. right. apply Qeq_bool_iff in E.
    table_cases H; unfold sum_Q in E; cbn -[Qplus] in E;
      repeat (apply Forall_cons; [cbn; lra|]); apply Forall_nil.
  - intros Hpos. left. apply Qeq_bool_false in E.
    set (S := sum_Q (map (tuple_weight pA pC pG pT) bases)) in *.
    assert (HS : (0 < S)%Q).
    { subst S. table_cases H; unfold sum_Q in *; cbn -[Qplus] in *; lra. }
    setoid_replace (tuple_weight pA pC pG pT b)
      with (tuple_weight pA pC pG pT b / S * S)%Q by (field; lra).
    apply Qmult_lt_0_compat; assumption.
Qed.

Lemma resolve_loop_weighted (seq : str) (pA pC pG pT : Q) :
  (0 <= pA)%Q -> (0 <= pC)%Q -> (0 <= pG)%Q -> (0 <= pT)%Q ->
  forall new_chars g,
  exists out g',
    resolve_loop seq [pA; pC; pG; pT] new_chars g = Ok (new_chars ++ out, g') /\
    Forall2
      (fun ch o =>
         forall bases,
           dict_get Ascii.eqb AMBIGUOUS_NUCLEOTIDES (upper ch) = Some bases ->
           In (upper o) bases /\
           ((0 < tuple_weight pA pC pG pT (upper o))%Q \/
            Forall (fun c => (tuple_weight pA pC pG pT c == 0)%Q) bases))
      seq out.
Proof.
  intros HA HC HG HT.
  induction seq as [|ch seq IH]; intros new_chars g; cbn [resolve_loop].
  - exists [], g. rewrite app_nil_r. split; [reflexivity | constructor].
  - unfold dict_contains.
    destruct (dict_get Ascii.eqb AMBIGUOUS_NUCLEOTIDES (upper ch)) as [bases|] eqn:E.
    + rewrite (weights_for_symbol_value _ _ pA pC pG pT E). cbn [bind].
      destruct (draw_positive _ _ pA pC pG pT g E HA HC HG HT)
        as (chosen & Hc & Hin & Hpos).
      rewrite Hc. cbn [bind].
      destruct (IH (new_chars ++ [if isupper ch then chosen else lower chosen])
                   (snd (random g))) as (out & g' & Hout & Hall).
      exists ((if isupper ch then chosen else lower chosen) :: out), g'.
      rewrite Hout, <- app_assoc. split; [reflexivity|].
      constructor; [|exact Hall].
      intros bases' H'. rewrite E in H'. injection H' as <-.
      assert (Hup : upper (if isupper ch then chosen else lower chosen) = chosen).
      { destruct (table_entries _ _ E) as (_ & _ & _ & Hall').
        rewrite Forall_forall in Hall'.
        destruct (Hall' chosen Hin) as (_ & Hu & _ & Hul).
        destruct (isupper ch); [now apply upper_of_upper | exact Hul]. }
      rewrite Hup. split; [exact Hin|].
      now apply (renormalized_positive (upper ch)).
    + destruct (IH (new_chars ++ [ch]) g) as (out & g' & Hout & Hall).
      exists (ch :: out), g'. rewrite Hout, <- app_assoc.
      split; [reflexivity|]. constructor; [|exact Hall].
      intros bases' H'. congruence.
Qed.

(** X15.  With non-negative weights, a symbol is never replaced by a
    candidate of weight zero, unless all candidates of the symbol have weight
    zero. *)
Theorem resolve_avoids_weightless
    (seq : str) (base_probs : dict (K:=ascii) (V:=Q)) (g : rng)
    (pA pC pG pT : Q) :
  map_result (dict_item Ascii.eqb base_probs) base_order = Ok [pA; pC; pG; pT] ->
  (0 <= pA)%Q -> (0 <= pC)%Q -> (0 <= pG)%Q -> (0 <= pT)%Q ->
  exists out g',
    resolve_ambiguous_sequence seq base_probs g = Ok (out, g') /\
    Forall2
      (fun ch o =>
         forall bases,
           dict_get Ascii.eqb AMBIGUOUS_NUCLEOTIDES (upper ch) = Some bases ->
           In (upper o) bases /\
           ((0 < tuple_weight pA pC pG pT (upper o))%Q \/
            Forall (fun c => (tuple_weight pA pC pG pT c == 0)%Q) bases))
      seq out.
Proof.
  intros E HA HC HG HT. unfold resolve_ambiguous_sequence. rewrite E. cbn [bind].
  destruct (resolve_loop_weighted seq pA pC pG pT HA HC HG HT [] g)
    as (out & g' & Hout & Hall).
  now exists out, g'.
Qed.

Lemma resolve_avoids_weightless_witness :
  exists out,
    value_of (resolve_ambiguous_sequence (lit "RYrK")
                [("A", 0.5%Q); ("C", 0.5%Q); ("G", 0%Q); ("T", 0%Q)]
                (fun n => (Z.of_nat n * 3000000000000000)%Z)) = Ok out.
Proof.
  destruct (resolve_avoids_weightless (lit "RYrK")
              [("A", 0.5%Q); ("C", 0.5%Q); ("G", 0%Q); ("T", 0%Q)]
              (fun n => (Z.of_nat n * 3000000000000000)%Z)
              0.5%Q 0.5%Q 0%Q 0%Q eq_refl
              ltac:(discriminate) ltac:(discriminate)
              ltac:(discriminate) ltac:(discriminate))
    as (out & g' & E & _).
  exists out. rewrite E. reflexivity.
Defined.

Lemma is_canonical_cases (b : ascii) :
  is_canonical b = true -> b = "A" \/ b = "C" \/ b = "G" \/ b = "T".
Proof.
  unfold is_canonical. cbn [ACGT lit String.list_ascii_of_string existsb].
  rewrite !orb_true_iff, !Ascii.eqb_eq. intuition discriminate.
Qed.

Lemma truediv_positive (c t : Z) :
  (0 <= c)%Z -> (0 < t)%Z ->
  ((0 < truediv c t)%Q -> (0 < c)%Z) /\ ((truediv c t == 0)%Q -> c = 0%Z).
Proof.
  intros Hc Ht. unfold truediv.
  assert (Hqt : (0 < inject_Z t)%Q)
    by (change 0%Q with (inject_Z 0); now rewrite <- Zlt_Qlt).
  assert (Hmul : (inject_Z c == inject_Z c / inject_Z t * inject_Z t)%Q)
    by (field; lra).
  split; intros H.
  - destruct (Z.eq_dec c 0) as [->|Hne]; [|lia].
    exfalso. revert H. unfold Qdiv. rewrite Qmult_0_l. apply Qlt_irrefl.
  - rewrite H, Qmult_0_l in Hmul.
    now apply (proj1 (inject_Z_injective c 0)).
Qed.

(** X16.  The distribution computed from a collection can always be used to
    resolve a sequence: resolution does not raise and keeps the length; and
    when the collection holds a canonical base at all, a symbol is replaced
    by a candidate that occurs in the collection, unless no candidate of the
    symbol occurs in it. *)
Theorem resolve_with_computed_distribution
    (seqs : list str) (seq : str) (g : rng) :
  exists out g',
    resolve_ambiguous_sequence seq (compute_base_distribution seqs) g
    = Ok (out, g') /\
    length out = length seq /\
    Forall2
      (fun ch o =>
         forall bases,
           dict_get Ascii.eqb AMBIGUOUS_NUCLEOTIDES (upper ch) = Some bases ->
           In (upper o) bases /\
           (canonical_total seqs = 0%Z \/
            (0 < base_count (upper o) seqs)%Z \/
            Forall (fun b => base_count b seqs = 0%Z) bases))
      seq out.
Proof.
  rewrite compute_base_distribution_value.
  pose proof (canonical_total_split seqs) as Hsplit.
  pose proof (base_count_nonneg "A" seqs) as HA.
  pose proof (base_count_nonneg "C" seqs) as HC.
  pose proof (base_count_nonneg "G" seqs) as HG.
  pose proof (base_count_nonneg "T" seqs) as HT.
  destruct (canonical_total seqs =? 0)%Z eqn:E0.
  - apply Z.eqb_eq in E0.
    destruct (resolve_loop_weighted seq (truediv 1 4) (truediv 1 4)
                (truediv 1 4) (truediv 1 4)
                ltac:(discriminate) ltac:(discriminate)
                ltac:(discriminate) ltac:(discriminate) [] g)
      as (out & g' & Hout & Hall).
    exists out, g'. split; [exact Hout|].
    split; [symmetry; exact (Forall2_length Hall)|].
    revert Hall. apply Forall2_impl. intros ch o H bases Hb.
    destruct (H bases Hb) as [Hin _]. auto.
  - apply Z.eqb_neq in E0.
    assert (Ht : (0 < canonical_total seqs)%Z) by lia.
    set (t := canonical_total seqs) in *.
    destruct (resolve_loop_weighted seq
                (truediv (base_count "A" seqs) t) (truediv (base_count "C" seqs) t)
                (truediv (base_count "G" seqs) t) (truediv (base_count "T" seqs) t)
                ltac:(apply share_bounds; lia) ltac:(apply share_bounds; lia)
                ltac:(apply share_bounds; lia) ltac:(apply share_bounds; lia) [] g)
      as (out & g' & Hout & Hall).
    exists out, g'. split; [exact Hout|].
    split; [symmetry; exact (Forall2_length Hall)|].
    revert Hall. apply Forall2_impl. intros ch o H bases Hb.
    destruct (H bases Hb) as [Hin Hw]. split; [exact Hin|]. right.
    destruct (table_entries _ _ Hb) as (_ & _ & _ & Hcan).
    rewrite Forall_forall in Hcan.
    assert (Hval : forall b, In b bases ->
              tuple_weight (truediv (base_count "A" seqs) t)
                           (truediv (base_count "C" seqs) t)
                           (truediv (base_count "G" seqs) t)
                           (truediv (base_count "T" seqs) t) b
              = truediv (base_count b seqs) t).
    { intros b Hbin. destruct (Hcan b Hbin) as (Hc & _).
      destruct (is_canonical_cases b Hc) as [ -> | [ -> | [ -> | -> ] ] ]; reflexivity. }
    destruct Hw as [Hpos|Hzero].
    + left. rewrite (Hval _ Hin) in Hpos.
      apply (truediv_positive _ t (base_count_nonneg _ seqs) Ht). exact Hpos.
    + right. apply Forall_forall. intros b Hbin.
      rewrite Forall_forall in Hzero. specialize (Hzero b Hbin).
      rewrite (Hval b Hbin) in Hzero.
      apply (truediv_positive _ t (base_count_nonneg _ seqs) Ht). exact Hzero.
Qed.

Lemma Forall2_map_in {A B} (R : B -> B -> Prop) (f f' : A -> B) (l : list A) :
  (forall x, In x l -> R (f x) (f' x)) -> Forall2 R (map f l) (map f' l).
Proof.
  induction l as [|x l IH]; intros H; cbn [map]; constructor.
  - apply H. now left.
  - apply IH. intros y Hy. apply H. now right.
Qed.

Lemma renormalized_scale (symbol : ascii) (bases : str) (pA pC pG pT k : Q) (b : ascii) :
  dict_get Ascii.eqb AMBIGUOUS_NUCLEOTIDES symbol = Some bases ->
  ~ (k == 0)%Q -> In b bases ->
  (renormalized (k * pA) (k * pC) (k * pG) (k * pT) bases b
   == renormalized pA pC pG pT bases b)%Q.
Proof.
  intros H Hk Hb. unfold renormalized.
  assert (HS : (sum_Q (map (tuple_weight (k * pA) (k * pC) (k * pG) (k * pT)) bases)
                == k * sum_Q (map (tuple_weight pA pC pG pT) bases))%Q).
  { table_cases H; unfold sum_Q; cbn -[Qplus Qmult]; ring. }
  assert (Hw : (tuple_weight (k * pA) (k * pC) (k * pG) (k * pT) b
                == k * tuple_weight pA pC pG pT b)%Q).
  { destruct (table_entries _ _ H) as (_ & _ & _ & Hcan).
    rewrite Forall_forall in Hcan. destruct (Hcan b Hb) as (Hc & _).
    destruct (is_canonical_cases b Hc) as [ -> | [ -> | [ -> | -> ] ] ];
      reflexivity. }
  set (S' := sum_Q (map (tuple_weight (k * pA) (k * pC) (k * pG) (k * pT)) bases)) in *.
  set (S := sum_Q (map (tuple_weight pA pC pG pT) bases)) in *.
  destruct (Qeq_bool S' 0) eqn:E'; destruct (Qeq_bool S 0) eqn:E.
  - reflexivity.
  - apply Qeq_bool_iff in E'. apply Qeq_bool_false in E.
    rewrite HS in E'. apply Qmult_integral in E'. tauto.
  - apply Qeq_bool_false in E'. apply Qeq_bool_iff in E.
    exfalso. apply E'. rewrite HS, E. ring.
  - apply Qeq_bool_false in E. rewrite Hw, HS. field. split; assumption.
Qed.

(** X17.  In exact arithmetic the weights do not change when the four
    probabilities are multiplied by one non-zero factor, so a distribution
    need not be normalised before it is used. *)
Theorem weights_ignore_scale
    (symbol : ascii) (bases : str) (pA pC pG pT k : Q) :
  dict_get Ascii.eqb AMBIGUOUS_NUCLEOTIDES symbol = Some bases ->
  ~ (k == 0)%Q ->
  exists weights weights',
    _weights_for_symbol symbol [(k * pA)%Q; (k * pC)%Q; (k * pG)%Q; (k * pT)%Q]
    = Ok (bases, weights) /\
    _weights_for_symbol symbol [pA; pC; pG; pT] = Ok (bases, weights') /\
    Forall2 Qeq weights weights'.
Proof.
  intros H Hk. eexists _, _.
  split; [now apply weights_for_symbol_value|].
  split; [now apply weights_for_symbol_value|].
  assert (Hall : forall b, In b bases ->
            (renormalized (k * pA) (k * pC) (k * pG) (k * pT) bases b
             == renormalized pA pC pG pT bases b)%Q)
    by (intros b Hb; now apply (renormalized_scale symbol)).
  now apply Forall2_map_in.
Qed.

Lemma weights_ignore_scale_witness :
  exists weights weights',
    _weights_for_symbol "B" [(4 * 0.5)%Q; (4 * 0.25)%Q; (4 * 0.25)%Q; (4 * 0)%Q]
    = Ok (lit "CGT", weights) /\
    _weights_for_symbol "B" [0.5%Q; 0.25%Q; 0.25%Q; 0%Q] = Ok (lit "CGT", weights') /\
    Forall2 Qeq weights weights'.
Proof.
  exact (weights_ignore_scale "B" (lit "CGT") 0.5%Q 0.25%Q 0.25%Q 0%Q 4%Q
           eq_refl ltac:(discriminate)).
Defined.

(** ** Doubles against exact arithmetic *)

Lemma same_draw (float_sum : list Q -> Q) (symbol : ascii) (bases : str)
    (pA pC pG pT : Q) (g : rng) :
  accurate_sum float_sum ->
  dict_get Ascii.eqb AMBIGUOUS_NUCLEOTIDES symbol = Some bases ->
  Forall (fun p => (0 <= p <= 1)%Q /\ is_double p) [pA; pC; pG; pT] ->
  (forall j, 0 < j < length bases ->
     let bound := sum_Q (firstn j (map (renormalized pA pC pG pT bases) bases)) in
     (fst (random g) < bound - pow2 (-45))%Q \/
     (bound + pow2 (-45) <= fst (random g))%Q) ->
  exists weights chosen,
    Float64._weights_for_symbol float_sum symbol [pA; pC; pG; pT]
    = Ok (bases, weights) /\
    Float64.choices bases weights g = Ok (chosen, snd (random g)) /\
    choices bases (map (renormalized pA pC pG pT bases) bases) g
    = Ok (chosen, snd (random g)).
Proof.
  intros Hsum H Hp Hclear.
  destruct (float_draw_for_symbol float_sum symbol bases pA pC pG pT g Hsum H Hp)
    as (weights & chosen & Hw & Hc & (weights' & i & _ & Hi & _ & Heps & _)).
  destruct (draw_for_symbol symbol bases pA pC pG pT g H)
    as (i' & chosen' & Hc' & Hi' & Hint).
  inversion Hp as [|? ? [[HA _] _] H1]; subst.
  inversion H1 as [|? ? [[HC _] _] H2]; subst.
  inversion H2 as [|? ? [[HG _] _] H3]; subst.
  inversion H3 as [|? ? [[HT _] _] _]; subst.
  specialize (Hint HA HC HG HT).
  pose proof (renormalized_nonneg symbol bases pA pC pG pT H HA HC HG HT) as Hpos.
  set (shares := map (renormalized pA pC pG pT bases) bases) in *.
  assert (Hws : Forall (fun w => (0 <= w)%Q) shares).
  { apply Forall_forall. intros w Hin.
    apply in_map_iff in Hin as (b & <- & Hb).
    rewrite Forall_forall in Hpos. now apply Hpos. }
  assert (Hlt : i < length bases) by (apply nth_error_Some; congruence).
  assert (Hlt' : i' < length bases) by (apply nth_error_Some; congruence).
  assert (He : (0 < pow2 (-45))%Q) by reflexivity.
  cbv zeta in Heps.
  assert (i = i') as ->.
  { destruct (Nat.lt_trichotomy i i') as [Hl|[Heq|Hg]]; [|exact Heq|].
    - exfalso. pose proof (sum_Q_firstn_mono _ Hws (S i) i' Hl) as Hm.
      destruct (Hclear (S i) ltac:(lia)) as [Hc1|Hc1]; cbv zeta in Hc1;
        fold shares in Hc1; lra.
    - exfalso. pose proof (sum_Q_firstn_mono _ Hws (S i') i Hg) as Hm.
      destruct (Hclear i ltac:(lia)) as [Hc1|Hc1]; cbv zeta in Hc1;
        fold shares in Hc1; lra. }
  exists weights, chosen. split; [exact Hw|]. split; [exact Hc|].
  rewrite Hc'. congruence.
Qed.

Lemma same_resolve_loop (float_sum : list Q -> Q) (pA pC pG pT : Q) :
  accurate_sum float_sum ->
  Forall (fun p => (0 <= p <= 1)%Q /\ is_double p) [pA; pC; pG; pT] ->
  forall seq new_chars g,
    (forall k ch bases j,
        nth_error seq k = Some ch ->
        dict_get Ascii.eqb AMBIGUOUS_NUCLEOTIDES (upper ch) = Some bases ->
        0 < j < length bases ->
        let u := fst (random
                        (rng_drop (length (filter is_symbol (firstn k seq))) g)) in
        let bound :=
          sum_Q (firstn j (map (renormalized pA pC pG pT bases) bases)) in
        (u < bound - pow2 (-45))%Q \/ (bound + pow2 (-45) <= u)%Q) ->
    Float64.resolve_loop float_sum seq [pA; pC; pG; pT] new_chars g
    = resolve_loop seq [pA; pC; pG; pT] new_chars g.
Proof.
  intros Hsum Hp seq.
  induction seq as [|ch seq IH]; intros new_chars g Hclear;
    cbn [Float64.resolve_loop resolve_loop]; [reflexivity|].
  unfold dict_contains.
  destruct (dict_get Ascii.eqb AMBIGUOUS_NUCLEOTIDES (upper ch)) as [bases|] eqn:E.
  - destruct (same_draw float_sum (upper ch) bases pA pC pG pT g Hsum E Hp)
      as (weights & chosen & Hw & Hc & Hc').
    { intros j Hj. exact (Hclear 0 ch bases j eq_refl E Hj). }
    rewrite Hw, (weights_for_symbol_value _ _ pA pC pG pT E). cbn [bind].
    rewrite Hc, Hc'. cbn [bind]. apply IH.
    assert (Es : is_symbol ch = true)
      by (unfold is_symbol, dict_contains; now rewrite E).
    intros k c bases' j Hk Hb Hj.
    pose proof (Hclear (S k) c bases' j Hk Hb Hj) as Hs.
    cbn [firstn filter] in Hs. rewrite Es in Hs. exact Hs.
  - apply IH.
    assert (Es : is_symbol ch = false)
      by (unfold is_symbol, dict_contains; now rewrite E).
    intros k c bases' j Hk Hb Hj.
    pose proof (Hclear (S k) c bases' j Hk Hb Hj) as Hs.
    cbn [firstn filter] in Hs. rewrite Es in Hs. exact Hs.
Qed.

(** X30.  On doubles, resolution returns what it returns in exact
    arithmetic, character for character, whenever no number drawn lies
    within [2^-45] of a boundary between the exact cumulated shares of the
    candidates of the symbol it is drawn for. *)
Theorem float_resolution_follows_exact_shares
    (float_sum : list Q -> Q) (seq : str)
    (base_probs : dict (K:=ascii) (V:=Q)) (pA pC pG pT : Q) (g : rng) :
  accurate_sum float_sum ->
  map_result (dict_item Ascii.eqb base_probs) base_order = Ok [pA; pC; pG; pT] ->
  Forall (fun p => (0 <= p <= 1)%Q /\ is_double p) [pA; pC; pG; pT] ->
  (forall k ch bases j,
      nth_error seq k = Some ch ->
      dict_get Ascii.eqb AMBIGUOUS_NUCLEOTIDES (upper ch) = Some bases ->
      0 < j < length bases ->
      let u := fst (random
                      (rng_drop (length (filter is_symbol (firstn k seq))) g)) in
      let bound :=
        sum_Q (firstn j (map (renormalized pA pC pG pT bases) bases)) in
      (u < bound - pow2 (-45))%Q \/ (bound + pow2 (-45) <= u)%Q) ->
  Float64.resolve_ambiguous_sequence float_sum seq base_probs g
  = resolve_ambiguous_sequence seq base_probs g.
Proof.
  intros Hsum E Hp Hclear.
  unfold Float64.resolve_ambiguous_sequence, resolve_ambiguous_sequence.
  rewrite E. cbn [bind]. now apply same_resolve_loop.
Qed.

Lemma float_resolution_follows_exact_shares_witness :
  Float64.resolve_ambiguous_sequence sum_compensated (lit "RaB")
    [("A", 0.25%Q); ("C", 0.25%Q); ("G", 0.25%Q); ("T", 0.25%Q)]
    (fun _ => 2251799813685248%Z)
  = resolve_ambiguous_sequence (lit "RaB")
      [("A", 0.25%Q); ("C", 0.25%Q); ("G", 0.25%Q); ("T", 0.25%Q)]
      (fun _ => 2251799813685248%Z).
Proof.
  apply (float_resolution_follows_exact_shares sum_compensated (lit "RaB")
           [("A", 0.25%Q); ("C", 0.25%Q); ("G", 0.25%Q); ("T", 0.25%Q)]
           0.25%Q 0.25%Q 0.25%Q 0.25%Q (fun _ => 2251799813685248%Z)
           sum_compensated_accurate eq_refl).
  - repeat constructor; try discriminate; reflexivity.
  - intros [|[|[|[|k]]]] ch bases j Hk Hb Hj;
      cbn in Hk; try discriminate Hk; injection Hk as <-;
      cbn in Hb; try discriminate Hb.
    all: injection Hb as <-; cbn in Hj.
    all: (assert (j = 1 \/ j = 2) as [-> | ->] by lia); try lia.
    all: left; vm_compute; reflexivity.
Defined.

(** ** Cut lengths: more properties *)

(** X18.  For all integers, negative ones too, [random_cut_length] returns a
    value (the clamp keeps the range of [randint] from being empty); the
    value is at most [K] and at most [orig_len]; and one random number is
    drawn exactly when a cut is made. *)
Theorem random_cut_length_all_integers (orig_len K H : Z) (g : rng) :
  exists v,
    random_cut_length orig_len K H g
    = Ok (v, if (orig_len <=? K)%Z then g else rng_drop 1 g) /\
    (v <= K)%Z /\ (v <= orig_len)%Z.
Proof.
  unfold random_cut_length. destruct (orig_len <=? K)%Z eqn:E.
  - apply Z.leb_le in E. exists orig_len. repeat split; lia.
  - apply Z.leb_gt in E.
    set (max_len := Z.min K orig_len).
    set (min_len := if (Z.max 1 (K - H) >? max_len)%Z then max_len
                    else Z.max 1 (K - H)).
    assert (Hle : (min_len <= max_len)%Z).
    { subst min_len. destruct (Z.max 1 (K - H) >? max_len)%Z eqn:E'; [lia|].
      rewrite Z.gtb_ltb in E'. apply Z.ltb_ge in E'. exact E'. }
    destruct (randint_range min_len max_len g Hle) as (v & Hv & Hrange).
    exists v. split; [exact Hv|]. subst max_len. lia.
Qed.

(** X19.  When a cut is made, every length from [max 1 (K - H)] to [K] can
    come out: for each there is a state of the generator that yields it. *)
Theorem random_cut_length_reaches (orig_len K H v : Z) :
  (K < orig_len)%Z -> (Z.max 1 (K - H) <= v <= K)%Z ->
  exists g, value_of (random_cut_length orig_len K H g) = Ok v.
Proof.
  intros Hcut Hv. exists (fun _ => (v - Z.max 1 (K - H))%Z).
  unfold random_cut_length.
  destruct (orig_len <=? K)%Z eqn:E; [apply Z.leb_le in E; lia|].
  rewrite Z.min_l by lia.
  destruct (Z.max 1 (K - H) >? K)%Z eqn:E'.
  { rewrite Z.gtb_ltb in E'. apply Z.ltb_lt in E'. lia. }
  unfold randint. destruct (K <? Z.max 1 (K - H))%Z eqn:E2.
  { apply Z.ltb_lt in E2. lia. }
  cbn [rng_next value_of bind]. f_equal.
  rewrite Z.mod_small by lia. lia.
Qed.

Lemma random_cut_length_reaches_witness :
  exists g, value_of (random_cut_length 200 100 10 g) = Ok 93%Z.
Proof.
  apply (random_cut_length_reaches 200 100 10 93); lia.
Defined.

(** ** FASTA files: more properties *)

Lemma existsb_false_forall {A} (f : A -> bool) (l : list A) :
  existsb f l = false <-> forall x, In x l -> f x = false.
Proof.
  induction l as [|y l IH]; cbn [existsb In]; [tauto|].
  rewrite orb_false_iff, IH. split.
  - intros [Hy Hl] x [<-|Hx]; auto.
  - intros H. split; [apply H; now left | intros x Hx; apply H; now right].
Qed.

Lemma dropwhile_incl {A} (p : A -> bool) (l : list A) (x : A) :
  In x (dropwhile p l) -> In x l.
Proof.
  induction l as [|y l IH]; cbn [dropwhile]; [tauto|].
  destruct (p y); [intros H; right; now apply IH | tauto].
Qed.

Lemma strip_incl (l : str) (x : ascii) : In x (strip l) -> In x l.
Proof.
  unfold strip, rstrip, lstrip. intros H.
  apply in_rev, dropwhile_incl, in_rev in H. now apply dropwhile_incl in H.
Qed.

Lemma dropwhile_twice {A} (p : A -> bool) (l : list A) :
  dropwhile p (dropwhile p l) = dropwhile p l.
Proof.
  induction l as [|y l IH]; cbn [dropwhile]; [reflexivity|].
  destruct (p y) eqn:E; [exact IH|]. cbn [dropwhile]. now rewrite E.
Qed.

Lemma dropwhile_head {A} (p : A -> bool) (l : list A) :
  match dropwhile p l with [] => True | y :: _ => p y = false end.
Proof.
  induction l as [|y l IH]; cbn [dropwhile]; [exact I|].
  destruct (p y) eqn:E; [exact IH | exact E].
Qed.

Lemma dropwhile_suffix {A} (p : A -> bool) (l : list A) :
  exists front, l = front ++ dropwhile p l.
Proof.
  induction l as [|y l [front IH]]; cbn [dropwhile]; [now exists []|].
  destruct (p y); [exists (y :: front); cbn; now rewrite <- IH | now exists []].
Qed.

Lemma strip_twice (l : str) : strip (strip l) = strip l.
Proof.
  unfold strip, rstrip, lstrip.
  set (y := dropwhile isspace l).
  set (w := dropwhile isspace (rev y)).
  assert (Hl : dropwhile isspace (rev w) = rev w).
  { destruct (dropwhile_suffix isspace (rev y)) as [front Hfront]. fold w in Hfront.
    apply (f_equal (@rev ascii)) in Hfront.
    rewrite rev_involutive, rev_app_distr in Hfront.
    pose proof (dropwhile_head isspace l) as Hy. fold y in Hy.
    destruct (rev w) as [|c z] eqn:Ez; [reflexivity|].
    rewrite Hfront in Hy. cbn in Hy. cbn [dropwhile]. now rewrite Hy. }
  rewrite Hl, rev_involutive. subst w. now rewrite dropwhile_twice.
Qed.

Lemma universal_newlines_no_CR_bounded (n : nat) :
  forall text, length text <= n ->
    existsb (fun c => Ascii.eqb c CR) (universal_newlines text) = false.
Proof.
  induction n as [|n IH]; intros text Hlen.
  - destruct text; [reflexivity | cbn in Hlen; lia].
  - destruct text as [|c rest]; [reflexivity|]. cbn [length] in Hlen.
    cbn [universal_newlines]. destruct (Ascii.eqb c CR) eqn:Ec.
    + cbn [existsb]. change (Ascii.eqb LF CR) with false. cbn [orb].
      destruct rest as [|d rest']; [reflexivity|]. cbn [length] in Hlen.
      destruct (Ascii.eqb d LF); apply IH; cbn [length]; lia.
    + cbn [existsb]. rewrite Ec. cbn [orb]. apply IH. lia.
Qed.

Lemma universal_newlines_no_CR (text : str) :
  existsb (fun c => Ascii.eqb c CR) (universal_newlines text) = false.
Proof. now apply (universal_newlines_no_CR_bounded (length text)). Qed.

Lemma rstrip_char_none (c : ascii) (l : str) :
  existsb (Ascii.eqb c) l = false -> rstrip_char c l = l.
Proof.
  intros H. unfold rstrip_char.
  rewrite dropwhile_none by now rewrite existsb_reverse.
  apply rev_involutive.
Qed.

Lemma no_line_end_no_LF (l : str) :
  existsb is_line_end l = false -> existsb (Ascii.eqb LF) l = false.
Proof.
  apply existsb_weaken. intros x Hx. apply Ascii.eqb_eq in Hx. now subst x.
Qed.

Lemma lines_from_content (text : str) :
  existsb (fun c => Ascii.eqb c CR) text = false ->
  forall current,
    existsb is_line_end current = false ->
    Forall (fun l => existsb is_line_end (rstrip_char LF l) = false)
           (lines_from current text).
Proof.
  induction text as [|c rest IH]; intros HCR current Hcur; cbn [lines_from].
  - destruct current as [|x current]; constructor; [|constructor].
    now rewrite rstrip_char_none by now apply no_line_end_no_LF.
  - cbn [existsb] in HCR. apply orb_false_iff in HCR as [Hc Hrest].
    destruct (Ascii.eqb c LF) eqn:E.
    + constructor; [|now apply IH].
      change (current ++ [LF]) with (terminated current).
      now rewrite rstrip_terminated.
    + apply IH; [exact Hrest|].
      rewrite existsb_app, Hcur. cbn. unfold is_line_end. now rewrite E, Hc.
Qed.

Lemma file_lines_content (text : str) :
  Forall (fun l => existsb is_line_end (rstrip_char LF l) = false)
         (file_lines text).
Proof.
  unfold file_lines. apply lines_from_content;
    [apply universal_newlines_no_CR | reflexivity].
Qed.

Lemma strip_no_line_end (l : str) :
  existsb is_line_end l = false -> existsb is_line_end (strip l) = false.
Proof.
  rewrite !existsb_false_forall. intros H x Hx. apply H. now apply strip_incl.
Qed.

Lemma skipn_no_line_end (n : nat) (l : str) :
  existsb is_line_end l = false -> existsb is_line_end (skipn n l) = false.
Proof.
  intros H. rewrite <- (firstn_skipn n l), existsb_app in H.
  now apply orb_false_iff in H.
Qed.

Lemma joined_clean (lines : list str) :
  Forall (fun l => existsb is_line_end l = false) lines ->
  existsb is_blank_or_line_end (joined lines) = false.
Proof.
  intros H. apply existsb_false_forall. intros x Hx.
  unfold joined, remove_char in Hx.
  apply filter_In in Hx as [Hx Htab]. apply filter_In in Hx as [Hx Hsp].
  apply negb_true_iff in Htab, Hsp.
  apply in_concat in Hx as (l & Hl & Hxl).
  rewrite Forall_forall in H. specialize (H l Hl).
  rewrite existsb_false_forall in H.
  unfold is_blank_or_line_end. now rewrite (H x Hxl), Hsp, Htab.
Qed.

Lemma flush_clean (st : reader) :
  reader_clean st ->
  Forall (fun r => header_ok (fst r) = true /\
                   existsb is_blank_or_line_end (snd r) = false) (flush st).
Proof.
  intros (Hrec & Hhd & Hlines). unfold flush.
  destruct (header st) as [h|]; [|exact Hrec].
  apply Forall_app. split; [exact Hrec|]. constructor; [|constructor].
  cbn [fst snd]. split; [now apply Hhd | now apply joined_clean].
Qed.

Lemma read_line_clean (st : reader) (line : str) :
  existsb is_line_end (rstrip_char LF line) = false ->
  reader_clean st -> reader_clean (read_line st line).
Proof.
  intros Hline Hst. unfold read_line.
  destruct (rstrip_char LF line) as [|c l] eqn:E; [exact Hst|].
  destruct (startswith (lit ">") (c :: l)).
  - split; [|split]; cbn [records header seq_lines].
    + now apply flush_clean.
    + intros h [= <-]. unfold header_ok.
      rewrite strip_twice, str_eqb_refl, andb_true_r.
      apply negb_true_iff, strip_no_line_end.
      exact (skipn_no_line_end 1 (c :: l) Hline).
    + constructor.
  - destruct Hst as (Hrec & Hhd & Hlines).
    split; [|split]; cbn [records header seq_lines]; [exact Hrec | exact Hhd |].
    apply Forall_app. split; [exact Hlines|]. constructor; [|constructor].
    now apply strip_no_line_end.
Qed.

Lemma read_lines_clean (lines : list str) :
  Forall (fun l => existsb is_line_end (rstrip_char LF l) = false) lines ->
  forall st, reader_clean st -> reader_clean (fold_left read_line lines st).
Proof.
  induction 1 as [|l lines Hl _ IH]; intros st Hst; cbn [fold_left];
    [exact Hst|].
  apply IH. now apply read_line_clean.
Qed.

(** X20.  Whatever the text, every record that [read_fasta] returns has a
    header without line end and without blank at either end, and a sequence
    without space, tab or line end. *)
Theorem read_fasta_records_are_clean (text : str) :
  Forall (fun r => header_ok (fst r) = true /\
                   existsb is_blank_or_line_end (snd r) = false)
         (read_fasta text).
Proof.
  unfold read_fasta. apply flush_clean, read_lines_clean.
  - apply file_lines_content.
  - split; [constructor|]. split; [discriminate | constructor].
Qed.

Lemma read_lines_headers (lines : list str) :
  forall st,
    map fst (flush (fold_left read_line lines st))
    = map fst (flush st) ++ map header_of_line (filter is_header_line lines).
Proof.
  induction lines as [|l lines IH]; intros st; cbn [fold_left filter].
  - cbn. now rewrite app_nil_r.
  - rewrite IH. unfold read_line.
    assert (Hh : is_header_line l = startswith (lit ">") (rstrip_char LF l))
      by reflexivity.
    assert (Ho : header_of_line l = strip (skipn 1 (rstrip_char LF l)))
      by reflexivity.
    destruct (rstrip_char LF l) as [|c rest] eqn:E.
    + now rewrite Hh.
    + destruct (startswith (lit ">") (c :: rest)); rewrite Hh.
      * cbn [map]. rewrite Ho. unfold flush at 1. cbn [header records seq_lines].
        rewrite map_app, <- app_assoc. reflexivity.
      * f_equal. unfold flush. cbn [header records seq_lines].
        destruct (header st); [|reflexivity].
        rewrite !map_app. reflexivity.
Qed.

(** X21.  [read_fasta] returns one record for each line that starts with ">",
    in order, with the rest of that line, stripped, as header; so lines
    before the first such line give no record, and a text without such a
    line gives none. *)
Theorem read_fasta_headers (text : str) :
  map fst (read_fasta text)
  = map header_of_line (filter is_header_line (file_lines text)) /\
  length (read_fasta text)
  = length (filter is_header_line (file_lines text)).
Proof.
  assert (H : map fst (read_fasta text)
              = map header_of_line (filter is_header_line (file_lines text)))
    by (unfold read_fasta; now rewrite read_lines_headers).
  split; [exact H|].
  apply (f_equal (@length str)) in H. now rewrite !length_map in H.
Qed.

Lemma pieces_lengths (width m : nat) (s : str) :
  0 < width ->
  length s <= m * width ->
  (forall k, k < m -> k * width < length s) ->
  length (pieces width m s) = m /\
  Forall (fun p => 1 <= length p <= width) (pieces width m s) /\
  (forall i, S i < m -> length (nth i (pieces width m s) []) = width).
Proof.
  intros Hw Hup Hlow. unfold pieces. split; [|split].
  - now rewrite length_map, length_seq.
  - apply Forall_forall. intros p Hp.
    apply in_map_iff in Hp as (k & <- & Hk). apply in_seq in Hk.
    specialize (Hlow k ltac:(lia)).
    rewrite length_firstn, length_skipn. lia.
  - intros i Hi.
    rewrite (nth_indep _ [] (firstn width (skipn (0 * width) s)))
      by (rewrite length_map, length_seq; lia).
    rewrite (map_nth (fun k => firstn width (skipn (k * width) s))).
    rewrite seq_nth by lia. cbn [Nat.add].
    pose proof (Hlow (S i) Hi) as H1.
    rewrite length_firstn, length_skipn. cbn [Nat.mul] in H1. lia.
Qed.

(** X22.  For a width of at least 1, [write_fasta] writes, for each record,
    the line ">" + header and then the sequence cut into lines: put end to
    end the lines give the sequence back, none is empty or longer than the
    width, all but the last have exactly the width, and there are as many as
    the length divided by the width, rounded up. *)
Theorem write_fasta_layout (rs : list record) (width : Z) :
  (1 <= width)%Z ->
  write_fasta rs width
  = Ok (concat (map terminated (flat_map (record_lines width) rs))) /\
  forall s,
    concat (wrapped s width) = s /\
    Z.of_nat (length (wrapped s width))
    = ((Z.of_nat (length s) + width - 1) / width)%Z /\
    Forall (fun p => (1 <= Z.of_nat (length p) <= width)%Z) (wrapped s width) /\
    (forall i, S i < length (wrapped s width) ->
               Z.of_nat (length (nth i (wrapped s width) [])) = width).
Proof.
  intros Hw. assert (Hpos : (0 < width)%Z) by lia.
  split; [unfold write_fasta; now rewrite write_records_lines|].
  intros s. destruct (wrapped_pieces s width Hpos) as (Hwr & Hup & Hlow).
  destruct (pieces_lengths (Z.to_nat width) _ s ltac:(lia) Hup Hlow)
    as (Hlen & Hall & Hfull).
  rewrite Hwr. split; [now apply pieces_concat|]. split; [|split].
  - rewrite Hlen, Z2Nat.id; [reflexivity|]. apply Z.div_pos; lia.
  - revert Hall. apply Forall_impl. intros p Hp. lia.
  - intros i Hi. rewrite Hlen in Hi. rewrite (Hfull i Hi). lia.
Qed.

Lemma write_fasta_layout_witness :
  write_fasta [(lit "s1", lit "ACGTACGTAC")] 4
  = Ok (concat (map terminated
                  (flat_map (record_lines 4) [(lit "s1", lit "ACGTACGTAC")]))).
Proof.
  apply (write_fasta_layout [(lit "s1", lit "ACGTACGTAC")] 4). lia.
Defined.

Lemma range_negative_step (len width : Z) :
  (0 <= len)%Z -> (width < 0)%Z -> range 0 len width = Ok [].
Proof.
  intros Hlen Hw. unfold range.
  destruct (width =? 0)%Z eqn:E0; [apply Z.eqb_eq in E0; lia|].
  destruct (0 <? width)%Z eqn:E1; [apply Z.ltb_lt in E1; lia|].
  assert (H : ((0 - len - width - 1) / - width < 1)%Z)
    by (apply Z.div_lt_upper_bound; lia).
  replace (Z.to_nat ((0 - len - width - 1) / - width)) with 0 by lia.
  reflexivity.
Qed.

Lemma write_records_negative (width : Z) (rs : list record) :
  (width < 0)%Z ->
  forall text,
    write_records width text rs
    = Ok (text ++ concat (map (fun r => terminated (lit ">" ++ fst r)) rs)).
Proof.
  intros Hw. induction rs as [|[h s] rs IH]; intros text; cbn [write_records map concat].
  - now rewrite app_nil_r.
  - unfold write_record. rewrite range_negative_step by lia.
    cbn [bind fold_left]. rewrite IH. unfold terminated. cbn [fst].
    now rewrite <- !app_assoc.
Qed.

(** X23.  The width must be positive.  With width 0 nothing but the empty
    collection can be written: any record raises [ValueError].  With a
    negative width only the header lines are written, without error, so that
    reading the file back gives every record an empty sequence. *)
Theorem write_fasta_width_not_positive :
  (forall r rs, write_fasta (r :: rs) 0 = Raise ValueError) /\
  write_fasta [] 0 = Ok [] /\
  (forall rs width,
      (width < 0)%Z ->
      write_fasta rs width
      = Ok (concat (map (fun r => terminated (lit ">" ++ fst r)) rs)) /\
      (forallb (fun r => header_ok (fst r)) rs = true ->
       read_fasta (concat (map (fun r => terminated (lit ">" ++ fst r)) rs))
       = map (fun r => (fst r, [])) rs)).
Proof.
  split; [|split].
  - intros [h s] rs. reflexivity.
  - reflexivity.
  - intros rs width Hw. split.
    + unfold write_fasta. now rewrite write_records_negative.
    + intros Hok.
      assert (Hlines : map (fun r : record => terminated (lit ">" ++ fst r)) rs
                       = map terminated
                           (flat_map (record_lines 1)
                                     (map (fun r : record => (fst r, @nil ascii)) rs))).
      { clear Hok. induction rs as [|[h s] rs IH]; [reflexivity|].
        cbn [map flat_map fst]. rewrite IH. reflexivity. }
      assert (Hok' : forallb (record_ok 1)
                       (map (fun r : record => (fst r, @nil ascii)) rs) = true).
      { rewrite forallb_forall in Hok |- *. intros r Hr.
        apply in_map_iff in Hr as (r0 & <- & Hr0).
        unfold record_ok. cbn [fst snd]. rewrite (Hok r0 Hr0). reflexivity. }
      match goal with
      | |- read_fasta ?t = _ =>
          change t with
            (concat (map (fun r : record => terminated (lit ">" ++ fst r)) rs))
      end.
      rewrite Hlines. unfold read_fasta.
      rewrite file_lines_terminated
        by (apply record_lines_no_line_end; [lia | exact Hok']).
      now rewrite (read_record_lines 1 _ ltac:(lia) Hok').
Qed.

Lemma write_fasta_width_not_positive_witness :
  write_fasta [(lit "s1", lit "ACGT"); (lit "s2", lit "TT")] (-3)
  = Ok (lit ">s1" ++ [LF] ++ lit ">s2" ++ [LF]) /\
  read_fasta (lit ">s1" ++ [LF] ++ lit ">s2" ++ [LF])
  = [(lit "s1", []); (lit "s2", [])].
Proof.
  destruct (proj2 (proj2 write_fasta_width_not_positive)
              [(lit "s1", lit "ACGT"); (lit "s2", lit "TT")] (-3)%Z
              ltac:(lia)) as [Hw Hr].
  split; [exact Hw | exact (Hr eq_refl)].
Defined.

Lemma universal_newlines_crlf (text : str) :
  existsb (fun c => Ascii.eqb c CR) text = false ->
  universal_newlines (with_crlf text) = text.
Proof.
  induction text as [|c rest IH]; [reflexivity|].
  cbn [existsb]. intros H. apply orb_false_iff in H as [Hc Hrest].
  unfold with_crlf. cbn [flat_map]. fold (with_crlf rest).
  destruct (Ascii.eqb c LF) eqn:E.
  - apply Ascii.eqb_eq in E. subst c. cbn [app universal_newlines].
    change (Ascii.eqb CR CR) with true. change (Ascii.eqb LF LF) with true.
    cbn iota. now rewrite IH.
  - cbn [app universal_newlines]. rewrite Hc. now rewrite IH.
Qed.

(** X24.  A file saved with Windows line ends is read like the same file with
    Unix line ends. *)
Theorem read_fasta_windows_line_ends (text : str) :
  existsb (fun c => Ascii.eqb c CR) text = false ->
  read_fasta (with_crlf text) = read_fasta text.
Proof.
  intros H. unfold read_fasta, file_lines.
  now rewrite universal_newlines_crlf, universal_newlines_id.
Qed.

Lemma read_fasta_windows_line_ends_witness :
  read_fasta (with_crlf (lit ">s1" ++ [LF] ++ lit "AC GT" ++ [LF] ++ lit "TT"))
  = read_fasta (lit ">s1" ++ [LF] ++ lit "AC GT" ++ [LF] ++ lit "TT").
Proof.
  apply (read_fasta_windows_line_ends
           (lit ">s1" ++ [LF] ++ lit "AC GT" ++ [LF] ++ lit "TT")).
  reflexivity.
Defined.

Lemma flush_same (st st' : reader) : reader_same st st' -> flush st = flush st'.
Proof.
  intros (Hr & Hh & Hc). unfold flush, joined. now rewrite Hr, Hh, Hc.
Qed.

Lemma read_line_same (st st' : reader) (line : str) :
  reader_same st st' -> reader_same (read_line st line) (read_line st' line).
Proof.
  intros Hs. pose proof (flush_same st st' Hs) as Hf.
  destruct Hs as (Hr & Hh & Hc). unfold read_line.
  destruct (rstrip_char LF line) as [|c l]; [now split|].
  destruct (startswith (lit ">") (c :: l)).
  - split; [exact Hf | split; reflexivity].
  - split; [exact Hr | split; [exact Hh|]]. cbn [seq_lines].
    now rewrite !concat_app, Hc.
Qed.

Lemma read_lines_same (lines : list str) :
  forall st st',
    reader_same st st' ->
    reader_same (fold_left read_line lines st) (fold_left read_line lines st').
Proof.
  induction lines as [|l lines IH]; intros st st' Hs; cbn [fold_left];
    [exact Hs|].
  apply IH. now apply read_line_same.
Qed.

Lemma strip_blank (blank : str) : forallb isspace blank = true -> strip blank = [].
Proof.
  intros H. unfold strip, lstrip.
  replace (dropwhile isspace blank) with (@nil ascii); [reflexivity|].
  induction blank as [|c blank IH]; [reflexivity|].
  cbn [forallb] in H. apply andb_true_iff in H as [Hc Hrest].
  cbn [dropwhile]. rewrite Hc. now apply IH.
Qed.

Lemma read_blank_line (st : reader) (blank : str) :
  forallb isspace blank = true -> existsb is_line_end blank = false ->
  reader_same (read_line st (terminated blank)) st.
Proof.
  intros Hsp Hle. unfold read_line. rewrite (rstrip_terminated _ Hle).
  assert (Hstrip : strip blank = []) by now apply strip_blank.
  destruct blank as [|c rest]; [now split|].
  assert (Hstart : startswith (lit ">") (c :: rest) = false).
  { cbn [forallb] in Hsp. apply andb_true_iff in Hsp as [Hc _].
    cbn [startswith lit String.list_ascii_of_string].
    destruct (Ascii.eqb ">" c) eqn:Ec; [|reflexivity].
    apply Ascii.eqb_eq in Ec. subst c. discriminate Hc. }
  rewrite Hstart, Hstrip.
  split; [reflexivity | split; [reflexivity|]]. cbn [seq_lines].
  rewrite concat_app. cbn. now rewrite app_nil_r.
Qed.

Lemma universal_newlines_app (front rest : str) :
  existsb (fun c => Ascii.eqb c CR) front = false ->
  universal_newlines (front ++ rest) = front ++ universal_newlines rest.
Proof.
  induction front as [|c front IH]; [reflexivity|].
  cbn [existsb]. intros H. apply orb_false_iff in H as [Hc Hfront].
  cbn [app universal_newlines]. now rewrite Hc, IH.
Qed.

Lemma lines_from_terminated_app (lines : list str) (rest : str) :
  Forall (fun l => existsb is_line_end l = false) lines ->
  lines_from [] (concat (map terminated lines) ++ rest)
  = map terminated lines ++ lines_from [] rest.
Proof.
  induction 1 as [|l lines Hl _ IH]; [reflexivity|].
  cbn [map concat]. unfold terminated at 1. rewrite <- !app_assoc.
  cbn [app]. rewrite (lines_from_line l Hl), IH. reflexivity.
Qed.

Lemma file_lines_terminated_app (lines : list str) (rest : str) :
  Forall (fun l => existsb is_line_end l = false) lines ->
  file_lines (concat (map terminated lines) ++ rest)
  = map terminated lines ++ file_lines rest.
Proof.
  intros H. unfold file_lines.
  rewrite universal_newlines_app by now apply no_CR_terminated.
  now apply lines_from_terminated_app.
Qed.

(** X25.  A line that is empty or holds blanks only has no effect, wherever it
    stands: it neither ends the sequence being read nor adds to it. *)
Theorem read_fasta_skips_blank_lines (before : list str) (blank rest : str) :
  Forall (fun l => existsb is_line_end l = false) before ->
  forallb isspace blank = true -> existsb is_line_end blank = false ->
  read_fasta (concat (map terminated before) ++ terminated blank ++ rest)
  = read_fasta (concat (map terminated before) ++ rest).
Proof.
  intros Hb Hsp Hle. unfold read_fasta.
  rewrite (file_lines_terminated_app before rest Hb).
  replace (concat (map terminated before) ++ terminated blank ++ rest)
    with (concat (map terminated (before ++ [blank])) ++ rest)
    by (rewrite map_app, concat_app; cbn; now rewrite app_nil_r, <- app_assoc).
  rewrite file_lines_terminated_app
    by (apply Forall_app; split; [exact Hb | now repeat constructor]).
  rewrite map_app, <- app_assoc, !fold_left_app. cbn [map app fold_left].
  apply flush_same, read_lines_same. now apply read_blank_line.
Qed.

Lemma read_fasta_skips_blank_lines_witness :
  read_fasta (concat (map terminated [lit ">s1"; lit "ACGT"])
              ++ terminated (lit "   ") ++ lit "TTAA")
  = read_fasta (concat (map terminated [lit ">s1"; lit "ACGT"]) ++ lit "TTAA").
Proof.
  apply (read_fasta_skips_blank_lines [lit ">s1"; lit "ACGT"] (lit "   ") (lit "TTAA"));
    [repeat constructor | reflexivity | reflexivity].
Defined.

(** ** Access to the dataset index *)

Lemma skipn_nth_error {A} (l : list A) :
  forall a x, nth_error l a = Some x -> skipn a l = x :: skipn (S a) l.
Proof.
  induction l as [|y l IH]; intros [|a] x H; try discriminate.
  - now injection H as ->.
  - cbn [nth_error] in H. cbn [skipn]. now apply IH.
Qed.

Lemma flat_map_nth_error {A} (l : list A) (m : nat) :
  forall a,
    a + m <= length l ->
    flat_map (fun i => match nth_error l (Z.to_nat i) with
                       | Some x => [x]
                       | None => []
                       end)
             (map (fun k => (Z.of_nat a + Z.of_nat k * 1)%Z) (seq 0 m))
    = firstn m (skipn a l).
Proof.
  induction m as [|m IH]; intros a Hlen; [reflexivity|].
  rewrite <- cons_seq, <- seq_shift. cbn [map flat_map]. rewrite map_map.
  replace (Z.to_nat (Z.of_nat a + Z.of_nat 0 * 1)) with a by lia.
  destruct (nth_error l a) as [x|] eqn:E.
  2:{ apply nth_error_None in E. lia. }
  rewrite (skipn_nth_error l a x E). cbn [firstn app]. f_equal.
  rewrite <- (IH (S a)) by lia. f_equal. apply map_ext. intros k. lia.
Qed.

Lemma list_getslice_plain {A} (l : list A) (a b : Z) :
  (0 <= a <= b)%Z -> (b <= Z.of_nat (length l))%Z ->
  list_getslice l (Some a) (Some b) None
  = Ok (firstn (Z.to_nat (b - a)) (skipn (Z.to_nat a) l)) /\
  list_getslice l None None None = Ok l.
Proof.
  intros Hab Hb.
  assert (Hadj : forall i, (0 <= i <= Z.of_nat (length l))%Z ->
                           slice_adjust (Z.of_nat (length l)) 1 i = i).
  { intros i Hi. unfold slice_adjust.
    destruct (i <? 0)%Z eqn:E1; [apply Z.ltb_lt in E1; lia|].
    destruct (Z.of_nat (length l) <=? i)%Z eqn:E2; [|reflexivity].
    apply Z.leb_le in E2. cbn. lia. }
  assert (Hrange : forall x y, (0 <= x <= y)%Z ->
            range x y 1 = Ok (map (fun k => (Z.of_nat (Z.to_nat x) + Z.of_nat k * 1)%Z)
                                  (seq 0 (Z.to_nat (y - x))))).
  { intros x y Hxy. unfold range. cbn [Z.eqb Z.ltb Z.compare].
    rewrite Z.div_1_r. replace (y - x + 1 - 1)%Z with (y - x)%Z by lia.
    f_equal. apply map_ext. intros k. lia. }
  split.
  - unfold list_getslice. cbn [Z.eqb].
    rewrite !Hadj by lia. rewrite (Hrange a b Hab). cbn [bind].
    rewrite flat_map_nth_error by lia. reflexivity.
  - unfold list_getslice. cbn [Z.eqb Z.ltb Z.compare].
    rewrite (Hrange 0%Z (Z.of_nat (length l))) by lia. cbn [bind].
    rewrite flat_map_nth_error by lia.
    rewrite Z.sub_0_r, Nat2Z.id. cbn [Z.to_nat skipn]. now rewrite firstn_all.
Qed.

Section ContentsFacts.
Variable parse_fasta_to_sequences : str -> list str.
Variable file_text : str -> str.

(** X26.  For [-len <= i < len] the item [dataset[i]] is a content, the one
    that iteration yields at position [i], counted from the end when [i] is
    negative; every other int raises [IndexError]. *)
Theorem FastaDataset_getitem_int (ds : FastaDataset) (i : Z) :
  let n := FastaDataset_len ds in
  ((0 <= i < n)%Z ->
   exists c,
     nth_error (FastaDataset_iter parse_fasta_to_sequences file_text ds)
               (Z.to_nat i) = Some c /\
     FastaDataset_getitem parse_fasta_to_sequences file_text ds (Index_int i)
     = Returned (One c) /\
     FastaDataset_getitem parse_fasta_to_sequences file_text ds
       (Index_int (i - n))
     = Returned (One c)) /\
  ((i < - n)%Z \/ (n <= i)%Z ->
   FastaDataset_getitem parse_fasta_to_sequences file_text ds (Index_int i)
   = Raised_IndexError).
Proof.
  intros n. unfold FastaDataset_len in n.
  unfold FastaDataset_getitem, FastaDataset_iter. fold n. split.
  - intros Hi.
    destruct (nth_error (fasta_paths ds) (Z.to_nat i)) as [path|] eqn:E.
    2:{ apply nth_error_None in E. lia. }
    exists (FastaContent_init parse_fasta_to_sequences file_text path).
    split; [now rewrite nth_error_map, E|]. split.
    + destruct (i <? 0)%Z eqn:E1; [apply Z.ltb_lt in E1; lia|].
      rewrite E1. destruct (n <=? i)%Z eqn:E2; [apply Z.leb_le in E2; lia|].
      cbn [orb]. now rewrite E.
    + destruct (i - n <? 0)%Z eqn:E1; [|apply Z.ltb_ge in E1; lia].
      replace (i - n + n)%Z with i by lia.
      destruct (i <? 0)%Z eqn:E3; [apply Z.ltb_lt in E3; lia|].
      destruct (n <=? i)%Z eqn:E2; [apply Z.leb_le in E2; lia|].
      cbn [orb]. now rewrite E.
  - intros [Hi|Hi].
    + destruct (i <? 0)%Z eqn:E1; [|apply Z.ltb_ge in E1; lia].
      destruct (i + n <? 0)%Z eqn:E2; [reflexivity|apply Z.ltb_ge in E2; lia].
    + destruct (i <? 0)%Z eqn:E1; [apply Z.ltb_lt in E1; lia|].
      rewrite E1. destruct (n <=? i)%Z eqn:E2; [reflexivity|].
      apply Z.leb_gt in E2. lia.
Qed.

(** X27.  A slice [dataset[a:b]] with [0 <= a <= b <= len] holds the contents
    that iteration yields from position [a] up to, not including, [b], and
    [dataset[:]] holds all of them. *)
Theorem FastaDataset_getitem_slice (ds : FastaDataset) (a b : Z) :
  (0 <= a <= b)%Z -> (b <= FastaDataset_len ds)%Z ->
  FastaDataset_getitem parse_fasta_to_sequences file_text ds
    (Index_slice (Some a) (Some b) None)
  = Returned (Many (firstn (Z.to_nat (b - a))
                      (skipn (Z.to_nat a)
                         (FastaDataset_iter parse_fasta_to_sequences file_text ds)))) /\
  FastaDataset_getitem parse_fasta_to_sequences file_text ds
    (Index_slice None None None)
  = Returned (Many (FastaDataset_iter parse_fasta_to_sequences file_text ds)).
Proof.
  intros Hab Hb. unfold FastaDataset_getitem, FastaDataset_iter.
  destruct (list_getslice_plain (fasta_paths ds) a b Hab Hb) as [-> ->].
  split; [|reflexivity]. now rewrite skipn_map, firstn_map.
Qed.

(** X28.  Iterating over the dataset built from a directory listing yields one
    content for each name of the listing that starts with the prefix and
    ends with ".fasta"; the names of the contents are these names, ordered
    by the number after the prefix; [len] is their count. *)
Theorem FastaDataset_iter_names (listing : list str) (path prefix : str) :
  forallb entry_name listing = true ->
  map FastaContent_name
      (FastaDataset_iter parse_fasta_to_sequences file_text
         (FastaDataset_init listing path prefix))
  = sort_by (fun f => extract_number f prefix) (selected prefix listing) /\
  FastaDataset_len (FastaDataset_init listing path prefix)
  = Z.of_nat (length (selected prefix listing)).
Proof.
  intros Hnames. unfold FastaDataset_iter, FastaDataset_len.
  rewrite (fasta_paths_sorted_names listing path prefix Hnames).
  set (kept := sort_by (fun f => extract_number f prefix) (selected prefix listing)).
  assert (Hperm : Permutation kept (selected prefix listing)) by apply sort_by_perm.
  split.
  - rewrite !map_map. unfold FastaContent_name. cbn [fc_path].
    rewrite <- (map_id kept) at 2. apply map_ext_in. intros f Hf.
    apply basename_join. rewrite forallb_forall in Hnames. apply Hnames.
    apply (Permutation_in _ Hperm) in Hf. now apply filter_In in Hf.
  - rewrite length_map. f_equal. now apply Permutation_length.
Qed.
End ContentsFacts.

Lemma FastaDataset_getitem_int_witness :
  exists c,
    FastaDataset_getitem (fun _ => []) (fun _ => [])
      (FastaDataset_init [lit "test10.fasta"; lit "test2.fasta"] (lit "d") (lit "test"))
      (Index_int (-1))
    = Returned (One c) /\
    fc_path c = lit "d/test10.fasta".
Proof.
  destruct (proj1 (FastaDataset_getitem_int (fun _ => []) (fun _ => [])
              (FastaDataset_init [lit "test10.fasta"; lit "test2.fasta"]
                                 (lit "d") (lit "test")) 1%Z)
              ltac:(cbn; lia)) as (c & Hn & _ & Hneg).
  exists c. split; [exact Hneg|].
  cbn in Hn. now injection Hn as <-.
Defined.

Lemma FastaDataset_getitem_slice_witness :
  FastaDataset_getitem (fun _ => []) (fun _ => [])
    (FastaDataset_init [lit "test10.fasta"; lit "test2.fasta"; lit "test3.fasta"]
                       (lit "d") (lit "test"))
    (Index_slice (Some 1%Z) (Some 3%Z) None)
  = Returned (Many (map (FastaContent_init (fun _ => []) (fun _ => []))
                        [lit "d/test3.fasta"; lit "d/test10.fasta"])).
Proof.
  apply (proj1 (FastaDataset_getitem_slice (fun _ => []) (fun _ => [])
           (FastaDataset_init [lit "test10.fasta"; lit "test2.fasta"; lit "test3.fasta"]
                              (lit "d") (lit "test")) 1%Z 3%Z
           ltac:(lia) ltac:(cbn; lia))).
Defined.

Lemma FastaDataset_iter_names_witness :
  map FastaContent_name
      (FastaDataset_iter (fun _ => []) (fun _ => [])
         (FastaDataset_init [lit "test10.fasta"; lit "a.txt"; lit "test2.fasta"]
                            (lit "d") (lit "test")))
  = [lit "test2.fasta"; lit "test10.fasta"].
Proof.
  apply (proj1 (FastaDataset_iter_names (fun _ => []) (fun _ => [])
           [lit "test10.fasta"; lit "a.txt"; lit "test2.fasta"]
           (lit "d") (lit "test") eq_refl)).
Defined.

Lemma insert_by_filter {A} (key : A -> Z) (k : Z) (x : A) (l : list A) :
  filter (fun y => (key y =? k)%Z) (insert_by key x l)
  = filter (fun y => (key y =? k)%Z) (x :: l).
Proof.
  induction l as [|y l IH]; [reflexivity|]. cbn [insert_by].
  destruct (key y <? key x)%Z eqn:E; [|reflexivity].
  apply Z.ltb_lt in E. cbn [filter] in IH |- *. rewrite IH.
  destruct (key x =? k)%Z eqn:Ex; [|reflexivity].
  destruct (key y =? k)%Z eqn:Ey; [|reflexivity].
  apply Z.eqb_eq in Ex, Ey. lia.
Qed.

Lemma sort_by_stable {A} (key : A -> Z) (k : Z) (l : list A) :
  filter (fun y => (key y =? k)%Z) (sort_by key l)
  = filter (fun y => (key y =? k)%Z) l.
Proof.
  induction l as [|x l IH]; [reflexivity|].
  cbn [sort_by fold_right]. fold (sort_by key l).
  rewrite insert_by_filter. cbn [filter]. now rewrite IH.
Qed.

(** X29.  Names with the same number (for instance "test1.fasta" and
    "test01.fasta", or several names without number) stand in the index in
    the order in which the directory listing gave them. *)
Theorem FastaDataset_ties_keep_listing_order
    (listing : list str) (path prefix : str) (k : Z) :
  forallb entry_name listing = true ->
  filter (fun f => (extract_number f prefix =? k)%Z)
         (map basename (fasta_paths (FastaDataset_init listing path prefix)))
  = filter (fun f => (extract_number f prefix =? k)%Z)
           (selected prefix listing).
Proof.
  intros Hnames. rewrite (fasta_paths_sorted_names listing path prefix Hnames).
  rewrite map_map.
  rewrite (map_ext_in _ (fun f => f)), map_id; [apply sort_by_stable|].
  intros f Hf. apply basename_join. rewrite forallb_forall in Hnames.
  apply Hnames.
  apply (Permutation_in _ (sort_by_perm _ _)) in Hf. now apply filter_In in Hf.
Qed.

Lemma FastaDataset_ties_keep_listing_order_witness :
  filter (fun f => (extract_number f (lit "test") =? 1)%Z)
         (map basename
              (fasta_paths
                 (FastaDataset_init
                    [lit "test01.fasta"; lit "test3.fasta"; lit "test1.fasta"]
                    (lit "d") (lit "test"))))
  = [lit "test01.fasta"; lit "test1.fasta"].
Proof.
  apply (FastaDataset_ties_keep_listing_order
           [lit "test01.fasta"; lit "test3.fasta"; lit "test1.fasta"]
           (lit "d") (lit "test") 1%Z eq_refl).
Defined.
